(** * Feishu channel extension: inbound gate, debounce merge, threading and
    reply chunking.

    A shallow embedding of the TypeScript sources of the extension
    ([format.ts], [threading.ts], [monitor/context.ts],
    [monitor/message-handler.ts], [monitor/message-handler/prepare.ts])
    together with the properties the specification states about them,
    and of the code around them ([targets.ts], [send.ts],
    [monitor/replies.ts], [monitor/events/messages.ts],
    [monitor/events/index.ts], [monitor/provider.ts],
    [monitor/reply-dispatcher.ts]) with properties read off the code.

    JavaScript strings are sequences of code units; the embedding keeps the
    code units below 256 ([ascii]).  Numbers used as lengths, indices and
    limits are integers ([Z]), so that the [-1] of a failed search and the
    negative-index convention of [slice] are written out. *)

From Stdlib Require Import ZArith List Ascii String Bool Lia.
From stdpp Require Import gmap strings.
Import ListNotations.

(* ===================================================================== *)
(** * Definitions                                                         *)
(* ===================================================================== *)

(** ** JavaScript string primitives used by the sources *)

Module Js.

Local Open Scope Z_scope.

Definition text := list ascii.

Definition len (s : text) : Z := Z.of_nat (length s).

(** [WhiteSpace] and [LineTerminator] code units below 256, the ones
    [String.prototype.trim] strips: TAB, LF, VT, FF, CR, SP and NBSP. *)
Definition is_white_space (c : ascii) : bool :=
  let n := nat_of_ascii c in
  (Nat.eqb n 9 || Nat.eqb n 10 || Nat.eqb n 11 || Nat.eqb n 12
   || Nat.eqb n 13 || Nat.eqb n 32 || Nat.eqb n 160)%bool.

Fixpoint trimStart (s : text) : text :=
  match s with
  | [] => []
  | c :: s' => if is_white_space c then trimStart s' else s
  end.

Definition trimEnd (s : text) : text := rev (trimStart (rev s)).

(** [s.trim()] *)
Definition trim (s : text) : text := trimEnd (trimStart s).

(** Relative index of [slice]: a negative index counts from the end, and
    the result is clamped to [0 .. len]. *)
Definition relative_index (length_ : Z) (i : Z) : Z :=
  if i <? 0 then Z.max (length_ + i) 0 else Z.min i length_.

(** [s.slice(start, end)]; [end_ = None] is the one-argument call. *)
Definition slice (s : text) (start : Z) (end_ : option Z) : text :=
  let from := relative_index (len s) start in
  let to := match end_ with
            | Some e => relative_index (len s) e
            | None => len s
            end in
  firstn (Z.to_nat (to - from)) (skipn (Z.to_nat from) s).

Fixpoint starts_with (pat s : text) : bool :=
  match pat, s with
  | [], _ => true
  | _ :: _, [] => false
  | p :: pat', c :: s' => (Ascii.eqb p c && starts_with pat' s')%bool
  end.

(** Downward scan of the candidate start positions [n, n-1, .., 0]. *)
Fixpoint last_match_from (pat s : text) (n : nat) : Z :=
  if starts_with pat (skipn n s) then Z.of_nat n
  else match n with
       | O => -1
       | S n' => last_match_from pat s n'
       end.

(** [s.lastIndexOf(pat, position)]: the search starts at [position]
    clamped to [0 .. len s - len pat] and runs towards the front. *)
Definition lastIndexOf (s pat : text) (position : Z) : Z :=
  if len s <? len pat then -1
  else last_match_from pat s
         (Z.to_nat (Z.min (Z.max position 0) (len s - len pat))).

(** [xs.join(sep)] *)
Fixpoint join (sep : text) (xs : list text) : text :=
  match xs with
  | [] => []
  | [x] => x
  | x :: rest => x ++ sep ++ join sep rest
  end.

Definition LF : ascii := ascii_of_nat 10.
Definition SP : ascii := ascii_of_nat 32.

Definition lit (s : string) : text := list_ascii_of_string s.

Global Arguments lit : simpl never.

(** [a === b] on strings. *)
Definition text_eqb (a b : text) : bool := bool_decide (a = b).

(** [xs.includes(x)] *)
Definition includes (xs : list text) (x : text) : bool :=
  existsb (text_eqb x) xs.

(** [c.toLowerCase()] on one code unit below 256: A-Z and the Latin-1
    capitals (all of 192..222 but the multiplication sign 215). *)
Definition to_lower_char (c : ascii) : ascii :=
  let n := nat_of_ascii c in
  if ((Nat.leb 65 n && Nat.leb n 90)
      || (Nat.leb 192 n && Nat.leb n 222 && negb (Nat.eqb n 215)))%bool
  then ascii_of_nat (n + 32) else c.

Definition toLowerCase (s : text) : text := map to_lower_char s.

(** Truthiness of an optional string: [undefined] and the empty string
    are falsy. *)
Definition truthy (o : option text) : option text :=
  match o with
  | Some (c :: s) => Some (c :: s)
  | _ => None
  end.

Definition is_truthy (o : option text) : bool :=
  match truthy o with Some _ => true | None => false end.

(** [a ?? b] *)
Definition nullish {A : Type} (a : option A) (b : A) : A :=
  match a with Some x => x | None => b end.

(** [s.replace(/\s+/g, " ")]: every maximal run of white space becomes one
    space. *)
Fixpoint collapse_runs (in_run : bool) (s : text) : text :=
  match s with
  | [] => []
  | c :: s' =>
      if is_white_space c
      then (if in_run then [] else [SP]) ++ collapse_runs true s'
      else c :: collapse_runs false s'
  end.

Definition collapse_white_space (s : text) : text := collapse_runs false s.

(** The characters of [s] that are not white space, in order. *)
Definition non_white_space (s : text) : text :=
  List.filter (fun c => negb (is_white_space c)) s.

End Js.

(** ** format.ts *)

Module Format.

Import Js.
Local Open Scope Z_scope.

(** [i > maxLength * 0.5].  For integers the product by [0.5] is exact in
    double precision, so the comparison is [maxLength < 2 * i]. *)
Definition exceeds_half (i maxLength : Z) : bool := maxLength <? 2 * i.

(** The break point chosen by one iteration of the loop of
    [chunkFeishuText] (lines 190-208). *)
Definition breakPoint (remaining : text) (maxLength : Z) : Z :=
  let paragraphBreak := lastIndexOf remaining [LF; LF] maxLength in
  if exceeds_half paragraphBreak maxLength then paragraphBreak
  else
    let newlineBreak := lastIndexOf remaining [LF] maxLength in
    if exceeds_half newlineBreak maxLength then newlineBreak
    else
      let spaceBreak := lastIndexOf remaining [SP] maxLength in
      if exceeds_half spaceBreak maxLength then spaceBreak
      else maxLength.

(** The [while (remaining.length > 0)] loop.  The loop has no bound of its
    own, so the embedding counts iterations: [None] is a run that is still
    going after [fuel] iterations. *)
Fixpoint chunk_loop (fuel : nat) (remaining : text) (maxLength : Z)
    (chunks : list text) : option (list text) :=
  match fuel with
  | O => None
  | S fuel' =>
      if len remaining <=? 0 then Some chunks
      else if len remaining <=? maxLength then Some (chunks ++ [remaining])
      else
        let bp := breakPoint remaining maxLength in
        chunk_loop fuel' (trim (slice remaining bp None)) maxLength
          (chunks ++ [trim (slice remaining 0 (Some bp))])
  end.

Definition chunkFeishuText (fuel : nat) (text_ : text) (maxLength : Z)
    : option (list text) :=
  if len text_ <=? maxLength then Some [text_]
  else chunk_loop fuel text_ maxLength [].

End Format.

(** ** The chunking rule in the words of the specification

    A second, declarative reading of [chunkFeishuText], to be compared with
    the function above: break points are described by what they are (the
    last occurrence of a separator at or before the limit, beyond half of
    it), not by how [lastIndexOf] finds them. *)

Module FormatSpec.

Import Js.
Local Open Scope Z_scope.

(** [pat] occurs in [s] at index [i]. *)
Definition occurs_at (pat s : text) (i : Z) : Prop :=
  exists pre post, s = pre ++ pat ++ post /\ len pre = i.

(** [i] is the index of the last occurrence of [pat] at or before [m]. *)
Definition last_at_or_before (pat s : text) (m i : Z) : Prop :=
  occurs_at pat s i /\ i <= m /\
  forall j, occurs_at pat s j -> j <= m -> j <= i.

(** The candidate for [pat] is accepted: it exists and its index exceeds
    [m * 0.5]. *)
Definition qualifies (pat s : text) (m i : Z) : Prop :=
  last_at_or_before pat s m i /\ m < 2 * i.

Definition none_qualifies (pat s : text) (m : Z) : Prop :=
  forall i, ~ qualifies pat s m i.

(** Paragraph break, then single newline, then space, then the limit. *)
Inductive break_point (s : text) (m : Z) : Z -> Prop :=
| break_paragraph i :
    qualifies [LF; LF] s m i -> break_point s m i
| break_newline i :
    none_qualifies [LF; LF] s m -> qualifies [LF] s m i ->
    break_point s m i
| break_space i :
    none_qualifies [LF; LF] s m -> none_qualifies [LF] s m ->
    qualifies [SP] s m i -> break_point s m i
| break_at_limit :
    none_qualifies [LF; LF] s m -> none_qualifies [LF] s m ->
    none_qualifies [SP] s m -> break_point s m m.

(** The chunks emitted for a remainder [r]: nothing once it is empty, the
    remainder itself once it fits, otherwise the trimmed prefix up to the
    break point followed by the chunks of the trimmed suffix. *)
Inductive chunks_of (m : Z) : text -> list text -> Prop :=
| chunks_nil : chunks_of m [] []
| chunks_last r :
    r <> [] -> len r <= m -> chunks_of m r [r]
| chunks_cut r bp cs :
    m < len r -> break_point r m bp ->
    chunks_of m (trim (skipn (Z.to_nat bp) r)) cs ->
    chunks_of m r (trim (firstn (Z.to_nat bp) r) :: cs).

Definition chunk (t : text) (m : Z) (cs : list text) : Prop :=
  if len t <=? m then cs = [t] else chunks_of m t cs.

Definition all_white_space (s : text) : Prop :=
  Forall (fun c => is_white_space c = true) s.

(** [t] is the chunks [cs] in order, with nothing but white space before,
    between and after them. *)
Inductive rebuilds : list text -> text -> Prop :=
| rebuilds_nil w :
    all_white_space w -> rebuilds [] w
| rebuilds_cons w c cs rest :
    all_white_space w -> rebuilds cs rest ->
    rebuilds (c :: cs) (w ++ c ++ rest).

End FormatSpec.

(** ** types.ts *)

Module Types.

Import Js.

Record FeishuEventHeader := {
  event_id : text;
  event_type : text;
  app_id : text;
}.

Record FeishuUserId := {
  union_id : option text;
  user_id : option text;
  open_id : option text;
}.

Record FeishuMention := {
  mention_key : text;
  mention_id : option FeishuUserId;
  mention_name : text;
}.

Record FeishuSender := {
  sender_id : option FeishuUserId;
  sender_type : text;
}.

Record FeishuPostTag := {
  tag : text;
  tag_text : option text;
  tag_user_name : option text;
  tag_user_id : option text;
}.

Record FeishuPostContent := {
  title : option text;
  post_content : option (list (list FeishuPostTag));
}.

(** The [content] of a message is a JSON string.  It is kept as what
    [JSON.parse] makes of it: the three properties the sources read. *)
Record JsonContent := {
  json_text : option text;
  json_zh_cn : option FeishuPostContent;
  json_en_us : option FeishuPostContent;
}.

Inductive Content :=
| ContentMissing                    (* undefined or the empty string *)
| ContentInvalid                    (* JSON.parse throws *)
| ContentJson (fields : JsonContent).

(** [JSON.stringify({ text })] *)
Definition stringify_text (t : text) : Content :=
  ContentJson {| json_text := Some t; json_zh_cn := None; json_en_us := None |}.

(** The identifiers are declared as strings; the handlers guard them with
    [?.] and [!], so they are optional here. *)
Record FeishuMessage := {
  message_id : option text;
  root_id : option text;
  parent_id : option text;
  create_time : option text;
  chat_id : option text;
  chat_type : option text;
  message_type : text;
  content : Content;
  mentions : option (list FeishuMention);
}.

Record FeishuMessageEvent := {
  header : FeishuEventHeader;
  event_sender : option FeishuSender;
  event_message : option FeishuMessage;
}.

(** [{ ...message, content }] *)
Definition with_content (message : FeishuMessage) (c : Content)
    : FeishuMessage :=
  {| message_id := message_id message;
     root_id := root_id message;
     parent_id := parent_id message;
     create_time := create_time message;
     chat_id := chat_id message;
     chat_type := chat_type message;
     message_type := message_type message;
     content := c;
     mentions := mentions message |}.

End Types.

(** ** threading.ts *)

Module Threading.

Import Js Types.

Record FeishuThreadContext := {
  rootId : option text;
  parentId : option text;
  isThreadReply : bool;
  replyToId : option text;
  messageThreadId : option text;
}.

(** [x?.trim() || undefined] *)
Definition trimmed_or_undefined (x : option text) : option text :=
  match x with
  | None => None
  | Some s => truthy (Some (trim s))
  end.

Definition resolveFeishuThreadContext (message : FeishuMessage)
    : FeishuThreadContext :=
  let root := trimmed_or_undefined (root_id message) in
  let parent := trimmed_or_undefined (parent_id message) in
  let messageId := trimmed_or_undefined (message_id message) in
  match root with
  | None =>
      {| rootId := None;
         parentId := None;
         isThreadReply := false;
         replyToId := None;
         messageThreadId := messageId |}
  | Some r =>
      {| rootId := Some r;
         parentId := parent;
         isThreadReply := true;
         replyToId := Some (nullish parent r);
         messageThreadId := Some r |}
  end.

Definition buildFeishuReplyParams (threadContext : FeishuThreadContext)
    (messageId : option text) : option text :=
  if (isThreadReply threadContext && is_truthy (replyToId threadContext))%bool
  then replyToId threadContext
  else truthy messageId.

End Threading.

(** ** The deduplication cache ([src/infra/dedupe.js], not among the
    sources) *)

Module Dedupe.

Import Js.
Local Open Scope Z_scope.

(** Modelled from the spec: the bounded, time-expiring set of dedupe keys
    of section 3.  Entries are kept oldest first, each key with its expiry
    time; [ttlMs] is the retention window and [maxSize] the capacity. *)
Record DedupeCache := {
  ttlMs : Z;
  maxSize : nat;
  entries : list (text * Z);
}.

(** Modelled from the spec: [createDedupeCache({ ttlMs, maxSize })] starts
    with no key. *)
Definition createDedupeCache (ttl : Z) (size : nat) : DedupeCache :=
  {| ttlMs := ttl; maxSize := size; entries := [] |}.

(** Modelled from the spec: the expiry recorded for a key, if any. *)
Definition expiry_of (key : text) (es : list (text * Z)) : option Z :=
  option_map snd (List.find (fun e => text_eqb (fst e) key) es).

(** Modelled from the spec: the entries of the other keys. *)
Definition without (key : text) (es : list (text * Z)) : list (text * Z) :=
  List.filter (fun e => negb (text_eqb (fst e) key)) es.

(** Modelled from the spec: the eviction of section 4.1.  When the set
    exceeds the capacity, expired entries go first, then the oldest ones
    until the capacity is met. *)
Definition evict (now : Z) (size : nat) (es : list (text * Z))
    : list (text * Z) :=
  if (size <? length es)%nat then
    let live := List.filter (fun e => now <? snd e) es in
    skipn (length live - size) live
  else es.

(** Modelled from the spec: [createDedupeCache(..).check(key)] is missing
    from the sources.  Section 4.1: the output is the boolean "already
    seen" (the key is present and its retention window has not run out);
    the side effect inserts the key with an expiry timestamp and evicts
    expired/oldest entries when the set exceeds a fixed capacity. *)
Definition check (key : text) (now : Z) (c : DedupeCache)
    : bool * DedupeCache :=
  let seen := match expiry_of key (entries c) with
              | Some expiry => now <? expiry
              | None => false
              end in
  let inserted := without key (entries c) ++ [(key, now + ttlMs c)] in
  (seen,
   {| ttlMs := ttlMs c; maxSize := maxSize c;
      entries := evict now (maxSize c) inserted |}).

End Dedupe.

(** ** monitor/context.ts *)

Module Context.

Import Js Types.
Local Open Scope Z_scope.

Inductive FeishuChatType := direct | group.

Definition chat_type_eqb (a b : FeishuChatType) : bool :=
  match a, b with
  | direct, direct | group, group => true
  | _, _ => false
  end.

(** The string a [FeishuChatType] is. *)
Definition chat_type_name (t : FeishuChatType) : text :=
  match t with
  | direct => lit "direct"
  | group => lit "group"
  end.

Definition inferFeishuChatType (chatId : option text)
    : option FeishuChatType :=
  match truthy (option_map trim chatId) with
  | None => None
  | Some trimmed =>
      if starts_with (lit "oc_") trimmed then Some group
      else if starts_with (lit "ou_") trimmed then Some direct
      else None
  end.

Definition normalizeFeishuChatType (chatType chatId : option text)
    : FeishuChatType :=
  let normalized := option_map (fun s => toLowerCase (trim s)) chatType in
  let is_ name := match normalized with
                  | Some n => text_eqb n (lit name)
                  | None => false
                  end in
  if (is_ "p2p" || is_ "direct" || is_ "im")%bool then direct
  else if (is_ "group" || is_ "chat")%bool then group
  else nullish (inferFeishuChatType chatId) group.

(** [DmPolicy] and [GroupPolicy] of [src/config/types.js]. *)
Inductive DmPolicy := dm_open | dm_pairing | dm_allowlist | dm_disabled.
Inductive GroupPolicy := policy_open | policy_allowlist | policy_disabled.

(** An entry of [groupsConfig].  [users] holds strings or numbers in the
    source and is always read through [.map(String)]; an entry is kept as
    the string it maps to. *)
Record GroupConfig := {
  enabled : option bool;
  allow : option bool;
  requireMention : option bool;
  users : option (list text);
  skills : option (list text);
  systemPrompt : option text;
}.

Record ChatInfo := {
  chat_name : option text;
  chat_kind : option text;
  chat_description : option text;
}.

Definition no_chat_info : ChatInfo :=
  {| chat_name := None; chat_kind := None; chat_description := None |}.

Record UserInfo := { user_name : option text }.

(** The parameters of [createFeishuMonitorContext].  [lookupChatInfo] and
    [lookupUserInfo] stand for the platform calls [getFeishuChatInfo] and
    [getFeishuUserInfo] ([None]: the call throws).  They are functions
    here, so the caches in front of them ([chatCache], [userCache]) cannot
    be observed and are left out. *)
Record FeishuMonitorParams := {
  p_accountId : text;
  p_appId : text;
  p_botOpenId : option text;
  p_historyLimit : Z;
  p_mainKey : text;
  p_dmEnabled : bool;
  p_dmPolicy : DmPolicy;
  p_allowFrom : option (list text);
  p_defaultRequireMention : option bool;
  p_groupsConfig : option (gmap text GroupConfig);
  p_groupPolicy : GroupPolicy;
  p_textLimit : Z;
  lookupChatInfo : text -> option ChatInfo;
  lookupUserInfo : text -> option UserInfo;
}.

Record ChatRef := {
  ref_chatId : option text;
  ref_chatType : option FeishuChatType;
}.

(** The context object: data and the closures built over the parameters.
    [markMessageSeen] reads the clock and updates the private cache
    [seenMessages], both passed explicitly. *)
Record FeishuMonitorContext := {
  accountId : text;
  appId : text;
  botOpenId : option text;
  historyLimit : Z;
  mainKey : text;
  dmEnabled : bool;
  dmPolicy : DmPolicy;
  allowFrom : list text;
  defaultRequireMention : bool;
  groupsConfig : option (gmap text GroupConfig);
  groupPolicy : GroupPolicy;
  textLimit : Z;
  markMessageSeen :
    option text -> option text -> Z -> Dedupe.DedupeCache ->
    bool * Dedupe.DedupeCache;
  isChatAllowed : ChatRef -> bool;
  resolveChatInfo : text -> ChatInfo;
  resolveUserName : text -> UserInfo;
}.

(** [createDedupeCache({ ttlMs: 60_000, maxSize: 500 })] *)
Definition seenMessages_initial : Dedupe.DedupeCache :=
  Dedupe.createDedupeCache 60000 500.

Definition normalizeAllowList (list_ : option (list text)) : list text :=
  match list_ with
  | None => []
  | Some l => List.filter (fun e => is_truthy (Some e)) (map trim l)
  end.

Definition isFeishuUserAllowed (allowList : list text) (userId : text)
    (userName : option text) : bool :=
  if (length allowList =? 0)%nat then false
  else if includes allowList (lit "*") then true
  else
    let lower := map toLowerCase allowList in
    let idLower := toLowerCase userId in
    let nameLower := option_map toLowerCase userName in
    (includes lower idLower
     || match nameLower with
        | Some n => includes lower n
        | None => false
        end)%bool.

Record AllowListMatch := {
  allowed : bool;
  matchSource : option text;
}.

Definition resolveFeishuAllowListMatch (allowList : list text) (id_ : text)
    (name_ : option text) : AllowListMatch :=
  if (length allowList =? 0)%nat
  then {| allowed := false; matchSource := None |}
  else if includes allowList (lit "*")
  then {| allowed := true; matchSource := Some (lit "*") |}
  else
    let lower := map toLowerCase allowList in
    let idLower := toLowerCase id_ in
    let nameLower := option_map toLowerCase name_ in
    if includes lower idLower
    then {| allowed := true; matchSource := Some (lit "id:" ++ id_) |}
    else
      match nameLower with
      | Some n =>
          if includes lower n
          then {| allowed := true;
                  matchSource := Some (lit "name:" ++ nullish name_ []) |}
          else {| allowed := false; matchSource := None |}
      | None => {| allowed := false; matchSource := None |}
      end.

(** The names every plain object answers to without holding them itself:
    the properties of [Object.prototype]. *)
Definition OBJECT_PROTOTYPE_KEYS : list text :=
  [ lit "constructor"; lit "hasOwnProperty"; lit "isPrototypeOf";
    lit "propertyIsEnumerable"; lit "toLocaleString"; lit "toString";
    lit "valueOf"; lit "__proto__"; lit "__defineGetter__";
    lit "__defineSetter__"; lit "__lookupGetter__"; lit "__lookupSetter__" ].

Definition inherited (key : text) : bool := includes OBJECT_PROTOTYPE_KEYS key.

(** What a read finds under an inherited name: a function of
    [Object.prototype] (the prototype itself for [__proto__]).  It is
    truthy and not nullish, and none of the properties of a group entry
    is defined on it. *)
Definition inherited_member : GroupConfig :=
  {| enabled := None; allow := None; requireMention := None;
     users := None; skills := None; systemPrompt := None |}.

(** [groupsConfig[key]], the configuration being a plain object: [m] holds
    its own properties, and a name it does not hold itself is looked up
    along the prototype chain. *)
Definition get_property (m : gmap text GroupConfig) (key : text)
    : option GroupConfig :=
  match m !! key with
  | Some c => Some c
  | None => if inherited key then Some inherited_member else None
  end.

(** [groupsConfig?.[chatId] ?? groupsConfig?.["*"]] *)
Definition group_entry (cfg : option (gmap text GroupConfig)) (chatId : text)
    : option GroupConfig :=
  match cfg with
  | None => None
  | Some m =>
      match get_property m chatId with
      | Some c => Some c
      | None => get_property m (lit "*")
      end
  end.

Definition createFeishuMonitorContext (params : FeishuMonitorParams)
    : FeishuMonitorContext :=
  let markMessageSeen_ (chatId messageId : option text) (now : Z)
      (seenMessages : Dedupe.DedupeCache) :=
    match truthy chatId, truthy messageId with
    | Some c, Some m => Dedupe.check (c ++ lit ":" ++ m) now seenMessages
    | _, _ => (false, seenMessages)
    end in
  let resolveChatInfo_ (chatId : text) :=
    nullish (lookupChatInfo params chatId) no_chat_info in
  let resolveUserName_ (userId : text) :=
    nullish (lookupUserInfo params userId) {| user_name := None |} in
  let isChatAllowed_ (p : ChatRef) :=
    let chatType :=
      normalizeFeishuChatType (option_map chat_type_name (ref_chatType p))
        (ref_chatId p) in
    let isDirectMessage := chat_type_eqb chatType direct in
    let isGroup := chat_type_eqb chatType group in
    if (isDirectMessage && negb (p_dmEnabled params))%bool then false
    else
      match isGroup, truthy (ref_chatId p) with
      | true, Some chatId =>
          let hasGroupConfig :=
            match p_groupsConfig params with
            | Some m => negb (Nat.eqb (size m) 0)
            | None => false
            end in
          match p_groupPolicy params with
          | policy_disabled => false
          | policy_allowlist =>
              if hasGroupConfig then
                match group_entry (p_groupsConfig params) chatId with
                | None => false
                | Some chatConfig =>
                    if (bool_decide (enabled chatConfig = Some false)
                        || bool_decide (allow chatConfig = Some false))%bool
                    then false else true
                end
              else true
          | policy_open => true
          end
      | _, _ => true
      end in
  {| accountId := p_accountId params;
     appId := p_appId params;
     botOpenId := p_botOpenId params;
     historyLimit := p_historyLimit params;
     mainKey := p_mainKey params;
     dmEnabled := p_dmEnabled params;
     dmPolicy := p_dmPolicy params;
     allowFrom := normalizeAllowList (p_allowFrom params);
     defaultRequireMention := nullish (p_defaultRequireMention params) true;
     groupsConfig := p_groupsConfig params;
     groupPolicy := p_groupPolicy params;
     textLimit := p_textLimit params;
     markMessageSeen := markMessageSeen_;
     isChatAllowed := isChatAllowed_;
     resolveChatInfo := resolveChatInfo_;
     resolveUserName := resolveUserName_ |}.

End Context.

(** ** The functions imported from the core of the repository

    [prepare.ts] and [message-handler.ts] import these from [src/...] of
    the main repository; none of them is among the sources.  They are taken
    as collaborators: a record of functions, already applied to the
    configuration object [cfg].  Logging calls are not modelled. *)

Module Core.

Import Js Types Context.
Local Open Scope Z_scope.

Record ResolvedFeishuAccount := {
  account_accountId : text;
  account_appId : text;
}.

Record AgentRoute := {
  agentId : text;
  route_accountId : text;
  sessionKey : text;
  mainSessionKey : text;
}.

Record RoutePeer := {
  peer_kind : text;
  peer_id : text;
}.

Record ThreadSessionKeys := {
  thread_sessionKey : text;
  parentSessionKey : option text;
}.

Record HistoryEntry := {
  sender : text;
  body : text;
  timestamp : option Z;
  messageId : option text;
}.

Record ExplicitMention := {
  hasAnyMention : bool;
  isExplicitlyMentioned : bool;
  canResolveExplicit : bool;
}.

Record CommandAuthorizer := {
  configured : bool;
  authorizer_allowed : bool;
}.

Record CommandGateParams := {
  useAccessGroups : bool;
  authorizers : list CommandAuthorizer;
  cg_allowTextCommands : bool;
  cg_hasControlCommand : bool;
}.

Record CommandGate := {
  commandAuthorized : bool;
  shouldBlock : bool;
}.

Record MentionGateParams := {
  mg_isGroup : bool;
  mg_requireMention : bool;
  mg_canDetectMention : bool;
  mg_wasMentioned : bool;
  mg_implicitMention : bool;
  mg_hasAnyMention : bool;
  mg_allowTextCommands : bool;
  mg_hasControlCommand : bool;
  mg_commandAuthorized : bool;
}.

Record MentionGate := {
  effectiveWasMentioned : bool;
  shouldSkip : bool;
}.

Record EnvelopeParams := {
  env_channel : text;
  env_from : text;
  env_timestamp : option Z;
  env_body : text;
  env_chatType : text;
  env_sender : option (text * text);
  env_senderLabel : option text;
  env_previousTimestamp : option Z;
}.

Record ConversationLabelParams := {
  label_ChatType : text;
  label_SenderName : text;
  label_GroupSubject : option text;
  label_From : text;
}.

(** [FinalizedMsgContext] *)
Record MsgContext := {
  Body : text;
  RawBody : text;
  CommandBody : text;
  From : text;
  To : option text;
  SessionKey : text;
  AccountId : text;
  ChatType : text;
  ConversationLabel : text;
  GroupSubject : option text;
  GroupSystemPrompt : option text;
  SenderName : text;
  SenderId : text;
  Provider : text;
  Surface : text;
  MessageSid : option text;
  MessageSids : option (list text);
  MessageSidFirst : option text;
  MessageSidLast : option text;
  ReplyToId : option text;
  MessageThreadId : option text;
  ParentSessionKey : option text;
  Timestamp : option Z;
  WasMentioned : option bool;
  CommandAuthorized : bool;
  OriginatingChannel : text;
  OriginatingTo : text;
}.

(** Modelled from the spec: the [PairingRequest] of the data model
    (section 3), one per external id. *)
Record PairingRequest := {
  channel : text;
  externalId : text;
  code : text;
  createdAt : Z;
}.

(** Modelled from the spec: the result [{ code, created }] of
    [upsertPairingRequest] (section 6). *)
Record Upserted := {
  upserted_code : text;
  created : bool;
}.

Record Core := {
  hasControlCommand : text -> bool;
  shouldHandleTextCommands : bool;
  buildMentionRegexes : text -> list text;
  matchesMentionWithExplicit : text -> list text -> ExplicitMention -> bool;
  resolveAgentRoute : text -> RoutePeer -> AgentRoute;
  resolveThreadSessionKeys : text -> option text -> ThreadSessionKeys;
  resolveControlCommandGate : CommandGateParams -> CommandGate;
  resolveMentionGatingWithBypass : MentionGateParams -> MentionGate;
  recordPendingHistoryEntryIfEnabled :
    gmap text (list HistoryEntry) -> text -> Z -> option HistoryEntry ->
    gmap text (list HistoryEntry);
  buildPendingHistoryContextFromMap :
    gmap text (list HistoryEntry) -> text -> Z -> text ->
    (HistoryEntry -> text) -> text;
  formatInboundEnvelope : EnvelopeParams -> text;
  resolveConversationLabel : ConversationLabelParams -> option text;
  finalizeInboundContext : MsgContext -> MsgContext;
  upsertChannelPairingRequest :
    text -> text -> option text -> Z -> gmap text PairingRequest ->
    Upserted * gmap text PairingRequest;
  buildPairingReply : text -> text -> text -> text;
  resolveStorePath : text -> text;
  readSessionUpdatedAt : text -> text -> option Z;
  Number : text -> Z;
}.

End Core.

(** ** The collaborators as the specification describes them *)

Module CoreSpec.

Import Js Core.
Local Open Scope Z_scope.

(** Modelled from the spec: [resolveControlCommandGate] of
    [src/channels/command-gating.js] is missing from the sources.
    Section 4.4 (4): a command is authorized if the sender matches the
    direct-message-level allowlist (when one is configured) or the
    group-level user allowlist (when one is configured); if neither source
    is configured it is not authorized; the gate applies when the text
    contains a recognized control command and command handling is enabled,
    and an unauthorized command is then to be blocked. *)
Definition resolveControlCommandGate (p : CommandGateParams) : CommandGate :=
  let authorized :=
    existsb (fun a => (configured a && authorizer_allowed a)%bool)
      (authorizers p) in
  {| commandAuthorized := authorized;
     shouldBlock :=
       (cg_allowTextCommands p && cg_hasControlCommand p
        && negb authorized)%bool |}.

(** Modelled from the spec: [resolveMentionGatingWithBypass] of
    [src/channels/mention-gating.js] is missing from the sources.
    Section 4.4 (5): when a mention is required the turn is allowed only if
    the bot was mentioned; an authorized control command always bypasses
    the mention requirement. *)
Definition resolveMentionGatingWithBypass (p : MentionGateParams)
    : MentionGate :=
  let bypass :=
    (mg_hasControlCommand p && mg_commandAuthorized p)%bool in
  let effective :=
    (mg_wasMentioned p || mg_implicitMention p || bypass)%bool in
  {| effectiveWasMentioned := effective;
     shouldSkip := (mg_requireMention p && negb effective)%bool |}.

(** Modelled from the spec: "oldest evicted first" keeps the last [n]
    elements of [l]. *)
Definition last_n {A : Type} (n : nat) (l : list A) : list A :=
  skipn (length l - n) l.

(** Modelled from the spec: [recordPendingHistoryEntryIfEnabled] of
    [src/auto-reply/reply/history.js] is missing from the sources.
    Sections 3 and 4.4 (5): the entry is appended to the bounded
    per-conversation pending history under the key (capacity [limit]
    entries, oldest evicted first).  Without an entry nothing is
    recorded. *)
Definition recordPendingHistoryEntryIfEnabled
    (historyMap : gmap text (list HistoryEntry)) (historyKey : text)
    (limit : Z) (entry : option HistoryEntry)
    : gmap text (list HistoryEntry) :=
  match entry with
  | None => historyMap
  | Some e =>
      <[historyKey :=
          last_n (Z.to_nat limit)
            (nullish (historyMap !! historyKey) [] ++ [e])]> historyMap
  end.

(** Modelled from the spec: [upsertChannelPairingRequest] of
    [src/pairing/pairing-store.js] is missing from the sources.
    Sections 3 and 6: a request is created idempotently, one per external
    id; the result carries its code and whether it was created by this
    call.  [new_code] stands for the code generator. *)
Definition upsertChannelPairingRequest (new_code : text -> Z -> text)
    (channel_ id_ : text) (name_ : option text) (now : Z)
    (store : gmap text PairingRequest)
    : Upserted * gmap text PairingRequest :=
  match store !! id_ with
  | Some r => ({| upserted_code := code r; created := false |}, store)
  | None =>
      let c := new_code id_ now in
      ({| upserted_code := c; created := true |},
       <[id_ := {| channel := channel_; externalId := id_; code := c;
                   createdAt := now |}]> store)
  end.

End CoreSpec.

(** ** The text of a message ([extractMessageText], [extractPostText];
    [prepare.ts] and [message-handler.ts] hold identical copies) *)

Module MessageText.

Import Js Types.

(** One paragraph of a post: the text of its [text] and [a] tags and the
    names of its [at] tags. *)
Definition paragraph_line (paragraph : list FeishuPostTag) : text :=
  concat
    (map (fun t =>
            if (text_eqb (tag t) (lit "text") && is_truthy (tag_text t))%bool
            then nullish (tag_text t) []
            else if (text_eqb (tag t) (lit "a") && is_truthy (tag_text t))%bool
            then nullish (tag_text t) []
            else if text_eqb (tag t) (lit "at")
            then lit "@" ++
                 match tag_user_name t with
                 | Some n => n
                 | None => nullish (tag_user_id t) []
                 end
            else [])
       paragraph).

Definition extractPostText (c : Content) : text :=
  match c with
  | ContentJson parsed =>
      let post := match json_zh_cn parsed with
                  | Some p => Some p
                  | None => json_en_us parsed
                  end in
      match post with
      | None => []
      | Some post =>
          let title_lines := match truthy (title post) with
                             | Some t => [t]
                             | None => []
                             end in
          let content_lines :=
            match post_content post with
            | Some paragraphs =>
                List.filter (fun l => is_truthy (Some l))
                  (map paragraph_line paragraphs)
            | None => []
            end in
          trim (join [LF] (title_lines ++ content_lines))
      end
  | _ => []
  end.

(** [extractMessageText(message)] of [prepare.ts]. *)
Definition extractMessageText (message : FeishuMessage) : text :=
  match content message with
  | ContentMissing => []
  | ContentInvalid => []
  | ContentJson parsed =>
      if text_eqb (message_type message) (lit "text")
      then nullish (json_text parsed) []
      else if text_eqb (message_type message) (lit "post")
      then extractPostText (content message)
      else []
  end.

End MessageText.

(** ** monitor/message-handler/prepare.ts *)

Module Prepare.

Import Js Types Threading Context Core MessageText.
Local Open Scope Z_scope.

Record Opts := { wasMentioned : option bool }.

Record PreparedFeishuMessage := {
  prepared_ctx : FeishuMonitorContext;
  prepared_account : ResolvedFeishuAccount;
  prepared_event : FeishuMessageEvent;
  route : AgentRoute;
  groupConfig : option GroupConfig;
  replyTarget : text;
  ctxPayload : MsgContext;
  isDirectMessage : bool;
  isGroup : bool;
  historyKey : text;
  preview : text;
  threadContext : FeishuThreadContext;
}.

Record DebounceEntry := {
  entry_event : FeishuMessageEvent;
  entry_opts : Opts;
}.

(** A call of [sendMessageFeishu(to, text, { account })]. *)
Record SentMessage := {
  sent_to : text;
  sent_text : text;
}.

Record SystemEvent := {
  system_text : text;
  system_sessionKey : text;
  system_contextKey : text;
}.

Record SessionRecord := {
  record_storePath : text;
  record_sessionKey : text;
  record_ctx : MsgContext;
  record_updateLastRoute : option (text * text);
}.

(** Everything the pipeline reads or changes outside its arguments: the
    clock, the cache behind [markMessageSeen], the entries handed to the
    debouncer, the pending histories ([ctx.chatHistories]), the pairing
    store, the messages sent, the system events, the session records and
    the turns handed to the reply dispatcher. *)
Record World := {
  clock : Z;
  seenMessages : Dedupe.DedupeCache;
  enqueued : list DebounceEntry;
  chatHistories : gmap text (list HistoryEntry);
  pairingRequests : gmap text PairingRequest;
  outbox : list SentMessage;
  systemEvents : list SystemEvent;
  sessions : list SessionRecord;
  dispatched : list PreparedFeishuMessage;
}.

Definition with_seenMessages (c : Dedupe.DedupeCache) (w : World) : World :=
  {| clock := clock w; seenMessages := c; enqueued := enqueued w;
     chatHistories := chatHistories w;
     pairingRequests := pairingRequests w; outbox := outbox w;
     systemEvents := systemEvents w; sessions := sessions w;
     dispatched := dispatched w |}.

Definition with_enqueued (q : list DebounceEntry) (w : World) : World :=
  {| clock := clock w; seenMessages := seenMessages w; enqueued := q;
     chatHistories := chatHistories w;
     pairingRequests := pairingRequests w; outbox := outbox w;
     systemEvents := systemEvents w; sessions := sessions w;
     dispatched := dispatched w |}.

Definition with_chatHistories (h : gmap text (list HistoryEntry)) (w : World)
    : World :=
  {| clock := clock w; seenMessages := seenMessages w;
     enqueued := enqueued w; chatHistories := h;
     pairingRequests := pairingRequests w; outbox := outbox w;
     systemEvents := systemEvents w; sessions := sessions w;
     dispatched := dispatched w |}.

Definition with_pairingRequests (r : gmap text PairingRequest) (w : World)
    : World :=
  {| clock := clock w; seenMessages := seenMessages w;
     enqueued := enqueued w; chatHistories := chatHistories w;
     pairingRequests := r; outbox := outbox w;
     systemEvents := systemEvents w; sessions := sessions w;
     dispatched := dispatched w |}.

Definition with_outbox (o : list SentMessage) (w : World) : World :=
  {| clock := clock w; seenMessages := seenMessages w;
     enqueued := enqueued w; chatHistories := chatHistories w;
     pairingRequests := pairingRequests w; outbox := o;
     systemEvents := systemEvents w; sessions := sessions w;
     dispatched := dispatched w |}.

Definition with_systemEvents (e : list SystemEvent) (w : World) : World :=
  {| clock := clock w; seenMessages := seenMessages w;
     enqueued := enqueued w; chatHistories := chatHistories w;
     pairingRequests := pairingRequests w; outbox := outbox w;
     systemEvents := e; sessions := sessions w;
     dispatched := dispatched w |}.

Definition with_sessions (r : list SessionRecord) (w : World) : World :=
  {| clock := clock w; seenMessages := seenMessages w;
     enqueued := enqueued w; chatHistories := chatHistories w;
     pairingRequests := pairingRequests w; outbox := outbox w;
     systemEvents := systemEvents w; sessions := r;
     dispatched := dispatched w |}.

Definition with_dispatched (d : list PreparedFeishuMessage) (w : World)
    : World :=
  {| clock := clock w; seenMessages := seenMessages w;
     enqueued := enqueued w; chatHistories := chatHistories w;
     pairingRequests := pairingRequests w; outbox := outbox w;
     systemEvents := systemEvents w; sessions := sessions w;
     dispatched := d |}.

(** [sendMessageFeishu(to, text, { account })]: the call is recorded. *)
Definition sendMessageFeishu (to_ text_ : text) (w : World) : World :=
  with_outbox (outbox w ++ [{| sent_to := to_; sent_text := text_ |}]) w.

(** Lines 90-138, "Check DM authorization".  The result tells whether the
    turn goes on. *)
Definition checkDmAuthorization (core : Core) (ctx : FeishuMonitorContext)
    (chatId senderId : text) (w : World) : bool * World :=
  match dmEnabled ctx, dmPolicy ctx with
  | false, _ | _, dm_disabled => (false, w)
  | true, dm_open => (true, w)
  | true, policy =>
      let allowMatch :=
        resolveFeishuAllowListMatch (allowFrom ctx) senderId None in
      if allowed allowMatch then (true, w)
      else
        match policy with
        | dm_pairing =>
            let senderInfo := resolveUserName ctx senderId in
            let senderName := user_name senderInfo in
            let (upserted, store) :=
              upsertChannelPairingRequest core (lit "feishu") senderId
                senderName (clock w) (pairingRequests w) in
            let w1 := with_pairingRequests store w in
            if created upserted then
              (false,
               sendMessageFeishu chatId
                 (buildPairingReply core (lit "feishu")
                    (lit "Your Feishu user id: " ++ senderId)
                    (upserted_code upserted))
                 w1)
            else (false, w1)
        | _ => (false, w)
        end
  end.

(** Lines 167-174, "Check group user authorization". *)
Definition groupUserAuthorized (isGroup_ : bool)
    (groupConfig_ : option GroupConfig) (senderId senderName : text)
    : bool :=
  if isGroup_ then
    let users_ := match groupConfig_ with
                  | Some g => users g
                  | None => None
                  end in
    (isFeishuUserAllowed (nullish users_ []) senderId (Some senderName)
     || negb (match users_ with
              | Some l => negb (Nat.eqb (length l) 0)
              | None => false
              end))%bool
  else true.

(** Lines 188-207, "Check mentions". *)
Definition explicitMention (ctx : FeishuMonitorContext)
    (message : FeishuMessage) : ExplicitMention :=
  let mentions_ := nullish (mentions message) [] in
  {| hasAnyMention := negb (Nat.eqb (length mentions_) 0);
     isExplicitlyMentioned :=
       match truthy (botOpenId ctx) with
       | Some bot =>
           existsb
             (fun m =>
                match mention_id m with
                | Some i =>
                    match open_id i with
                    | Some o => text_eqb o bot
                    | None => false
                    end
                | None => false
                end)
             mentions_
       | None => false
       end;
     canResolveExplicit := is_truthy (botOpenId ctx) |}.

Definition resolveWasMentioned (core : Core) (ctx : FeishuMonitorContext)
    (opts : Opts) (isDirectMessage_ : bool) (message : FeishuMessage)
    (rawBody : text) (mentionRegexes : list text) : bool :=
  match wasMentioned opts with
  | Some b => b
  | None =>
      (negb isDirectMessage_
       && matchesMentionWithExplicit core rawBody mentionRegexes
            (explicitMention ctx message))%bool
  end.

(** Lines 209-239, "Check control commands": the gate consulted with the
    two authorizers. *)
Definition commandGate (core : Core) (ctx : FeishuMonitorContext)
    (isGroup_ : bool) (groupConfig_ : option GroupConfig)
    (senderId senderName rawBody : text) : CommandGate :=
  let allowTextCommands := shouldHandleTextCommands core in
  let hasControlCommandInMessage := hasControlCommand core rawBody in
  let ownerAuthorized :=
    allowed (resolveFeishuAllowListMatch (allowFrom ctx) senderId
               (Some senderName)) in
  let users_ := match groupConfig_ with
                | Some g => users g
                | None => None
                end in
  let groupUsersAllowlistConfigured :=
    (isGroup_ && match users_ with
                 | Some l => negb (Nat.eqb (length l) 0)
                 | None => false
                 end)%bool in
  let groupCommandAuthorized :=
    if (isGroup_ && groupUsersAllowlistConfigured)%bool
    then isFeishuUserAllowed (nullish users_ []) senderId (Some senderName)
    else false in
  resolveControlCommandGate core
    {| useAccessGroups := false;
       authorizers :=
         [ {| configured := negb (Nat.eqb (length (allowFrom ctx)) 0);
              authorizer_allowed := ownerAuthorized |};
           {| configured := groupUsersAllowlistConfigured;
              authorizer_allowed := groupCommandAuthorized |} ];
       cg_allowTextCommands := allowTextCommands;
       cg_hasControlCommand := hasControlCommandInMessage |}.

(** Lines 252-268, "Check mention requirement". *)
Definition shouldRequireMention (ctx : FeishuMonitorContext)
    (isGroup_ : bool) (groupConfig_ : option GroupConfig) : bool :=
  if isGroup_ then
    nullish (match groupConfig_ with
             | Some g => requireMention g
             | None => None
             end)
      (defaultRequireMention ctx)
  else false.

Definition mentionGate (core : Core) (ctx : FeishuMonitorContext)
    (isGroup_ : bool) (groupConfig_ : option GroupConfig)
    (message : FeishuMessage) (mentionRegexes : list text)
    (wasMentioned_ : bool) (rawBody : text) (commandAuthorized_ : bool)
    : MentionGate :=
  resolveMentionGatingWithBypass core
    {| mg_isGroup := isGroup_;
       mg_requireMention := shouldRequireMention ctx isGroup_ groupConfig_;
       mg_canDetectMention :=
         (is_truthy (botOpenId ctx)
          || negb (Nat.eqb (length mentionRegexes) 0))%bool;
       mg_wasMentioned := wasMentioned_;
       mg_implicitMention := false;
       mg_hasAnyMention := hasAnyMention (explicitMention ctx message);
       mg_allowTextCommands := shouldHandleTextCommands core;
       mg_hasControlCommand := hasControlCommand core rawBody;
       mg_commandAuthorized := commandAuthorized_ |}.

(** [message.create_time ? Number(message.create_time) : undefined] *)
Definition message_timestamp (core : Core) (message : FeishuMessage)
    : option Z :=
  option_map (Number core) (truthy (create_time message)).

(** The entry recorded for a turn skipped by the mention gate
    (lines 278-285). *)
Definition pendingEntry (core : Core) (message : FeishuMessage)
    (senderName rawBody : text) : option HistoryEntry :=
  match truthy (Some rawBody) with
  | Some _ =>
      Some {| sender := senderName;
              body := rawBody;
              timestamp := message_timestamp core message;
              messageId := message_id message |}
  | None => None
  end.

(** Lines 290-432, "Build context payload": a turn that passed every gate
    is recorded and handed back. *)
Definition buildPrepared (core : Core) (ctx : FeishuMonitorContext)
    (account : ResolvedFeishuAccount) (event : FeishuMessageEvent)
    (message : FeishuMessage) (chatId senderId senderName rawBody : text)
    (chatName : option text) (isDirectMessage_ : bool)
    (groupConfig_ : option GroupConfig) (route_ : AgentRoute)
    (threadContext_ : FeishuThreadContext) (threadKeys : ThreadSessionKeys)
    (historyKey_ : text) (effectiveWasMentioned_ commandAuthorized_ : bool)
    (w : World) : option PreparedFeishuMessage * World :=
  let isGroup_ := negb isDirectMessage_ in
  let messageId_ := message_id message in
  let sessionKey_ := thread_sessionKey threadKeys in
  let roomLabel := lit "#" ++ nullish (truthy chatName) chatId in
  let preview_ := firstn 160 (collapse_white_space rawBody) in
  let inboundLabel :=
    if isDirectMessage_ then lit "Feishu DM from " ++ senderName
    else lit "Feishu message in " ++ roomLabel ++ lit " from " ++ senderName in
  let feishuFrom :=
    if isDirectMessage_ then lit "feishu:user:" ++ senderId
    else lit "feishu:chat:" ++ chatId in
  let messageIdText := nullish messageId_ (lit "undefined") in
  let w1 :=
    with_systemEvents
      (systemEvents w ++
       [{| system_text := inboundLabel ++ lit ": " ++ preview_;
           system_sessionKey := sessionKey_;
           system_contextKey :=
             lit "feishu:message:" ++ chatId ++ lit ":" ++ messageIdText |}])
      w in
  let chatTypeName :=
    if isDirectMessage_ then lit "direct" else lit "channel" in
  let envelopeFrom :=
    nullish
      (resolveConversationLabel core
         {| label_ChatType := chatTypeName;
            label_SenderName := senderName;
            label_GroupSubject := if isGroup_ then Some roomLabel else None;
            label_From := feishuFrom |})
      (if isDirectMessage_ then senderName else roomLabel) in
  let textWithId :=
    rawBody ++ [LF] ++ lit "[feishu message id: " ++ messageIdText
    ++ lit " chat: " ++ chatId ++ lit "]" in
  let storePath := resolveStorePath core (agentId route_) in
  let previousTimestamp :=
    readSessionUpdatedAt core storePath (sessionKey route_) in
  let body_ :=
    formatInboundEnvelope core
      {| env_channel := lit "Feishu";
         env_from := envelopeFrom;
         env_timestamp := message_timestamp core message;
         env_body := textWithId;
         env_chatType := chatTypeName;
         env_sender := Some (senderName, senderId);
         env_senderLabel := None;
         env_previousTimestamp := previousTimestamp |} in
  let combinedBody :=
    if (isGroup_ && (0 <? historyLimit ctx))%bool then
      buildPendingHistoryContextFromMap core (chatHistories w1) historyKey_
        (historyLimit ctx) body_
        (fun entry =>
           formatInboundEnvelope core
             {| env_channel := lit "Feishu";
                env_from := roomLabel;
                env_timestamp := timestamp entry;
                env_body :=
                  body entry ++
                  match truthy (messageId entry) with
                  | Some i => lit " [id:" ++ i ++ lit " chat:" ++ chatId
                              ++ lit "]"
                  | None => []
                  end;
                env_chatType := lit "channel";
                env_sender := None;
                env_senderLabel := Some (sender entry);
                env_previousTimestamp := None |})
    else body_ in
  let feishuTo :=
    if isDirectMessage_ then lit "user:" ++ senderId
    else lit "chat:" ++ chatId in
  let groupSystemPrompt :=
    if isGroup_ then
      match groupConfig_ with
      | Some g => option_map trim (systemPrompt g)
      | None => None
      end
    else None in
  let ctxPayload_ :=
    finalizeInboundContext core
      {| Body := combinedBody;
         RawBody := rawBody;
         CommandBody := rawBody;
         From := feishuFrom;
         To := Some feishuTo;
         SessionKey := sessionKey_;
         AccountId := route_accountId route_;
         ChatType := chatTypeName;
         ConversationLabel := envelopeFrom;
         GroupSubject := if isGroup_ then Some roomLabel else None;
         GroupSystemPrompt := groupSystemPrompt;
         SenderName := senderName;
         SenderId := senderId;
         Provider := lit "feishu";
         Surface := lit "feishu";
         MessageSid := messageId_;
         MessageSids := None;
         MessageSidFirst := None;
         MessageSidLast := None;
         ReplyToId := replyToId threadContext_;
         MessageThreadId := rootId threadContext_;
         ParentSessionKey := parentSessionKey threadKeys;
         Timestamp := message_timestamp core message;
         WasMentioned :=
           if isGroup_ then Some effectiveWasMentioned_ else None;
         CommandAuthorized := commandAuthorized_;
         OriginatingChannel := lit "feishu";
         OriginatingTo := feishuTo |} in
  let w2 :=
    with_sessions
      (sessions w1 ++
       [{| record_storePath := storePath;
           record_sessionKey := sessionKey_;
           record_ctx := ctxPayload_;
           record_updateLastRoute :=
             if isDirectMessage_
             then Some (mainSessionKey route_, lit "user:" ++ senderId)
             else None |}])
      w1 in
  match truthy (To ctxPayload_) with
  | None => (None, w2)
  | Some replyTarget_ =>
      (Some {| prepared_ctx := ctx;
               prepared_account := account;
               prepared_event := event;
               route := route_;
               groupConfig := groupConfig_;
               replyTarget := replyTarget_;
               ctxPayload := ctxPayload_;
               isDirectMessage := isDirectMessage_;
               isGroup := isGroup_;
               historyKey := historyKey_;
               preview := preview_;
               threadContext := threadContext_ |},
       w2)
  end.

(** [sender.sender_id?.open_id] *)
Definition senderOpenId (sender_ : FeishuSender) : option text :=
  match sender_id sender_ with
  | Some i => open_id i
  | None => None
  end.

(** Lines 141-149, "Resolve route". *)
Definition turnRoute (core : Core) (account : ResolvedFeishuAccount)
    (isDirectMessage_ : bool) (chatId senderId : text) : AgentRoute :=
  resolveAgentRoute core (account_accountId account)
    {| peer_kind := if isDirectMessage_ then lit "dm" else lit "channel";
       peer_id := if isDirectMessage_ then senderId else chatId |}.

(** Lines 151-160: the session keys of the turn. *)
Definition turnThreadKeys (core : Core) (route_ : AgentRoute)
    (message : FeishuMessage) : ThreadSessionKeys :=
  let threadContext_ := resolveFeishuThreadContext message in
  resolveThreadSessionKeys core (sessionKey route_)
    (if isThreadReply threadContext_ then rootId threadContext_ else None).

(** Line 161: the history key is the session key for a thread reply and
    the chat id otherwise. *)
Definition turnHistoryKey (core : Core) (route_ : AgentRoute)
    (message : FeishuMessage) (chatId : text) : text :=
  if isThreadReply (resolveFeishuThreadContext message)
  then thread_sessionKey (turnThreadKeys core route_ message)
  else chatId.

(** Lines 164-165, "Resolve sender info":
    [senderInfo?.name ?? sender.sender_id?.user_id ?? senderId]. *)
Definition resolveSenderName (ctx : FeishuMonitorContext)
    (sender_ : FeishuSender) (senderId : text) : text :=
  match user_name (resolveUserName ctx senderId) with
  | Some n => n
  | None =>
      nullish (match sender_id sender_ with
               | Some i => user_id i
               | None => None
               end)
        senderId
  end.

(** Lines 140-288: routing, then the group-user, empty-body, command and
    mention gates, for a turn that passed the chat and direct-message
    gates. *)
Definition gateAndBuild (core : Core) (ctx : FeishuMonitorContext)
    (account : ResolvedFeishuAccount) (event : FeishuMessageEvent)
    (opts : Opts) (message : FeishuMessage) (sender_ : FeishuSender)
    (chatId senderId : text) (chatName : option text)
    (isDirectMessage_ : bool) (groupConfig_ : option GroupConfig)
    (w : World) : option PreparedFeishuMessage * World :=
  let isGroup_ := negb isDirectMessage_ in
  let route_ := turnRoute core account isDirectMessage_ chatId senderId in
  let threadContext_ := resolveFeishuThreadContext message in
  let threadKeys := turnThreadKeys core route_ message in
  let historyKey_ := turnHistoryKey core route_ message chatId in
  let senderName := resolveSenderName ctx sender_ senderId in
  if (isGroup_ && negb (groupUserAuthorized isGroup_ groupConfig_ senderId
                          senderName))%bool
  then (None, w)
  else
    let rawBody := extractMessageText message in
    if negb (is_truthy (Some (trim rawBody))) then (None, w)
    else
      let mentionRegexes := buildMentionRegexes core (agentId route_) in
      let wasMentioned_ :=
        resolveWasMentioned core ctx opts isDirectMessage_ message rawBody
          mentionRegexes in
      let gate :=
        commandGate core ctx isGroup_ groupConfig_ senderId senderName
          rawBody in
      let commandAuthorized_ := commandAuthorized gate in
      if (isGroup_ && shouldBlock gate)%bool then (None, w)
      else
        let mention :=
          mentionGate core ctx isGroup_ groupConfig_ message mentionRegexes
            wasMentioned_ rawBody commandAuthorized_ in
        if (isGroup_ && shouldRequireMention ctx isGroup_ groupConfig_
            && shouldSkip mention)%bool
        then
          (None,
           with_chatHistories
             (recordPendingHistoryEntryIfEnabled core (chatHistories w)
                historyKey_ (historyLimit ctx)
                (pendingEntry core message senderName rawBody))
             w)
        else
          buildPrepared core ctx account event message chatId senderId
            senderName rawBody chatName isDirectMessage_ groupConfig_ route_
            threadContext_ threadKeys historyKey_
            (effectiveWasMentioned mention) commandAuthorized_ w.

Definition prepareFeishuMessage (core : Core) (ctx : FeishuMonitorContext)
    (account : ResolvedFeishuAccount) (event : FeishuMessageEvent)
    (opts : Opts) (w : World) : option PreparedFeishuMessage * World :=
  match event_message event, event_sender event with
  | Some message, Some sender_ =>
      match truthy (chat_id message), truthy (senderOpenId sender_) with
      | Some chatId, Some senderId =>
          let resolvedChatType :=
            normalizeFeishuChatType (chat_type message) (Some chatId) in
          let isDirectMessage_ := chat_type_eqb resolvedChatType direct in
          let isGroup_ := chat_type_eqb resolvedChatType group in
          let chatInfo :=
            if isGroup_ then resolveChatInfo ctx chatId else no_chat_info in
          let chatName := chat_name chatInfo in
          if negb (isChatAllowed ctx
                     {| ref_chatId := Some chatId;
                        ref_chatType := Some resolvedChatType |})
          then (None, w)
          else
            let groupConfig_ :=
              if isGroup_ then group_entry (groupsConfig ctx) chatId
              else None in
            let (proceed, w1) :=
              if isDirectMessage_
              then checkDmAuthorization core ctx chatId senderId w
              else (true, w) in
            if proceed then
              gateAndBuild core ctx account event opts message sender_
                chatId senderId chatName isDirectMessage_ groupConfig_ w1
            else (None, w1)
      | _, _ => (None, w)
      end
  | _, _ => (None, w)
  end.

End Prepare.

(** ** monitor/message-handler.ts *)

Module MessageHandler.

Import Js Types Threading Context Core Prepare.
Local Open Scope Z_scope.

(** [extractMessageText(message)] of [message-handler.ts]: the copy that
    accepts a missing message. *)
Definition extractMessageText (message : option FeishuMessage) : text :=
  match message with
  | None => []
  | Some m => MessageText.extractMessageText m
  end.

Definition entry_message (entry : DebounceEntry) : option FeishuMessage :=
  event_message (entry_event entry).

Definition entry_text (entry : DebounceEntry) : text :=
  extractMessageText (entry_message entry).

(** [buildKey]: one bucket per account, chat or thread, and sender. *)
Definition buildKey (ctx : FeishuMonitorContext) (entry : DebounceEntry)
    : option text :=
  let senderId :=
    match event_sender (entry_event entry) with
    | Some s => match sender_id s with
                | Some i => open_id i
                | None => None
                end
    | None => None
    end in
  match truthy senderId with
  | None => None
  | Some senderId =>
      let field (f : FeishuMessage -> option text) :=
        match entry_message entry with
        | Some m => f m
        | None => None
        end in
      let chatId := nullish (field chat_id) (lit "undefined") in
      let threadKey :=
        match truthy (field root_id) with
        | Some rootId_ => chatId ++ lit ":" ++ rootId_
        | None => chatId
        end in
      Some (lit "feishu:" ++ accountId ctx ++ lit ":" ++ threadKey
            ++ lit ":" ++ senderId)
  end.

Definition shouldDebounce (core : Core) (entry : DebounceEntry) : bool :=
  let text_ := entry_text entry in
  if negb (is_truthy (Some (trim text_))) then false
  else negb (hasControlCommand core text_).

(** [entries.at(-1)] *)
Definition last_entry (entries : list DebounceEntry) : option DebounceEntry :=
  List.last (map Some entries) None.

(** The text of the merged turn (lines 46-52). *)
Definition combinedText (entries : list DebounceEntry) (last : DebounceEntry)
    : text :=
  if (length entries =? 1)%nat then entry_text last
  else
    join [LF]
      (List.filter (fun t => is_truthy (Some t)) (map entry_text entries)).

(** [entries.some((entry) => Boolean(entry.opts.wasMentioned))] *)
Definition combinedMentioned (entries : list DebounceEntry) : bool :=
  existsb (fun e => nullish (wasMentioned (entry_opts e)) false) entries.

(** What [{ ...undefined, content }] spreads: no property but [content]. *)
Definition no_message : FeishuMessage :=
  {| message_id := None; root_id := None; parent_id := None;
     create_time := None; chat_id := None; chat_type := None;
     message_type := []; content := ContentMissing; mentions := None |}.

(** The synthetic event (lines 57-66): the last event with the combined
    text as its content. *)
Definition syntheticEvent (entries : list DebounceEntry)
    (last : DebounceEntry) : FeishuMessageEvent :=
  {| header := header (entry_event last);
     event_sender := event_sender (entry_event last);
     event_message :=
       Some (with_content (nullish (entry_message last) no_message)
               (stringify_text (combinedText entries last))) |}.

(** [combinedMentioned || last.opts.wasMentioned] *)
Definition syntheticOpts (entries : list DebounceEntry) (last : DebounceEntry)
    : Opts :=
  {| wasMentioned :=
       if combinedMentioned entries then Some true
       else wasMentioned (entry_opts last) |}.

(** The identifiers of the members (lines 81-83). *)
Definition memberIds (entries : list DebounceEntry) : list text :=
  omap (fun e => match entry_message e with
                 | Some m => truthy (message_id m)
                 | None => None
                 end)
    entries.

Definition withMessageSids (ids : list text) (c : MsgContext) : MsgContext :=
  {| Body := Body c; RawBody := RawBody c; CommandBody := CommandBody c;
     From := From c; To := To c; SessionKey := SessionKey c;
     AccountId := AccountId c; ChatType := ChatType c;
     ConversationLabel := ConversationLabel c;
     GroupSubject := GroupSubject c;
     GroupSystemPrompt := GroupSystemPrompt c;
     SenderName := SenderName c; SenderId := SenderId c;
     Provider := Provider c; Surface := Surface c;
     MessageSid := MessageSid c;
     MessageSids := Some ids;
     MessageSidFirst := head ids;
     MessageSidLast := List.last (map Some ids) None;
     ReplyToId := ReplyToId c; MessageThreadId := MessageThreadId c;
     ParentSessionKey := ParentSessionKey c; Timestamp := Timestamp c;
     WasMentioned := WasMentioned c;
     CommandAuthorized := CommandAuthorized c;
     OriginatingChannel := OriginatingChannel c;
     OriginatingTo := OriginatingTo c |}.

Definition withCtxPayload (c : MsgContext) (p : PreparedFeishuMessage)
    : PreparedFeishuMessage :=
  {| prepared_ctx := prepared_ctx p;
     prepared_account := prepared_account p;
     prepared_event := prepared_event p;
     route := route p; groupConfig := groupConfig p;
     replyTarget := replyTarget p; ctxPayload := c;
     isDirectMessage := isDirectMessage p; isGroup := isGroup p;
     historyKey := historyKey p; preview := preview p;
     threadContext := threadContext p |}.

(** Lines 79-89, "Record message IDs if multiple messages were
    combined". *)
Definition recordMessageIds (entries : list DebounceEntry)
    (prepared : PreparedFeishuMessage) : PreparedFeishuMessage :=
  if (1 <? length entries)%nat then
    let ids := memberIds entries in
    if (0 <? length ids)%nat
    then withCtxPayload (withMessageSids ids (ctxPayload prepared)) prepared
    else prepared
  else prepared.

(** [dispatchPreparedFeishuMessage(prepared)]: the turn is handed to the
    reply dispatcher. *)
Definition dispatchPreparedFeishuMessage (prepared : PreparedFeishuMessage)
    (w : World) : World :=
  with_dispatched (dispatched w ++ [prepared]) w.

(** [onFlush] (lines 41-92). *)
Definition onFlush (core : Core) (ctx : FeishuMonitorContext)
    (account : ResolvedFeishuAccount) (entries : list DebounceEntry)
    (w : World) : World :=
  match last_entry entries with
  | None => w
  | Some last =>
      match prepareFeishuMessage core ctx account
              (syntheticEvent entries last) (syntheticOpts entries last) w
      with
      | (None, w1) => w1
      | (Some prepared, w1) =>
          dispatchPreparedFeishuMessage (recordMessageIds entries prepared) w1
      end
  end.

(** The handler returned by [createFeishuMessageHandler] (lines 98-109).
    [debouncer.enqueue] is recorded in [enqueued]. *)
Definition handler (ctx : FeishuMonitorContext) (event : FeishuMessageEvent)
    (opts : Opts) (w : World) : World :=
  match event_message event with
  | None => w
  | Some message =>
      let (seen, cache) :=
        markMessageSeen ctx (chat_id message) (message_id message)
          (clock w) (seenMessages w) in
      let w1 := with_seenMessages cache w in
      if seen then w1
      else
        with_enqueued
          (enqueued w1 ++ [{| entry_event := event; entry_opts := opts |}])
          w1
  end.

(** An inbound event arriving at time [now]. *)
Record Delivery := {
  at_time : Z;
  delivered_event : FeishuMessageEvent;
  delivered_opts : Opts;
}.

Definition with_clock (now : Z) (w : World) : World :=
  {| clock := now; seenMessages := seenMessages w; enqueued := enqueued w;
     chatHistories := chatHistories w;
     pairingRequests := pairingRequests w; outbox := outbox w;
     systemEvents := systemEvents w; sessions := sessions w;
     dispatched := dispatched w |}.

Definition deliver (ctx : FeishuMonitorContext) (d : Delivery) (w : World)
    : World :=
  handler ctx (delivered_event d) (delivered_opts d) (with_clock (at_time d) w).

Definition deliver_all (ctx : FeishuMonitorContext) (ds : list Delivery)
    (w : World) : World :=
  fold_left (fun w d => deliver ctx d w) ds w.

End MessageHandler.

(** ** Notions used to state the properties *)

Module Notions.

Import Js Types Dedupe Context Core Prepare.
Local Open Scope Z_scope.

(** The identifier [x] is present and not blank; [v] is its trimmed
    value. *)
Definition present (x : option text) (v : text) : Prop :=
  exists s, x = Some s /\ trim s = v /\ v <> [].

(** The identifier [x] is missing or blank. *)
Definition absent (x : option text) : Prop :=
  x = None \/ exists s, x = Some s /\ trim s = [].

(** The entry that decides for [chatId]: its own, or else the wildcard. *)
Definition deciding_entry (m : gmap text GroupConfig) (chatId : text)
    (c : GroupConfig) : Prop :=
  m !! chatId = Some c \/ (m !! chatId = None /\ m !! lit "*" = Some c).

Definition not_disabled (c : GroupConfig) : Prop :=
  enabled c <> Some false /\ allow c <> Some false.

Definition key_free (k : text) (es : list (text * Z)) : Prop :=
  Forall (fun e => fst e <> k) es.

(** The cache still holds [k], with an expiry of at least [T] and at most
    [n] younger entries behind it. *)
Definition remembered (k : text) (T : Z) (n : nat) (c : DedupeCache) : Prop :=
  exists pre exp post,
    entries c = pre ++ (k, exp) :: post /\ key_free k pre /\
    T <= exp /\ (length post <= n)%nat.

(** The sender matches an allowlist: the list holds the wildcard, or an
    entry equal to the sender's id or display name up to letter case. *)
Definition sender_matches (allowList : list text) (id_ name_ : text)
    : Prop :=
  In (lit "*") allowList \/
  exists e, In e allowList /\
    (toLowerCase e = toLowerCase id_ \/ toLowerCase e = toLowerCase name_).

(** The same for a sender known by id only. *)
Definition id_matches (allowList : list text) (id_ : text) : Prop :=
  In (lit "*") allowList \/
  exists e, In e allowList /\ toLowerCase e = toLowerCase id_.

(** The identifier of the message of a bucket member, when it has one. *)
Definition member_id (e : DebounceEntry) : option text :=
  match event_message (entry_event e) with
  | Some m => truthy (message_id m)
  | None => None
  end.

(** What lies downstream of the deduplicator: everything in the world but
    the clock and the cache. *)
Definition downstream (w : World) :=
  (enqueued w, chatHistories w, pairingRequests w, outbox w,
   systemEvents w, sessions w, dispatched w).

End Notions.

(** ** Sample configurations and events *)

Module Fixtures.

Import Js Types Dedupe Context Core Prepare MessageHandler.
Local Open Scope Z_scope.

Definition reply_message : FeishuMessage :=
  {| message_id := Some (lit "m2");
     root_id := Some (lit "r");
     parent_id := Some (lit "p");
     create_time := Some (lit "1234567890");
     chat_id := Some (lit "oc_chat1");
     chat_type := Some (lit "group");
     message_type := lit "text";
     content := stringify_text (lit "Reply");
     mentions := None |}.

(** The configuration [createFeishuMonitorProvider] builds when the
    account configures nothing: pairing for direct messages, "allowlist"
    for groups, no group entries. *)
Definition default_params : FeishuMonitorParams :=
  {| p_accountId := lit "default";
     p_appId := lit "cli_app";
     p_botOpenId := Some (lit "ou_bot");
     p_historyLimit := 5;
     p_mainKey := lit "feishu:default";
     p_dmEnabled := true;
     p_dmPolicy := dm_pairing;
     p_allowFrom := Some [];
     p_defaultRequireMention := Some true;
     p_groupsConfig := None;
     p_groupPolicy := policy_allowlist;
     p_textLimit := 4000;
     lookupChatInfo := fun _ => None;
     lookupUserInfo := fun _ => None |}.

Definition with_groups (m : gmap text GroupConfig)
    (params : FeishuMonitorParams) : FeishuMonitorParams :=
  {| p_accountId := p_accountId params;
     p_appId := p_appId params;
     p_botOpenId := p_botOpenId params;
     p_historyLimit := p_historyLimit params;
     p_mainKey := p_mainKey params;
     p_dmEnabled := p_dmEnabled params;
     p_dmPolicy := p_dmPolicy params;
     p_allowFrom := p_allowFrom params;
     p_defaultRequireMention := p_defaultRequireMention params;
     p_groupsConfig := Some m;
     p_groupPolicy := p_groupPolicy params;
     p_textLimit := p_textLimit params;
     lookupChatInfo := lookupChatInfo params;
     lookupUserInfo := lookupUserInfo params |}.

Definition plain_group : GroupConfig :=
  {| enabled := None; allow := None; requireMention := None;
     users := None; skills := None; systemPrompt := None |}.

Definition group_chat (chatId : text) : ChatRef :=
  {| ref_chatId := Some chatId; ref_chatType := Some group |}.

Definition text_message (chatId messageId body_ : text) : FeishuMessage :=
  {| message_id := Some messageId;
     root_id := None;
     parent_id := None;
     create_time := Some (lit "1234567890");
     chat_id := Some chatId;
     chat_type := Some (lit "group");
     message_type := lit "text";
     content := stringify_text body_;
     mentions := None |}.

Definition message_event (senderId : text) (m : FeishuMessage)
    : FeishuMessageEvent :=
  {| header := {| event_id := lit "ev"; event_type :=
                    lit "im.message.receive_v1"; app_id := lit "cli_app" |};
     event_sender :=
       Some {| sender_id := Some {| union_id := None; user_id := None;
                                    open_id := Some senderId |};
               sender_type := lit "user" |};
     event_message := Some m |}.

Definition delivery (now : Z) (e : FeishuMessageEvent) : Delivery :=
  {| at_time := now; delivered_event := e;
     delivered_opts := {| wasMentioned := None |} |}.

Definition empty_world : World :=
  {| clock := 0;
     seenMessages := seenMessages_initial;
     enqueued := [];
     chatHistories := ∅;
     pairingRequests := ∅;
     outbox := [];
     systemEvents := [];
     sessions := [];
     dispatched := [] |}.

(** [n] messages with identifiers of their own, all arriving at time 1. *)
Definition flood_id (i : nat) : text :=
  [ascii_of_nat (65 + i / 26); ascii_of_nat (65 + i mod 26)].

Definition flood (n : nat) : list Delivery :=
  map (fun i =>
         delivery 1
           (message_event (lit "ou_user")
              (text_message (lit "oc_1") (flood_id i) (lit "hi"))))
    (seq 0 n).

(** Collaborators for the sample runs: the gates, the pending history and
    the pairing store as the specification describes them, and plain
    stand-ins for routing and formatting. *)
Definition sample_core : Core :=
  {| hasControlCommand := fun t => starts_with (lit "/") t;
     shouldHandleTextCommands := true;
     buildMentionRegexes := fun _ => [];
     matchesMentionWithExplicit := fun _ _ e => isExplicitlyMentioned e;
     resolveAgentRoute := fun acc peer =>
       {| agentId := lit "main";
          route_accountId := acc;
          sessionKey := lit "agent:main:feishu:" ++ peer_kind peer
                        ++ lit ":" ++ peer_id peer;
          mainSessionKey := lit "agent:main:main" |};
     resolveThreadSessionKeys := fun base thread =>
       match thread with
       | Some t => {| thread_sessionKey := base ++ lit ":thread:" ++ t;
                      parentSessionKey := Some base |}
       | None => {| thread_sessionKey := base; parentSessionKey := None |}
       end;
     resolveControlCommandGate := CoreSpec.resolveControlCommandGate;
     resolveMentionGatingWithBypass :=
       CoreSpec.resolveMentionGatingWithBypass;
     recordPendingHistoryEntryIfEnabled :=
       CoreSpec.recordPendingHistoryEntryIfEnabled;
     buildPendingHistoryContextFromMap := fun m k limit current fmt =>
       join [LF]
         (map fmt (CoreSpec.last_n (Z.to_nat limit) (nullish (m !! k) []))
          ++ [current]);
     formatInboundEnvelope := fun e => env_body e;
     resolveConversationLabel := fun _ => None;
     finalizeInboundContext := fun c => c;
     upsertChannelPairingRequest :=
       CoreSpec.upsertChannelPairingRequest
         (fun id_ _ => lit "CODE-" ++ id_);
     buildPairingReply := fun _ idLine code_ =>
       idLine ++ [LF] ++ lit "Pairing code: " ++ code_;
     resolveStorePath := fun a => lit "sessions/" ++ a;
     readSessionUpdatedAt := fun _ _ => None;
     Number := fun _ => 0 |}.

Definition sample_account : ResolvedFeishuAccount :=
  {| account_accountId := lit "default"; account_appId := lit "cli_app" |}.

Definition no_opts : Opts := {| wasMentioned := None |}.

(** A direct message from a user not on any allowlist. *)
Definition direct_message : FeishuMessageEvent :=
  message_event (lit "ou_stranger")
    {| message_id := Some (lit "om_dm1");
       root_id := None;
       parent_id := None;
       create_time := Some (lit "1234567890");
       chat_id := Some (lit "ou_stranger");
       chat_type := Some (lit "p2p");
       message_type := lit "text";
       content := stringify_text (lit "hello");
       mentions := None |}.

(** One group, "oc_1", configured with no restriction of its own. *)
Definition group_params : FeishuMonitorParams :=
  with_groups {[ lit "oc_1" := plain_group ]} default_params.

(** A message in that group from a user the bot does not know by name,
    with no mention. *)
Definition group_message (body_ : text) : FeishuMessageEvent :=
  message_event (lit "ou_user")
    (text_message (lit "oc_1") (lit "om_g1") body_).

(** A later message in the same group that mentions the bot. *)
Definition mentioning_message : FeishuMessageEvent :=
  message_event (lit "ou_user")
    {| message_id := Some (lit "om_g2");
       root_id := None;
       parent_id := None;
       create_time := Some (lit "1234567891");
       chat_id := Some (lit "oc_1");
       chat_type := Some (lit "group");
       message_type := lit "text";
       content := stringify_text (lit "@bot status?");
       mentions :=
         Some [{| mention_key := lit "@_user_1";
                  mention_id := Some {| union_id := None; user_id := None;
                                        open_id := Some (lit "ou_bot") |};
                  mention_name := lit "bot" |}] |}.

(** Three rapid messages of one sender in one group. *)
Definition burst : list DebounceEntry :=
  map (fun p : text * text =>
         {| entry_event :=
              message_event (lit "ou_user")
                (text_message (lit "oc_1") (fst p) (snd p));
            entry_opts := no_opts |})
    [ (lit "om_1", lit "one"); (lit "om_2", lit "two");
      (lit "om_3", lit "three") ].

Definition burst_last : DebounceEntry :=
  {| entry_event :=
       message_event (lit "ou_user")
         (text_message (lit "oc_1") (lit "om_3") (lit "three"));
     entry_opts := no_opts |}.

Definition first_message : FeishuMessageEvent :=
  message_event (lit "ou_user")
    (text_message (lit "oc_1") (lit "om_1") (lit "hello")).

End Fixtures.

(** ** String searches from the front *)

Module JsSearch.

Import Js.
Local Open Scope Z_scope.

(** Upward scan of the candidate start positions [i, i+1, ..]. *)
Fixpoint first_match_from (pat s : text) (i : Z) : Z :=
  if starts_with pat s then i
  else match s with
       | [] => -1
       | _ :: s' => first_match_from pat s' (i + 1)
       end.

(** [s.indexOf(pat)] *)
Definition indexOf (s pat : text) : Z := first_match_from pat s 0.

End JsSearch.

(** ** targets.ts *)

Module Targets.

Import Js JsSearch.
Local Open Scope Z_scope.

Inductive FeishuTargetKind := user | chat.

(** The string a [FeishuTargetKind] is. *)
Definition kind_name (k : FeishuTargetKind) : text :=
  match k with
  | user => lit "user"
  | chat => lit "chat"
  end.

(** ["open_id" | "user_id" | "union_id" | "chat_id"] *)
Inductive FeishuIdType :=
  type_open_id | type_user_id | type_union_id | type_chat_id.

Record FeishuTarget := {
  kind : FeishuTargetKind;
  id : text;
  idType : option FeishuIdType;
}.

Definition inferIdType (id_ : text) : option FeishuIdType :=
  if starts_with (lit "ou_") id_ then Some type_open_id
  else if starts_with (lit "on_") id_ then Some type_union_id
  else None.

(** [s.replace(/^feishu:/i, "")].  The pattern is anchored at the start
    and holds ASCII letters and a colon only, so it matches exactly when
    the first seven code units, letters lowered, are [feishu:]; the match
    is removed. *)
Definition strip_feishu_prefix (s : text) : text :=
  if starts_with (lit "feishu:") (toLowerCase s) then skipn 7 s else s.

Definition parseFeishuTarget (raw : text) : option FeishuTarget :=
  let trimmed := trim raw in
  if negb (is_truthy (Some trimmed)) then None
  else
    let remaining := strip_feishu_prefix trimmed in
    if starts_with (lit "user:") remaining then
      let id_ := trim (slice remaining 5 None) in
      if negb (is_truthy (Some id_)) then None
      else Some {| kind := user; id := id_; idType := inferIdType id_ |}
    else if (starts_with (lit "chat:") remaining
             || starts_with (lit "group:") remaining)%bool then
      let id_ :=
        trim (slice remaining (indexOf remaining (lit ":") + 1) None) in
      if negb (is_truthy (Some id_)) then None
      else Some {| kind := chat; id := id_; idType := Some type_chat_id |}
    else if starts_with (lit "oc_") remaining then
      Some {| kind := chat; id := remaining; idType := Some type_chat_id |}
    else if starts_with (lit "ou_") remaining then
      Some {| kind := user; id := remaining; idType := Some type_open_id |}
    else if starts_with (lit "on_") remaining then
      Some {| kind := user; id := remaining; idType := Some type_union_id |}
    else Some {| kind := user; id := remaining; idType := None |}.

(** [`feishu:${target.kind}:${target.id}`] *)
Definition formatFeishuTarget (target : FeishuTarget) : text :=
  lit "feishu:" ++ kind_name (kind target) ++ lit ":" ++ id target.

Definition looksLikeFeishuId (id_ : text) : bool :=
  let trimmed := trim id_ in
  if negb (is_truthy (Some trimmed)) then false
  else if starts_with (lit "feishu:") (toLowerCase trimmed) then true
  else if starts_with (lit "ou_") trimmed then true
  else if starts_with (lit "oc_") trimmed then true
  else if starts_with (lit "on_") trimmed then true
  else false.

Definition normalizeFeishuTarget (target : text) : option text :=
  match parseFeishuTarget target with
  | None => None
  | Some parsed => Some (id parsed)
  end.

End Targets.

(** ** monitor/replies.ts *)

Module Replies.

Import Js.
Local Open Scope Z_scope.

(** The properties of a [ReplyPayload] the delivery reads. *)
Record ReplyPayload := {
  payload_text : option text;
  mediaUrl : option text;
  mediaUrls : option (list text);
  payload_replyToId : option text;
}.

(** A call [sendMessageFeishu(to, message, { account, replyToId })]. *)
Record SendCall := {
  call_to : text;
  call_message : text;
  call_replyToId : option text;
}.

(** The marker put in front of a media URL.  Its character lies outside
    the code units the embedding keeps; the literal stands here as the
    bytes of the source file. *)
Definition MEDIA_MARK : text := lit "📎 ".

(** [a ?? b] where [b] may be undefined as well. *)
Definition or_else {A : Type} (a b : option A) : option A :=
  match a with
  | Some x => Some x
  | None => b
  end.

(** The inner loop over [mediaList] (lines 35-48): the caption goes with
    the first media only. *)
Fixpoint media_calls (target text_ : text) (replyToId : option text)
    (first : bool) (mediaList : list text) : list SendCall :=
  match mediaList with
  | [] => []
  | mediaUrl_ :: rest =>
      let caption := if first then text_ else [] in
      let messageText :=
        if is_truthy (Some caption)
        then caption ++ [LF; LF] ++ MEDIA_MARK ++ mediaUrl_
        else MEDIA_MARK ++ mediaUrl_ in
      {| call_to := target; call_message := messageText;
         call_replyToId := replyToId |}
      :: media_calls target text_ replyToId false rest
  end.

(** One iteration of the loop over the payloads (lines 20-49): the calls
    of [sendMessageFeishu] it makes, in order.  [isSilentReplyText] is
    the helper of the plugin SDK, applied to [SILENT_REPLY_TOKEN]. *)
Definition payload_calls (isSilentReplyText : text -> bool) (target : text)
    (replyToId : option text) (payload : ReplyPayload) : list SendCall :=
  let mediaList :=
    match mediaUrls payload with
    | Some l => l
    | None => match truthy (mediaUrl payload) with
              | Some u => [u]
              | None => []
              end
    end in
  let text_ := nullish (payload_text payload) [] in
  let reply := or_else (payload_replyToId payload) replyToId in
  if (negb (is_truthy (Some text_)) && Nat.eqb (length mediaList) 0)%bool
  then []
  else if Nat.eqb (length mediaList) 0 then
    let trimmed := trim text_ in
    if (negb (is_truthy (Some trimmed)) || isSilentReplyText trimmed)%bool
    then []
    else [{| call_to := target; call_message := trimmed;
             call_replyToId := reply |}]
  else media_calls target text_ reply true mediaList.

(** [deliverFeishuReplies]: the calls of [sendMessageFeishu] it makes when
    none of them throws (a call that throws ends the delivery). *)
Definition deliverFeishuReplies (isSilentReplyText : text -> bool)
    (replies : list ReplyPayload) (target : text) (replyToId : option text)
    : list SendCall :=
  flat_map (payload_calls isSilentReplyText target replyToId) replies.

(** ["off" | "first" | "all"] *)
Inductive ReplyToMode := mode_off | mode_first | mode_all.

Definition resolveFeishuReplyToId (replyToMode : ReplyToMode)
    (incomingReplyToId messageId : option text) (hasReplied : bool)
    : option text :=
  match replyToMode with
  | mode_off => incomingReplyToId
  | mode_first =>
      if hasReplied then None else or_else incomingReplyToId messageId
  | mode_all => or_else incomingReplyToId messageId
  end.

(** The parameters of [createFeishuReplyDeliveryPlan] but the shared cell
    [hasRepliedRef], which is the state the two closures work on. *)
Record PlanParams := {
  plan_replyToMode : ReplyToMode;
  plan_incomingReplyToId : option text;
  plan_messageId : option text;
}.

(** [plan.nextReplyToId()] with [hasRepliedRef.value] being [ref]. *)
Definition nextReplyToId (params : PlanParams) (ref : bool) : option text :=
  resolveFeishuReplyToId (plan_replyToMode params)
    (plan_incomingReplyToId params) (plan_messageId params) ref.

(** [plan.markSent()]: the new value of [hasRepliedRef.value]. *)
Definition markSent (ref : bool) : bool := true.

(** The calls a user of the plan can make. *)
Inductive PlanCall := call_nextReplyToId | call_markSent.

(** A run of calls on one plan: the results of the [nextReplyToId] calls,
    and the final value of the cell. *)
Fixpoint run_plan (params : PlanParams) (calls : list PlanCall) (ref : bool)
    : list (option text) * bool :=
  match calls with
  | [] => ([], ref)
  | call_nextReplyToId :: rest =>
      let (results, ref') := run_plan params rest ref in
      (nextReplyToId params ref :: results, ref')
  | call_markSent :: rest => run_plan params rest (markSent ref)
  end.

End Replies.

(** ** monitor/context.ts: the guard on the application id *)

Module ContextGuards.

Import Js Types Context.

(** [ctx.shouldDropMismatchedEvent(appId)].  [appId] is of type
    [unknown]; [None] is a value that is not a string. *)
Definition shouldDropMismatchedEvent (ctx : FeishuMonitorContext)
    (appId_ : option text) : bool :=
  if negb (is_truthy (Some (appId ctx))) then false
  else
    let incomingAppId := nullish appId_ [] in
    if (is_truthy (Some incomingAppId)
        && negb (text_eqb incomingAppId (appId ctx)))%bool
    then true else false.

End ContextGuards.

(** ** monitor/events/messages.ts and monitor/events/index.ts *)

Module Events.

Import Js Types Context Core Prepare.

(** [m.id?.open_id === botOpenId] *)
Definition mentions_id (botOpenId_ : text) (m : FeishuMention) : bool :=
  match mention_id m with
  | Some i => match open_id i with
              | Some o => text_eqb o botOpenId_
              | None => false
              end
  | None => false
  end.

(** [handleMessageReceive] of [createFeishuMessageEventHandler];
    [messageHandler] is the handler it was created with. *)
Definition handleMessageReceive (ctx : FeishuMonitorContext)
    (messageHandler : FeishuMessageEvent -> Opts -> World -> World)
    (event : FeishuMessageEvent) (w : World) : World :=
  match event_message event, event_sender event with
  | Some message, Some sender_ =>
      if text_eqb (sender_type sender_) (lit "app") then w
      else
        let mentions_ := nullish (mentions message) [] in
        let wasMentioned_ :=
          match truthy (botOpenId ctx) with
          | Some bot => existsb (mentions_id bot) mentions_
          | None => false
          end in
        messageHandler event {| wasMentioned := Some wasMentioned_ |} w
  | _, _ => w
  end.

(** An element of the result of [extractMentions]. *)
Record Mention := {
  openId : option text;
  userId : option text;
  name : text;
  key : text;
}.

Definition extractMentions (message : FeishuMessage) : list Mention :=
  map (fun m =>
         {| openId := match mention_id m with
                      | Some i => open_id i
                      | None => None
                      end;
            userId := match mention_id m with
                      | Some i => user_id i
                      | None => None
                      end;
            name := mention_name m;
            key := mention_key m |})
    (nullish (mentions message) []).

Definition wasBotMentioned (mentions_ : list Mention)
    (botOpenId_ : option text) : bool :=
  match truthy botOpenId_ with
  | None => false
  | Some bot => existsb (fun m => bool_decide (openId m = Some bot)) mentions_
  end.

(** [handleEvent] of [createFeishuEventHandlers]: the switch on the event
    type.  Only ["im.message.receive_v1"] has a handler. *)
Definition handleEvent (ctx : FeishuMonitorContext)
    (messageHandler : FeishuMessageEvent -> Opts -> World -> World)
    (event : FeishuMessageEvent) (w : World) : World :=
  let eventType := event_type (header event) in
  if text_eqb eventType (lit "im.message.receive_v1")
  then handleMessageReceive ctx messageHandler event w
  else w.

End Events.

(** ** monitor/provider.ts *)

Module Provider.

Import Js Types Context Core Prepare.

(** [handleEvent] of [createFeishuMonitorProvider] (lines 102-116), with
    the message handler of [createFeishuMessageHandler]. *)
Definition handleEvent (ctx : FeishuMonitorContext)
    (event : FeishuMessageEvent) (w : World) : World :=
  if (is_truthy (Some (app_id (header event)))
      && ContextGuards.shouldDropMismatchedEvent ctx
           (Some (app_id (header event))))%bool
  then w
  else Events.handleEvent ctx (MessageHandler.handler ctx) event w.

End Provider.

(** ** format.ts: rich text *)

Module Markdown.

Import Js JsSearch.
Local Open Scope Z_scope.

(** [FeishuPostTag] of [types.ts], the tagged union, for the tags the
    converter builds.  ([Types.FeishuPostTag] is the untyped object
    [JSON.parse] gives for an inbound post.) *)
Inductive PostTag :=
| tag_text (text_ : text) (style : option (list text))
| tag_a (text_ href : text)
| tag_at (user_id : text) (user_name : option text)
| tag_img (image_key : text)
| tag_media (file_key : text) (image_key : option text)
| tag_emotion (emoji_type : text)
| tag_code_block (language : option text) (text_ : text).

(** [FeishuPostContent]; the converter sets no title. *)
Record PostContent := {
  post_title : option text;
  paragraphs : list (list PostTag);
}.

(** The result of a successful [match]: the matched text [m[0]] and the
    two capture groups (the second is empty when the pattern has one). *)
Record Match := {
  whole : text;
  group1 : text;
  group2 : text;
}.

(** The longest prefix of [s] whose code units satisfy [p], and the
    rest. *)
Fixpoint span (p : ascii -> bool) (s : text) : text * text :=
  match s with
  | [] => ([], [])
  | c :: s' =>
      if p c then let (run, rest) := span p s' in (c :: run, rest)
      else ([], s)
  end.

Definition is_not (stop c : ascii) : bool := negb (Ascii.eqb stop c).

(** [s.match(/^OPEN([^X]+)CLOSE/)] for literals [OPEN], [CLOSE] and a
    code unit [X] that [CLOSE] starts with.  The class is greedy: it takes
    the longest run without [X], which must not be empty; what follows the
    run starts with [X] or is the end, so no shorter run can be followed
    by [CLOSE] and backtracking finds nothing more. *)
Definition match_delimited (open : text) (stop : ascii) (close : text)
    (s : text) : option Match :=
  if starts_with open s then
    let (run, rest) := span (is_not stop) (skipn (length open) s) in
    if (negb (Nat.eqb (length run) 0) && starts_with close rest)%bool
    then Some {| whole := open ++ run ++ close; group1 := run;
                 group2 := [] |}
    else None
  else None.

(** [s.match(/^`([^`]+)`/)] *)
Definition match_inline_code : text -> option Match :=
  match_delimited (lit "`") "`" (lit "`").

(** [s.match(/^\[([^\]]+)\]\(([^)]+)\)/)] *)
Definition match_link (s : text) : option Match :=
  match match_delimited (lit "[") "]" (lit "](") s with
  | None => None
  | Some m =>
      let (href, rest) := span (is_not ")") (skipn (length (whole m)) s) in
      if (negb (Nat.eqb (length href) 0) && starts_with (lit ")") rest)%bool
      then Some {| whole := whole m ++ href ++ lit ")"; group1 := group1 m;
                   group2 := href |}
      else None
  end.

(** [s.match(/^\*\*([^*]+)\*\*/)], [s.match(/^__([^_]+)__/)],
    [s.match(/^\*([^*]+)\*/)] and [s.match(/^_([^_]+)_/)] *)
Definition match_bold_star : text -> option Match :=
  match_delimited (lit "**") "*" (lit "**").
Definition match_bold_underscore : text -> option Match :=
  match_delimited (lit "__") "_" (lit "__").
Definition match_italic_star : text -> option Match :=
  match_delimited (lit "*") "*" (lit "*").
Definition match_italic_underscore : text -> option Match :=
  match_delimited (lit "_") "_" (lit "_").

(** [a || b] on match results *)
Definition or_match (a b : option Match) : option Match :=
  match a with
  | Some m => Some m
  | None => b
  end.

(** The class [[`\[*_]] *)
Definition is_special (c : ascii) : bool :=
  (Ascii.eqb c "`" || Ascii.eqb c "[" || Ascii.eqb c "*"
   || Ascii.eqb c "_")%bool.

Fixpoint search_from (p : ascii -> bool) (s : text) (i : Z) : Z :=
  match s with
  | [] => -1
  | c :: s' => if p c then i else search_from p s' (i + 1)
  end.

(** [s.search(/[`\[*_]/)] *)
Definition search_special (s : text) : Z := search_from is_special s 0.

(** The [while (remaining.length > 0)] loop of [parseLineToTags]
    (lines 34-84).  The embedding counts iterations: [None] is a run that
    is still going after [fuel] iterations. *)
Fixpoint parse_loop (fuel : nat) (remaining : text) (tags : list PostTag)
    : option (list PostTag) :=
  match fuel with
  | O => None
  | S fuel' =>
      if len remaining <=? 0 then Some tags
      else
        match match_inline_code remaining with
        | Some inlineCodeMatch =>
            parse_loop fuel'
              (slice remaining (len (whole inlineCodeMatch)) None)
              (tags ++ [tag_text (group1 inlineCodeMatch)
                          (Some [lit "code"])])
        | None =>
        match match_link remaining with
        | Some linkMatch =>
            parse_loop fuel'
              (slice remaining (len (whole linkMatch)) None)
              (tags ++ [tag_a (group1 linkMatch) (group2 linkMatch)])
        | None =>
        match or_match (match_bold_star remaining)
                (match_bold_underscore remaining) with
        | Some boldMatch =>
            parse_loop fuel'
              (slice remaining (len (whole boldMatch)) None)
              (tags ++ [tag_text (group1 boldMatch) (Some [lit "bold"])])
        | None =>
        match or_match (match_italic_star remaining)
                (match_italic_underscore remaining) with
        | Some italicMatch =>
            parse_loop fuel'
              (slice remaining (len (whole italicMatch)) None)
              (tags ++ [tag_text (group1 italicMatch)
                          (Some [lit "italic"])])
        | None =>
            let nextSpecial := search_special remaining in
            if nextSpecial =? -1 then
              Some (if is_truthy (Some remaining)
                    then tags ++ [tag_text remaining None]
                    else tags)
            else if nextSpecial =? 0 then
              parse_loop fuel' (slice remaining 1 None)
                (tags ++ [tag_text (firstn 1 remaining) None])
            else
              parse_loop fuel' (slice remaining nextSpecial None)
                (tags ++ [tag_text (slice remaining 0 (Some nextSpecial))
                            None])
        end end end end
  end.

Definition parseLineToTags (fuel : nat) (line : text)
    : option (list PostTag) :=
  parse_loop fuel line [].

(** [m] matches at some position of [s]: what [/.../.test(s)] is for a
    pattern that [m] decides at a given position. *)
Fixpoint test_anywhere (m : text -> bool) (s : text) : bool :=
  (m s
   || match s with
      | [] => false
      | _ :: s' => test_anywhere m s'
      end)%bool.

Definition matches (m : text -> option Match) (s : text) : bool :=
  match m s with
  | Some _ => true
  | None => false
  end.

(** LF and CR, the line terminators among the code units kept. *)
Definition is_line_terminator (c : ascii) : bool :=
  (Ascii.eqb c LF || Ascii.eqb c (ascii_of_nat 13))%bool.

(** [m] matches at the start of some line of [s]: a pattern [/^.../m].
    [at_start] tells whether [s] begins a line. *)
Fixpoint test_at_line_starts (m : text -> bool) (at_start : bool) (s : text)
    : bool :=
  ((at_start && m s)
   || match s with
      | [] => false
      | c :: s' => test_at_line_starts m (is_line_terminator c) s'
      end)%bool.

(** [\d] and [\w] *)
Definition is_digit (c : ascii) : bool :=
  let n := nat_of_ascii c in (Nat.leb 48 n && Nat.leb n 57)%bool.

Definition is_word_char (c : ascii) : bool :=
  let n := nat_of_ascii c in
  ((Nat.leb 48 n && Nat.leb n 57) || (Nat.leb 65 n && Nat.leb n 90)
   || (Nat.leb 97 n && Nat.leb n 122) || Nat.eqb n 95)%bool.

(** The class [[-*+]] *)
Definition is_bullet (c : ascii) : bool :=
  (Ascii.eqb c "-" || Ascii.eqb c "*" || Ascii.eqb c "+")%bool.

(** [```[\s\S]*?```] at the start of [s]: three backticks, and three
    more anywhere after them. *)
Definition fenced_at (s : text) : bool :=
  (starts_with (lit "```") s
   && test_anywhere (starts_with (lit "```")) (skipn 3 s))%bool.

(** [[-*+]\s] at the start of [s] *)
Definition bullet_at (s : text) : bool :=
  match s with
  | c :: d :: _ => (is_bullet c && is_white_space d)%bool
  | _ => false
  end.

(** [\d+\.\s] at the start of [s] *)
Definition ordered_at (s : text) : bool :=
  let (digits, rest) := span is_digit s in
  (negb (Nat.eqb (length digits) 0)
   && match rest with
      | c :: d :: _ => (Ascii.eqb c "." && is_white_space d)%bool
      | _ => false
      end)%bool.

Definition needsRichText (text_ : text) : bool :=
  if test_anywhere fenced_at text_ then true
  else if test_anywhere (matches match_inline_code) text_ then true
  else if test_anywhere (matches match_link) text_ then true
  else if test_anywhere (matches match_bold_star) text_ then true
  else if test_anywhere (matches match_italic_star) text_ then true
  else if test_anywhere (matches match_bold_underscore) text_ then true
  else if test_anywhere (matches match_italic_underscore) text_ then true
  else if test_at_line_starts bullet_at true text_ then true
  else if test_at_line_starts ordered_at true text_ then true
  else false.

(** [s.split("\n")] *)
Fixpoint split_lines (s : text) : list text :=
  match s with
  | [] => [[]]
  | c :: s' =>
      if Ascii.eqb c LF then [] :: split_lines s'
      else match split_lines s' with
           | [] => [[c]]
           | line :: lines => (c :: line) :: lines
           end
  end.

(** The code fence pattern of line 101: three backticks at the start of
    the line, and a group that is the longest run of word characters
    after them. *)
Definition match_fence (line : text) : option Match :=
  if starts_with (lit "```") line then
    let (language, _) := span is_word_char (skipn 3 line) in
    Some {| whole := lit "```" ++ language; group1 := language;
            group2 := [] |}
  else None.

(** The list item pattern of line 124.  The marker is one bullet
    character, or else the longest run of digits followed by a dot; at
    least one white space follows, and the greedy [\s+] takes all of it;
    the rest of the line is the second group, and it must hold no line
    terminator, which [.] does not match (a shorter run of white space
    would leave the same terminator to the group). *)
Definition match_list_item (line : text) : option Match :=
  let marker :=
    match line with
    | c :: _ =>
        if is_bullet c then Some [c]
        else
          let (digits, rest) := span is_digit line in
          if (negb (Nat.eqb (length digits) 0)
              && starts_with (lit ".") rest)%bool
          then Some (digits ++ lit ".")
          else None
    | [] => None
    end in
  match marker with
  | None => None
  | Some marker_ =>
      let (space, rest) := span is_white_space (skipn (length marker_) line) in
      if (negb (Nat.eqb (length space) 0)
          && forallb (fun c => negb (is_line_terminator c)) rest)%bool
      then Some {| whole := line; group1 := marker_; group2 := rest |}
      else None
  end.

(** [s.endsWith(".")] *)
Definition ends_with_dot (s : text) : bool :=
  match rev s with
  | c :: _ => Ascii.eqb c "."
  | [] => false
  end.

(** The prefix of an unordered list item (line 126).  Its characters lie
    outside the code units the embedding keeps; the literal stands here
    as the bytes of the source file. *)
Definition BULLET : text := lit "â€¢ ".

(** The inner loop of lines 107-110: the lines up to the closing fence,
    and the lines from the closing fence on. *)
Fixpoint code_lines (lines : list text) : list text * list text :=
  match lines with
  | [] => ([], [])
  | line :: rest =>
      if starts_with (lit "```") line then ([], lines)
      else let (codeLines, after) := code_lines rest in
           (line :: codeLines, after)
  end.

(** The [while (i < lines.length)] loop of [markdownToFeishuPost]
    (lines 97-144); [lines] are the lines from index [i] on.  Iterations
    are counted as in [parse_loop], and [fuel] bounds the loops of
    [parseLineToTags] as well. *)
Fixpoint post_loop (fuel : nat) (lines : list text)
    (content : list (list PostTag)) : option (list (list PostTag)) :=
  match fuel with
  | O => None
  | S fuel' =>
      match lines with
      | [] => Some content
      | line :: rest =>
          match match_fence line with
          | Some codeBlockMatch =>
              let language := truthy (Some (group1 codeBlockMatch)) in
              let (codeLines, after) := code_lines rest in
              post_loop fuel' (skipn 1 after)
                (content ++ [[tag_code_block language (join [LF] codeLines)]])
          | None =>
              match match_list_item line with
              | Some listMatch =>
                  let prefix :=
                    if ends_with_dot (group1 listMatch)
                    then group1 listMatch ++ lit " "
                    else BULLET in
                  match parseLineToTags fuel (group2 listMatch) with
                  | None => None
                  | Some tags =>
                      post_loop fuel' rest
                        (content ++ [tag_text prefix None :: tags])
                  end
              | None =>
                  if is_truthy (Some (trim line)) then
                    match parseLineToTags fuel line with
                    | None => None
                    | Some tags => post_loop fuel' rest (content ++ [tags])
                    end
                  else if (0 <? length content)%nat then
                    post_loop fuel' rest (content ++ [[tag_text [] None]])
                  else post_loop fuel' rest content
              end
          end
      end
  end.

Definition markdownToFeishuPost (fuel : nat) (markdown : text)
    : option PostContent :=
  match post_loop fuel (split_lines markdown) [] with
  | None => None
  | Some content => Some {| post_title := None; paragraphs := content |}
  end.

End Markdown.
(** ** send.ts *)

Module Send.

Import Js Format Targets Markdown.
Local Open Scope Z_scope.

Definition FEISHU_TEXT_LIMIT : Z := 4000.

(** The properties of a [ResolvedFeishuAccount] the sender reads;
    [sender_textChunkLimit] is [account.config.textChunkLimit]. *)
Record SenderAccount := {
  sender_accountId : text;
  sender_appId : text;
  sender_appSecret : text;
  sender_textChunkLimit : option Z;
}.

(** [FeishuSendOpts].  [opts_cfg] stands for [cfg] by the account
    [resolveFeishuAccount({ cfg, accountId })] resolves from it, which
    depends on the configuration file and the environment. *)
Record FeishuSendOpts := {
  opts_account : option SenderAccount;
  opts_replyToId : option text;
  opts_cfg : option SenderAccount;
}.

(** The errors thrown before any request is made. *)
Inductive SendError :=
| RequiresTextMessage
| ConfigRequired
| CredentialsMissing (accountId_ : text)
| InvalidTarget (to : text).

Inductive MsgType := msg_text | msg_post.

(** The [content] of a request before [JSON.stringify]: [{ text }] of
    [textToFeishuContent], [{ zh_cn: post }] of
    [markdownToFeishuPostContent]. *)
Inductive MessageContent :=
| content_text (text_ : text)
| content_post (zh_cn : PostContent).

(** The two requests of [api.ts] the sender makes. *)
Inductive ApiCall :=
| replyFeishuMessage (messageId : text) (msgType : MsgType)
    (content : MessageContent)
| sendFeishuMessage (receiveIdType : FeishuIdType) (receiveId : text)
    (msgType : MsgType) (content : MessageContent).

Definition resolveAccountFromOpts (opts : FeishuSendOpts)
    : SendError + SenderAccount :=
  match opts_account opts with
  | Some account => inr account
  | None =>
      match opts_cfg opts with
      | None => inl ConfigRequired
      | Some resolved => inr resolved
      end
  end.

(** [markdownToFeishuPostContent(chunk)] *)
Definition markdownToFeishuPostContent (fuel : nat) (markdown : text)
    : option MessageContent :=
  option_map content_post (markdownToFeishuPost fuel markdown).

(** [textToFeishuContent(chunk)] *)
Definition textToFeishuContent (text_ : text) : MessageContent :=
  content_text text_.

(** The loop over the chunks (lines 85-115): the requests it makes, in
    order, when none of them throws.  [isFirstChunk] is [i === 0]. *)
Fixpoint chunk_calls (fuel : nat) (receiveIdType : FeishuIdType)
    (receiveId : text) (replyToId : option text) (isFirstChunk : bool)
    (chunks : list text) : option (list ApiCall) :=
  match chunks with
  | [] => Some []
  | chunk :: rest =>
      let useRichText := needsRichText chunk in
      let msgType := if useRichText then msg_post else msg_text in
      match (if useRichText then markdownToFeishuPostContent fuel chunk
             else Some (textToFeishuContent chunk)) with
      | None => None
      | Some content =>
          let call :=
            match (if isFirstChunk then truthy replyToId else None) with
            | Some messageId => replyFeishuMessage messageId msgType content
            | None =>
                sendFeishuMessage receiveIdType receiveId msgType content
            end in
          match chunk_calls fuel receiveIdType receiveId replyToId false rest
          with
          | None => None
          | Some calls => Some (call :: calls)
          end
      end
  end.

(** [sendMessageFeishu(to, message, opts)]: the error it throws before
    any request, or the requests it makes when none of them throws (a
    request that throws ends the loop).  The loops of the chunker and of
    the converter are bounded by [fuel]; [None] is a call that is still
    running.  The result object, built from the responses, is left
    out. *)
Definition sendMessageFeishu (fuel : nat) (to message : text)
    (opts : FeishuSendOpts) : option (SendError + list ApiCall) :=
  let trimmedMessage := trim message in
  if negb (is_truthy (Some trimmedMessage)) then Some (inl RequiresTextMessage)
  else
    match resolveAccountFromOpts opts with
    | inl e => Some (inl e)
    | inr account =>
        if (negb (is_truthy (Some (sender_appId account)))
            || negb (is_truthy (Some (sender_appSecret account))))%bool
        then Some (inl (CredentialsMissing (sender_accountId account)))
        else
          match parseFeishuTarget to with
          | None => Some (inl (InvalidTarget to))
          | Some target =>
              let receiveIdType :=
                match kind target with
                | chat => type_chat_id
                | user => type_open_id
                end in
              let receiveId := id target in
              let textLimit :=
                nullish (sender_textChunkLimit account) FEISHU_TEXT_LIMIT in
              match chunkFeishuText fuel trimmedMessage textLimit with
              | None => None
              | Some chunks =>
                  match chunk_calls fuel receiveIdType receiveId
                          (opts_replyToId opts) true chunks with
                  | None => None
                  | Some calls => Some (inr calls)
                  end
              end
          end
    end.

End Send.

(** ** monitor/reply-dispatcher.ts *)

Module ReplyDispatcher.

Import Js Replies.
Local Open Scope Z_scope.

(** The payload [deliver] takes. *)
Record DeliverPayload := {
  deliver_text : option text;
  deliver_mediaUrls : option (list text);
}.

(** The marker of line 53, as the bytes of the source file. *)
Definition MEDIA_MARK : text := lit "ðŸ“Ž ".

(** [deliver] of [createFeishuReplyDispatcher] (lines 31-58): the calls
    of [sendMessageFeishu] it makes, in order, when none of them throws.
    [chunkTextWithMode] is the chunker of the core, applied to the chunk
    mode. *)
Definition deliver (chunkTextWithMode : text -> Z -> list text)
    (target : text) (textLimit : Z) (replyToId : option text)
    (payload : DeliverPayload) : list SendCall :=
  let text_ := nullish (deliver_text payload) [] in
  let mediaList := nullish (deliver_mediaUrls payload) [] in
  if (negb (is_truthy (Some (trim text_)))
      && Nat.eqb (length mediaList) 0)%bool
  then []
  else
    let chunks :=
      if is_truthy (Some text_) then chunkTextWithMode text_ textLimit
      else [] in
    map (fun chunk =>
           {| call_to := target; call_message := chunk;
              call_replyToId := replyToId |})
      (List.filter (fun chunk => is_truthy (Some (trim chunk))) chunks)
    ++ map (fun mediaUrl_ =>
              {| call_to := target; call_message := MEDIA_MARK ++ mediaUrl_;
                 call_replyToId := replyToId |})
         mediaList.

End ReplyDispatcher.

(** ** Notions used to state the further properties *)

Module MoreNotions.

Import Js Types Context Core Prepare MessageHandler.

(** The identifier holds no colon. *)
Definition colon_free (s : text) : Prop := ~ In ":"%char s.

(** The three things [buildKey] reads from an entry besides the account:
    the sender's open id, the chat id as the template literal prints it,
    and the root id when the message has one. *)
Definition key_sender (e : DebounceEntry) : option text :=
  match event_sender (entry_event e) with
  | Some s => truthy (senderOpenId s)
  | None => None
  end.

Definition key_chat (e : DebounceEntry) : text :=
  match entry_message e with
  | Some m => nullish (chat_id m) (lit "undefined")
  | None => lit "undefined"
  end.

Definition key_root (e : DebounceEntry) : option text :=
  match entry_message e with
  | Some m => truthy (root_id m)
  | None => None
  end.

(** The entry [handler] enqueues for a delivery. *)
Definition delivered_entry (d : Delivery) : DebounceEntry :=
  {| entry_event := delivered_event d; entry_opts := delivered_opts d |}.

(** The message of the entry mentions the bot by its open id. *)
Definition mentions_bot (ctx : FeishuMonitorContext) (e : DebounceEntry)
    : bool :=
  match entry_message e with
  | Some m => isExplicitlyMentioned (explicitMention ctx m)
  | None => false
  end.

(** The entry is one that [handleMessageReceive] handed to the debouncer. *)
Definition received (ctx : FeishuMonitorContext) (e : DebounceEntry) : Prop :=
  exists w,
    enqueued (Events.handleMessageReceive ctx (handler ctx) (entry_event e) w)
    = enqueued w ++ [e].

(** The tag is a text or link tag none of whose texts is empty. *)
Definition tag_filled (t : Markdown.PostTag) : Prop :=
  match t with
  | Markdown.tag_text text_ _ => text_ <> []
  | Markdown.tag_a text_ href => text_ <> [] /\ href <> []
  | _ => False
  end.

(** The characters a text or link tag carries: its text, and its
    address. *)
Definition tag_chars (t : Markdown.PostTag) : text :=
  match t with
  | Markdown.tag_text text_ _ => text_
  | Markdown.tag_a text_ href => text_ ++ href
  | _ => []
  end.

(** The characters inline markup is written with: the backtick, the
    square brackets, the parentheses, the star and the underscore. *)
Definition is_markup (c : ascii) : bool :=
  (Ascii.eqb c "`" || Ascii.eqb c "[" || Ascii.eqb c "]"
   || Ascii.eqb c "(" || Ascii.eqb c ")" || Ascii.eqb c "*"
   || Ascii.eqb c "_")%bool.

(** The characters of [s] that are not markup, in order. *)
Definition markup_free (s : text) : text :=
  List.filter (fun c => negb (is_markup c)) s.

(** The tag is a text tag without style. *)
Definition plain_tag (t : Markdown.PostTag) : Prop :=
  exists text_, t = Markdown.tag_text text_ None.

(** No inline pattern of [parseLineToTags] matches at the start of
    [s]. *)
Definition unmatched (s : text) : Prop :=
  Markdown.match_inline_code s = None /\ Markdown.match_link s = None /\
  Markdown.match_bold_star s = None /\
  Markdown.match_bold_underscore s = None /\
  Markdown.match_italic_star s = None /\
  Markdown.match_italic_underscore s = None.

(** The room a list of lines takes in its text: every line with its
    newline. *)
Definition lines_size (lines : list text) : nat :=
  list_sum (map (fun l : text => S (length l)) lines).

(** The paragraphs are none of them empty, and the first one is not the
    filler of a blank line. *)
Definition well_formed (content : list (list Markdown.PostTag)) : Prop :=
  Forall (fun paragraph => paragraph <> []) content /\
  hd_error content <> Some [Markdown.tag_text [] None].

(** The request carries the chunk: when the chunk needs rich text, as
    the post [markdownToFeishuPostContent] makes of it (within [fuel]
    iterations); as the text itself, through [textToFeishuContent],
    otherwise. *)
Definition call_carries (fuel : nat) (chunk : text) (call : Send.ApiCall)
    : Prop :=
  let '(msgType, content) :=
    match call with
    | Send.replyFeishuMessage _ msgType content => (msgType, content)
    | Send.sendFeishuMessage _ _ msgType content => (msgType, content)
    end in
  if Markdown.needsRichText chunk
  then msgType = Send.msg_post /\
       Send.markdownToFeishuPostContent fuel chunk = Some content
  else msgType = Send.msg_text /\
       content = Send.textToFeishuContent chunk.

(** The request is a reply to the message [messageId]. *)
Definition is_reply_to (messageId : text) (call : Send.ApiCall) : Prop :=
  exists msgType content,
    call = Send.replyFeishuMessage messageId msgType content.

(** The request is a new message to [receiveId]. *)
Definition is_send_to (receiveIdType : Targets.FeishuIdType)
    (receiveId : text) (call : Send.ApiCall) : Prop :=
  exists msgType content,
    call = Send.sendFeishuMessage receiveIdType receiveId msgType content.

(** The call asks the plan for a reply target. *)
Definition asks (c : Replies.PlanCall) : bool :=
  match c with
  | Replies.call_nextReplyToId => true
  | Replies.call_markSent => false
  end.

(** How many calls of a run ask for a reply target. *)
Definition asked (calls : list Replies.PlanCall) : nat :=
  length (List.filter asks calls).

End MoreNotions.

(** ** Further sample events *)

Module MoreFixtures.

Import Js Types Context Core Prepare MessageHandler Fixtures.

(** A rich-text message in the sample group. *)
Definition post_message : FeishuMessageEvent :=
  message_event (lit "ou_user")
    {| message_id := Some (lit "om_p1");
       root_id := None;
       parent_id := None;
       create_time := Some (lit "1234567892");
       chat_id := Some (lit "oc_1");
       chat_type := Some (lit "group");
       message_type := lit "post";
       content :=
         ContentJson
           {| json_text := None;
              json_zh_cn :=
                Some {| title := Some (lit "Plan");
                        post_content :=
                          Some [[{| tag := lit "text";
                                    tag_text := Some (lit "ship it");
                                    tag_user_name := None;
                                    tag_user_id := None |}]] |};
              json_en_us := None |};
       mentions := None |}.

Definition post_entry : DebounceEntry :=
  {| entry_event := post_message; entry_opts := no_opts |}.

(** The words of [post_message], sent as a plain text message. *)
Definition plain_twin : DebounceEntry :=
  {| entry_event :=
       message_event (lit "ou_user")
         (text_message (lit "oc_1") (lit "om_p1")
            (lit "Plan" ++ [LF] ++ lit "ship it"));
     entry_opts := no_opts |}.

(** The sample group, answering without being mentioned. *)
Definition relaxed_group_params : FeishuMonitorParams :=
  with_groups
    {[ lit "oc_1" :=
         {| enabled := None; allow := None; requireMention := Some false;
            users := None; skills := None; systemPrompt := None |} ]}
    default_params.

(** A group configuration that names one group and switches the wildcard
    entry off. *)
Definition closed_groups : gmap text GroupConfig :=
  {[ lit "oc_1" := plain_group;
     lit "*" :=
       {| enabled := Some false; allow := None; requireMention := None;
          users := None; skills := None; systemPrompt := None |} ]}.

(** An account with both credentials and no chunk limit of its own, and
    one whose chunk limit is zero. *)
Definition sender_account : Send.SenderAccount :=
  {| Send.sender_accountId := lit "default";
     Send.sender_appId := lit "cli_app";
     Send.sender_appSecret := lit "secret";
     Send.sender_textChunkLimit := None |}.

Definition zero_limit_account : Send.SenderAccount :=
  {| Send.sender_accountId := lit "default";
     Send.sender_appId := lit "cli_app";
     Send.sender_appSecret := lit "secret";
     Send.sender_textChunkLimit := Some 0%Z |}.

Definition send_opts (account : Send.SenderAccount)
    (replyToId : option text) : Send.FeishuSendOpts :=
  {| Send.opts_account := Some account;
     Send.opts_replyToId := replyToId;
     Send.opts_cfg := None |}.

End MoreFixtures.

(* ===================================================================== *)
(** * Properties                                                          *)
(* ===================================================================== *)

(** ** String primitives *)

Module JsFacts.

Import Js.
Local Open Scope Z_scope.

Lemma len_nonneg (s : text) : 0 <= len s.
Proof. unfold len. lia. Qed.

Lemma len_nil_iff (s : text) : len s <= 0 <-> s = [].
Proof.
  unfold len. destruct s; simpl; split; intros H; try reflexivity; try lia.
  discriminate.
Qed.

Lemma trimStart_length (s : text) : (length (trimStart s) <= length s)%nat.
Proof.
  induction s as [|c s IH]; simpl; [lia|].
  destruct (is_white_space c); simpl; lia.
Qed.

Lemma trim_length (s : text) : (length (trim s) <= length s)%nat.
Proof.
  unfold trim, trimEnd. rewrite length_rev.
  etransitivity; [apply trimStart_length|].
  rewrite length_rev. apply trimStart_length.
Qed.

Lemma trim_len (s : text) : len (trim s) <= len s.
Proof. unfold len. pose proof (trim_length s). lia. Qed.

Lemma trimStart_non_white_space (s : text) :
  non_white_space (trimStart s) = non_white_space s.
Proof.
  induction s as [|c s IH]; simpl; [reflexivity|].
  destruct (is_white_space c) eqn:E; simpl; rewrite ?E; simpl; auto.
Qed.

Lemma non_white_space_rev (s : text) :
  non_white_space (rev s) = rev (non_white_space s).
Proof. unfold non_white_space. apply List.filter_rev. Qed.

Lemma trimEnd_non_white_space (s : text) :
  non_white_space (trimEnd s) = non_white_space s.
Proof.
  unfold trimEnd.
  rewrite non_white_space_rev, trimStart_non_white_space,
    non_white_space_rev, rev_involutive.
  reflexivity.
Qed.

(** Trimming removes white space only. *)
Lemma trim_non_white_space (s : text) :
  non_white_space (trim s) = non_white_space s.
Proof.
  unfold trim.
  rewrite trimEnd_non_white_space. apply trimStart_non_white_space.
Qed.

Lemma non_white_space_app (s1 s2 : text) :
  non_white_space (s1 ++ s2) = non_white_space s1 ++ non_white_space s2.
Proof. unfold non_white_space. apply List.filter_app. Qed.

Lemma relative_index_range (n i : Z) :
  0 <= n -> 0 <= relative_index n i <= n.
Proof. unfold relative_index. destruct (i <? 0) eqn:E; lia. Qed.

Lemma relative_index_id (n i : Z) :
  0 <= i <= n -> relative_index n i = i.
Proof. unfold relative_index. destruct (i <? 0) eqn:E; lia. Qed.

(** [s.slice(0, i)] and [s.slice(i)] split [s] in two, whatever [i] is. *)
Lemma slice_split (s : text) (i : Z) :
  slice s 0 (Some i) ++ slice s i None = s.
Proof.
  unfold slice.
  pose proof (len_nonneg s) as Hn.
  pose proof (relative_index_range (len s) i Hn) as Hr.
  rewrite (relative_index_id (len s) 0) by lia.
  simpl skipn. rewrite Z.sub_0_r.
  set (k := Z.to_nat (relative_index (len s) i)).
  replace (Z.to_nat (len s - relative_index (len s) i))
    with (length (skipn k s)).
  - rewrite firstn_all. apply firstn_skipn.
  - rewrite length_skipn. unfold k, len in *. lia.
Qed.

Lemma slice_prefix (s : text) (i : Z) :
  0 <= i <= len s -> slice s 0 (Some i) = firstn (Z.to_nat i) s.
Proof.
  intros Hi. unfold slice.
  rewrite (relative_index_id (len s) 0) by lia.
  rewrite (relative_index_id (len s) i) by lia.
  simpl. f_equal. lia.
Qed.

Lemma slice_suffix (s : text) (i : Z) :
  0 <= i <= len s -> slice s i None = skipn (Z.to_nat i) s.
Proof.
  intros Hi. unfold slice.
  rewrite (relative_index_id (len s) i) by lia.
  replace (Z.to_nat (len s - i)) with (length (skipn (Z.to_nat i) s)).
  - apply firstn_all.
  - rewrite length_skipn. unfold len in *. lia.
Qed.

Lemma slice_prefix_len (s : text) (i : Z) :
  0 <= i -> len (slice s 0 (Some i)) <= i.
Proof.
  intros Hi. unfold slice.
  pose proof (len_nonneg s) as Hn.
  rewrite (relative_index_id (len s) 0) by lia.
  unfold len at 1. rewrite length_firstn. simpl skipn.
  unfold relative_index. destruct (i <? 0) eqn:E; lia.
Qed.

Lemma slice_suffix_len (s : text) (i : Z) :
  0 <= i -> len (slice s i None) = Z.max 0 (len s - i).
Proof.
  intros Hi. unfold slice.
  pose proof (len_nonneg s) as Hn.
  unfold len at 1. rewrite length_firstn, length_skipn.
  unfold relative_index. destruct (i <? 0) eqn:E; unfold len in *; lia.
Qed.

End JsFacts.

(** ** format.ts: the chunker *)

Module FormatFacts.

Import Js Format FormatSpec JsFacts.
Local Open Scope Z_scope.

Lemma starts_with_spec (pat s : text) :
  starts_with pat s = true <-> exists post, s = pat ++ post.
Proof.
  revert s. induction pat as [|p pat IH]; intros s; simpl.
  - split; [intros _; exists s; reflexivity | reflexivity].
  - destruct s as [|c s].
    + split; [discriminate | intros [post H]; discriminate].
    + rewrite andb_true_iff, IH. split.
      * intros [Hpc [post ->]]. apply Ascii.eqb_eq in Hpc. subst.
        exists post. reflexivity.
      * intros [post H]. injection H as -> ->. split.
        -- apply Ascii.eqb_refl.
        -- exists post. reflexivity.
Qed.

Lemma occurs_at_bounds (pat s : text) (i : Z) :
  occurs_at pat s i -> 0 <= i /\ i + len pat <= len s.
Proof.
  intros (pre & post & -> & <-). unfold len.
  rewrite !length_app. lia.
Qed.

Lemma occurs_at_starts_with (pat s : text) (i : Z) :
  occurs_at pat s i <->
  0 <= i <= len s /\ starts_with pat (skipn (Z.to_nat i) s) = true.
Proof.
  split.
  - intros H. pose proof (occurs_at_bounds _ _ _ H) as Hb.
    pose proof (len_nonneg pat).
    destruct H as (pre & post & -> & <-). split; [lia|].
    unfold len. rewrite Nat2Z.id.
    rewrite skipn_app, Nat.sub_diag, skipn_all. simpl.
    apply starts_with_spec. exists post. reflexivity.
  - intros [Hi H]. apply starts_with_spec in H as [post Hpost].
    exists (firstn (Z.to_nat i) s), post. split.
    + rewrite <- Hpost. symmetry. apply firstn_skipn.
    + unfold len in *. rewrite length_firstn. lia.
Qed.

Lemma last_match_from_spec (pat s : text) (n : nat) :
  (last_match_from pat s n = -1 /\
   forall j, (j <= n)%nat -> starts_with pat (skipn j s) = false)
  \/
  (exists k, last_match_from pat s n = Z.of_nat k /\ (k <= n)%nat /\
     starts_with pat (skipn k s) = true /\
     forall j, (k < j <= n)%nat -> starts_with pat (skipn j s) = false).
Proof.
  induction n as [|n IH]; simpl.
  - destruct (starts_with pat (skipn 0 s)) eqn:E.
    + right. exists O. repeat split; auto. intros j Hj. lia.
    + left. split; [reflexivity|]. intros j Hj.
      replace j with O by lia. exact E.
  - destruct (starts_with pat (skipn (S n) s)) eqn:E.
    + right. exists (S n). repeat split; auto. intros j Hj. lia.
    + destruct IH as [[Hr Hall] | (k & Hr & Hk & Hs & Hall)].
      * left. split; [exact Hr|]. intros j Hj.
        destruct (Nat.eq_dec j (S n)) as [->|Hne]; [exact E|].
        apply Hall. lia.
      * right. exists k. repeat split; auto.
        intros j Hj.
        destruct (Nat.eq_dec j (S n)) as [->|Hne]; [exact E|].
        apply Hall. lia.
Qed.

(** [lastIndexOf] with a non-negative position returns [-1] when the
    pattern does not occur at or before the position, and the index of its
    last occurrence there otherwise. *)
Lemma lastIndexOf_spec (s pat : text) (m : Z) :
  0 <= m ->
  (lastIndexOf s pat m = -1 /\
   forall j, occurs_at pat s j -> j <= m -> False)
  \/ last_at_or_before pat s m (lastIndexOf s pat m).
Proof.
  intros Hm. unfold lastIndexOf.
  pose proof (len_nonneg s) as Hs. pose proof (len_nonneg pat) as Hp.
  destruct (len s <? len pat) eqn:E.
  - left. split; [reflexivity|]. intros j Hj _.
    apply occurs_at_bounds in Hj. lia.
  - apply Z.ltb_ge in E.
    set (start := Z.min (Z.max m 0) (len s - len pat)).
    assert (Hstart : 0 <= start <= m /\ start <= len s - len pat)
      by (unfold start; lia).
    destruct (last_match_from_spec pat s (Z.to_nat start))
      as [[Hr Hall] | (k & Hr & Hk & Hsw & Hall)].
    + left. split; [exact Hr|]. intros j Hj Hjm.
      pose proof (occurs_at_bounds _ _ _ Hj) as Hb.
      apply occurs_at_starts_with in Hj as [_ Hj].
      rewrite Hall in Hj by lia. discriminate.
    + right. rewrite Hr. repeat split.
      * apply occurs_at_starts_with. rewrite Nat2Z.id. split; [lia|exact Hsw].
      * lia.
      * intros j Hj Hjm.
        pose proof (occurs_at_bounds _ _ _ Hj) as Hb.
        apply occurs_at_starts_with in Hj as [_ Hj].
        destruct (Z_le_gt_dec j (Z.of_nat k)) as [Hle|Hgt]; [exact Hle|].
        rewrite Hall in Hj by lia. discriminate.
Qed.

Lemma last_at_or_before_unique (pat s : text) (m i j : Z) :
  last_at_or_before pat s m i -> last_at_or_before pat s m j -> i = j.
Proof.
  intros (Hi & Him & Hmaxi) (Hj & Hjm & Hmaxj).
  pose proof (Hmaxi j Hj Hjm). pose proof (Hmaxj i Hi Him). lia.
Qed.

(** What the test [exceeds_half (lastIndexOf ..) m] decides. *)
Lemma candidate_accepted (s pat : text) (m : Z) :
  0 <= m ->
  exceeds_half (lastIndexOf s pat m) m = true ->
  qualifies pat s m (lastIndexOf s pat m).
Proof.
  intros Hm He. unfold exceeds_half in He. apply Z.ltb_lt in He.
  destruct (lastIndexOf_spec s pat m Hm) as [[Hr _] | Hlast].
  - rewrite Hr in He. lia.
  - split; assumption.
Qed.

Lemma candidate_rejected (s pat : text) (m : Z) :
  0 <= m ->
  exceeds_half (lastIndexOf s pat m) m = false ->
  none_qualifies pat s m.
Proof.
  intros Hm He i [Hlast Hhalf]. unfold exceeds_half in He.
  apply Z.ltb_ge in He.
  destruct (lastIndexOf_spec s pat m Hm) as [[_ Hnone] | Hlast'].
  - destruct Hlast as (Hocc & Him & _). exact (Hnone i Hocc Him).
  - rewrite (last_at_or_before_unique _ _ _ _ _ Hlast Hlast') in Hhalf. lia.
Qed.

(** The break point computed by the source is the one the rule names. *)
Lemma breakPoint_spec (s : text) (m : Z) :
  0 <= m -> break_point s m (breakPoint s m).
Proof.
  intros Hm. unfold breakPoint.
  destruct (exceeds_half (lastIndexOf s [LF; LF] m) m) eqn:E1.
  { apply break_paragraph, candidate_accepted; assumption. }
  destruct (exceeds_half (lastIndexOf s [LF] m) m) eqn:E2.
  { apply break_newline; [eapply candidate_rejected | apply candidate_accepted];
      eassumption. }
  destruct (exceeds_half (lastIndexOf s [SP] m) m) eqn:E3.
  { apply break_space;
      [eapply candidate_rejected | eapply candidate_rejected
      | apply candidate_accepted]; eassumption. }
  apply break_at_limit; eapply candidate_rejected; eassumption.
Qed.

Lemma break_point_range (s : text) (m bp : Z) :
  0 <= m -> break_point s m bp -> 0 <= bp <= m /\ (1 <= m -> 1 <= bp).
Proof.
  intros Hm H.
  assert (Hq : forall pat i, qualifies pat s m i -> 0 <= i <= m /\ m < 2 * i).
  { intros pat i [(Hocc & Him & _) Hh].
    apply occurs_at_bounds in Hocc. lia. }
  destruct H as [i H | i _ H | i _ _ H | _ _ _];
    try (apply Hq in H); lia.
Qed.

Lemma break_point_functional (s : text) (m a b : Z) :
  break_point s m a -> break_point s m b -> a = b.
Proof.
  intros Ha Hb.
  destruct Ha as [i Hi | i Hn1 Hi | i Hn1 Hn2 Hi | Hn1 Hn2 Hn3];
    destruct Hb as [j Hj | j Hm1 Hj | j Hm1 Hm2 Hj | Hm1 Hm2 Hm3];
    try reflexivity;
    try (eapply last_at_or_before_unique; [apply Hi | apply Hj]);
    exfalso;
    first [ exact (Hn1 _ Hj) | exact (Hm1 _ Hi) | exact (Hn2 _ Hj)
          | exact (Hm2 _ Hi) | exact (Hn3 _ Hj) | exact (Hm3 _ Hi) ].
Qed.

(** One iteration strictly shortens the remainder when the limit is
    positive. *)
Lemma remainder_shrinks (r : text) (m : Z) :
  1 <= m -> m < len r ->
  1 <= breakPoint r m <= m /\
  len (trim (slice r (breakPoint r m) None)) < len r.
Proof.
  intros Hm Hr.
  destruct (break_point_range r m _ ltac:(lia) (breakPoint_spec r m ltac:(lia)))
    as [Hb Hpos].
  specialize (Hpos Hm). split; [lia|].
  pose proof (trim_len (slice r (breakPoint r m) None)).
  rewrite slice_suffix_len in H by lia. lia.
Qed.

(** More fuel does not change a finished run. *)
Lemma chunk_loop_fuel_mono (fuel fuel' : nat) (r : text) (m : Z)
    (acc out : list text) :
  chunk_loop fuel r m acc = Some out -> (fuel <= fuel')%nat ->
  chunk_loop fuel' r m acc = Some out.
Proof.
  revert fuel' r acc. induction fuel as [|fuel IH]; intros fuel' r acc H Hle.
  - discriminate.
  - destruct fuel' as [|fuel']; [lia|]. simpl in *.
    destruct (len r <=? 0); [exact H|].
    destruct (len r <=? m); [exact H|].
    apply IH; [exact H | lia].
Qed.

(** With a positive limit the loop finishes within [length r + 1]
    iterations. *)
Lemma chunk_loop_terminates (m : Z) (fuel : nat) :
  1 <= m ->
  forall (r : text) (acc : list text), (length r < fuel)%nat ->
  exists cs, chunk_loop fuel r m acc = Some (acc ++ cs).
Proof.
  intros Hm. induction fuel as [|fuel IH]; intros r acc Hlen; [lia|].
  simpl.
  destruct (len r <=? 0) eqn:E0.
  { exists []. rewrite app_nil_r. reflexivity. }
  destruct (len r <=? m) eqn:E1.
  { exists [r]. reflexivity. }
  apply Z.leb_gt in E1.
  destruct (remainder_shrinks r m Hm E1) as [_ Hshrink].
  destruct (IH (trim (slice r (breakPoint r m) None))
              (acc ++ [trim (slice r 0 (Some (breakPoint r m)))]))
    as [cs Hcs].
  { unfold len in Hshrink. lia. }
  exists (trim (slice r 0 (Some (breakPoint r m))) :: cs).
  rewrite Hcs, <- app_assoc. reflexivity.
Qed.

(** Every finished run of the loop follows the rule. *)
Lemma chunk_loop_spec (m : Z) (fuel : nat) :
  0 <= m ->
  forall (r : text) (acc out : list text),
  chunk_loop fuel r m acc = Some out ->
  exists cs, out = acc ++ cs /\ chunks_of m r cs.
Proof.
  intros Hm. induction fuel as [|fuel IH]; intros r acc out H; [discriminate|].
  simpl in H.
  destruct (len r <=? 0) eqn:E0.
  { apply Z.leb_le, len_nil_iff in E0. subst r. injection H as <-.
    exists []. rewrite app_nil_r. split; [reflexivity | constructor]. }
  apply Z.leb_gt in E0.
  destruct (len r <=? m) eqn:E1.
  { apply Z.leb_le in E1. injection H as <-.
    exists [r]. split; [reflexivity|]. constructor; [|exact E1].
    intros ->. unfold len in E0. simpl in E0. lia. }
  apply Z.leb_gt in E1.
  pose proof (breakPoint_spec r m Hm) as Hbp.
  destruct (break_point_range r m _ Hm Hbp) as [Hrange _].
  apply IH in H as (cs & -> & Hcs).
  exists (trim (slice r 0 (Some (breakPoint r m))) :: cs).
  split; [rewrite <- app_assoc; reflexivity|].
  rewrite slice_prefix by lia. rewrite slice_suffix in Hcs by lia.
  econstructor; eassumption.
Qed.

(** The non-white-space characters of the chunks of a finished run are
    those of the remainder, for any limit. *)
Lemma chunk_loop_non_white_space (m : Z) (fuel : nat) :
  forall (r : text) (acc out : list text),
  chunk_loop fuel r m acc = Some out ->
  exists cs, out = acc ++ cs /\
    non_white_space (concat cs) = non_white_space r.
Proof.
  induction fuel as [|fuel IH]; intros r acc out H; [discriminate|].
  simpl in H.
  destruct (len r <=? 0) eqn:E0.
  { apply Z.leb_le, len_nil_iff in E0. subst r. injection H as <-.
    exists []. rewrite app_nil_r. split; reflexivity. }
  destruct (len r <=? m) eqn:E1.
  { injection H as <-. exists [r]. simpl. rewrite app_nil_r.
    split; reflexivity. }
  apply IH in H as (cs & -> & Hcs).
  exists (trim (slice r 0 (Some (breakPoint r m))) :: cs).
  split; [rewrite <- app_assoc; reflexivity|].
  simpl. rewrite non_white_space_app, Hcs, !trim_non_white_space.
  rewrite <- non_white_space_app, slice_split. reflexivity.
Qed.

(** Chunks produced under the rule respect the limit. *)
Lemma chunks_of_bounded (m : Z) (r : text) (cs : list text) :
  0 <= m -> chunks_of m r cs -> Forall (fun c => len c <= m) cs.
Proof.
  intros Hm H. induction H as [| r Hne Hfit | r bp cs Hlong Hbp _ IH].
  - constructor.
  - constructor; [exact Hfit | constructor].
  - constructor; [|exact IH].
    destruct (break_point_range r m bp Hm Hbp) as [Hrange _].
    pose proof (trim_len (firstn (Z.to_nat bp) r)) as Ht.
    unfold len in Ht at 2. rewrite length_firstn in Ht. lia.
Qed.

(** With limit [0] a remainder holding a non-white-space character is
    never shortened: the loop does not finish. *)
Lemma chunk_loop_zero_diverges (fuel : nat) :
  forall (r : text) (acc : list text),
  non_white_space r <> [] -> chunk_loop fuel r 0 acc = None.
Proof.
  induction fuel as [|fuel IH]; intros r acc Hr; [reflexivity|].
  simpl.
  assert (Hlen : 0 < len r).
  { destruct r; [contradiction Hr; reflexivity|]. unfold len. simpl. lia. }
  destruct (len r <=? 0) eqn:E0; [apply Z.leb_le in E0; lia|].
  destruct (break_point_range r 0 _ ltac:(lia) (breakPoint_spec r 0 ltac:(lia)))
    as [Hb _].
  assert (Hbp : breakPoint r 0 = 0) by lia.
  rewrite Hbp. apply IH.
  rewrite trim_non_white_space.
  rewrite slice_suffix by lia. exact Hr.
Qed.

Lemma trimStart_split (s : text) :
  exists w, all_white_space w /\ s = w ++ trimStart s.
Proof.
  induction s as [|c s (w & Hw & Hs)]; simpl.
  - exists []. split; [constructor | reflexivity].
  - destruct (is_white_space c) eqn:E.
    + exists (c :: w). split; [constructor; assumption|].
      simpl. f_equal. exact Hs.
    + exists []. split; [constructor | reflexivity].
Qed.

Lemma all_white_space_rev (w : text) :
  all_white_space w -> all_white_space (rev w).
Proof. unfold all_white_space. apply List.Forall_rev. Qed.

Lemma all_white_space_app (w1 w2 : text) :
  all_white_space w1 -> all_white_space w2 -> all_white_space (w1 ++ w2).
Proof. unfold all_white_space. intros H1 H2. apply Forall_app. auto. Qed.

Lemma trimEnd_split (s : text) :
  exists w, all_white_space w /\ s = trimEnd s ++ w.
Proof.
  unfold trimEnd. destruct (trimStart_split (rev s)) as (w & Hw & Hs).
  exists (rev w). split; [apply all_white_space_rev, Hw|].
  rewrite <- rev_app_distr, <- Hs, rev_involutive. reflexivity.
Qed.

(** Trimming takes white space off both ends and nothing else. *)
Lemma trim_split (s : text) :
  exists w1 w2,
    all_white_space w1 /\ all_white_space w2 /\ s = w1 ++ trim s ++ w2.
Proof.
  unfold trim. destruct (trimStart_split s) as (w1 & Hw1 & Hs1).
  destruct (trimEnd_split (trimStart s)) as (w2 & Hw2 & Hs2).
  exists w1, w2. repeat split; auto.
  rewrite <- Hs2. exact Hs1.
Qed.

Lemma rebuilds_front (w : text) (cs : list text) (r : text) :
  all_white_space w -> rebuilds cs r -> rebuilds cs (w ++ r).
Proof.
  intros Hw H. destruct H as [w' Hw' | w' c cs rest Hw' Hrest].
  - constructor. apply all_white_space_app; assumption.
  - rewrite app_assoc. constructor; [|exact Hrest].
    apply all_white_space_app; assumption.
Qed.

Lemma rebuilds_back (w : text) (cs : list text) (r : text) :
  rebuilds cs r -> all_white_space w -> rebuilds cs (r ++ w).
Proof.
  intros H Hw. induction H as [w' Hw' | w' c cs rest Hw' Hrest IH].
  - constructor. apply all_white_space_app; assumption.
  - rewrite <- !app_assoc. constructor; assumption.
Qed.

Lemma rebuilds_eq (cs : list text) (r r' : text) :
  r = r' -> rebuilds cs r' -> rebuilds cs r.
Proof. intros ->. auto. Qed.

(** The chunks of a finished run rebuild the remainder, for any limit. *)
Lemma chunk_loop_rebuilds (m : Z) (fuel : nat) :
  forall (r : text) (acc out : list text),
  chunk_loop fuel r m acc = Some out ->
  exists cs, out = acc ++ cs /\ rebuilds cs r.
Proof.
  induction fuel as [|fuel IH]; intros r acc out H; [discriminate|].
  simpl in H.
  destruct (len r <=? 0) eqn:E0.
  { apply Z.leb_le, len_nil_iff in E0. subst r. injection H as <-.
    exists []. rewrite app_nil_r. split; [reflexivity|].
    constructor. constructor. }
  destruct (len r <=? m) eqn:E1.
  { injection H as <-. exists [r]. split; [reflexivity|].
    rewrite <- (app_nil_r r) at 2.
    apply (rebuilds_cons [] r [] []); constructor. constructor. }
  apply IH in H as (cs & -> & Hcs).
  exists (trim (slice r 0 (Some (breakPoint r m))) :: cs).
  split; [rewrite <- app_assoc; reflexivity|].
  destruct (trim_split (slice r 0 (Some (breakPoint r m))))
    as (a & b & Ha & Hb & Hprefix).
  destruct (trim_split (slice r (breakPoint r m) None))
    as (a' & b' & Ha' & Hb' & Hsuffix).
  set (P := slice r 0 (Some (breakPoint r m))) in *.
  set (S' := slice r (breakPoint r m) None) in *.
  assert (Hr : r = a ++ trim P ++ (b ++ a' ++ trim S' ++ b')).
  { transitivity (P ++ S'); [symmetry; apply slice_split|].
    transitivity ((a ++ trim P ++ b) ++ (a' ++ trim S' ++ b'));
      [f_equal; assumption|].
    rewrite <- !app_assoc. reflexivity. }
  apply (rebuilds_eq _ _ _ Hr).
  constructor; [exact Ha|].
  apply rebuilds_front; [exact Hb|].
  apply rebuilds_front; [exact Ha'|].
  apply rebuilds_back; assumption.
Qed.

(** C2.  [chunkFeishuText t m] returns [[t]] when [len t <= m].  Otherwise,
    for a limit [0 <= m], whatever it returns is built by the rule of the
    specification: each break point is the last paragraph break at or
    before [m], else the last newline, else the last space, each accepted
    only beyond [m * 0.5], else [m] itself; each chunk is the trimmed
    prefix up to the break point and the loop goes on with the trimmed
    suffix.  For [1 <= m] it does return. *)
Theorem chunkFeishuText_follows_rule (t : text) (m : Z) :
  (len t <= m -> forall fuel, chunkFeishuText fuel t m = Some [t]) /\
  (0 <= m ->
   (forall r, break_point r m (breakPoint r m)) /\
   (forall fuel cs, chunkFeishuText fuel t m = Some cs -> chunk t m cs)) /\
  (1 <= m ->
   exists cs, chunkFeishuText (S (length t)) t m = Some cs /\ chunk t m cs).
Proof.
  assert (Hrule : 0 <= m -> forall fuel cs,
            chunkFeishuText fuel t m = Some cs -> chunk t m cs).
  { intros Hm fuel cs H. unfold chunkFeishuText, chunk in *.
    destruct (len t <=? m); [congruence|].
    apply chunk_loop_spec in H as (cs' & -> & Hcs); assumption. }
  split; [|split].
  - intros Hfit fuel. unfold chunkFeishuText.
    apply Z.leb_le in Hfit. rewrite Hfit. reflexivity.
  - intros Hm. split; [|exact (Hrule Hm)].
    intros r. apply breakPoint_spec, Hm.
  - intros Hm.
    assert (Hret : exists cs, chunkFeishuText (S (length t)) t m = Some cs).
    { unfold chunkFeishuText. destruct (len t <=? m); [eauto|].
      destruct (chunk_loop_terminates m (S (length t)) Hm t [] ltac:(lia))
        as [cs Hcs]. eauto. }
    destruct Hret as [cs Hcs]. exists cs. split; [exact Hcs|].
    apply (Hrule ltac:(lia) _ _ Hcs).
Qed.

Lemma chunkFeishuText_follows_rule_witness :
  chunk (lit "Word1 Word2 Word3 Word4") 12
    [lit "Word1 Word2"; lit "Word3 Word4"].
Proof.
  apply (proj2 (proj1 (proj2 (chunkFeishuText_follows_rule
                 (lit "Word1 Word2 Word3 Word4") 12)) ltac:(lia)) 24%nat).
  vm_compute. reflexivity.
Defined.

(** C3.  Whatever [chunkFeishuText t m] returns, the non-white-space
    characters of the concatenated chunks are exactly those of [t], in the
    same order, and [t] is the chunks in order with nothing but white
    space around them: nothing but white space at chunk boundaries is
    dropped and nothing is duplicated.  For [1 <= m] it does return. *)
Theorem chunkFeishuText_lossless (t : text) (m : Z) :
  (forall fuel cs, chunkFeishuText fuel t m = Some cs ->
     non_white_space (concat cs) = non_white_space t /\ rebuilds cs t) /\
  (1 <= m ->
   exists cs, chunkFeishuText (S (length t)) t m = Some cs /\
     non_white_space (concat cs) = non_white_space t /\ rebuilds cs t).
Proof.
  assert (Hpart : forall fuel cs, chunkFeishuText fuel t m = Some cs ->
            non_white_space (concat cs) = non_white_space t /\
            rebuilds cs t).
  { intros fuel cs H. unfold chunkFeishuText in H.
    destruct (len t <=? m).
    - injection H as <-. simpl. rewrite app_nil_r. split; [reflexivity|].
      rewrite <- (app_nil_r t) at 2.
      apply (rebuilds_cons [] t [] []); constructor. constructor.
    - split.
      + apply chunk_loop_non_white_space in H as (cs' & -> & Hcs).
        exact Hcs.
      + apply chunk_loop_rebuilds in H as (cs' & -> & Hcs). exact Hcs. }
  split; [exact Hpart|].
  intros Hm.
  assert (Hret : exists cs, chunkFeishuText (S (length t)) t m = Some cs).
  { unfold chunkFeishuText. destruct (len t <=? m); [eauto|].
    destruct (chunk_loop_terminates m (S (length t)) Hm t [] ltac:(lia))
      as [cs Hcs]. eauto. }
  destruct Hret as [cs Hcs]. exists cs. split; [exact Hcs|].
  exact (Hpart _ _ Hcs).
Qed.

Lemma chunkFeishuText_lossless_witness :
  exists cs,
    chunkFeishuText 20 (lit "Line 1" ++ [LF] ++ lit "Line 2   Line 3") 10
      = Some cs /\
    non_white_space (concat cs) = lit "Line1Line2Line3".
Proof.
  destruct (proj2 (chunkFeishuText_lossless
              (lit "Line 1" ++ [LF] ++ lit "Line 2   Line 3") 10)
              ltac:(lia)) as [cs [Hcs [Hnw _]]].
  exists cs. split; [exact Hcs|]. rewrite Hnw. vm_compute. reflexivity.
Defined.

(** C10.  For every limit [m >= 1] the chunker terminates: the break point
    of each iteration is strictly positive, so the remainder gets strictly
    shorter, [length t + 1] iterations are enough, and more iterations
    return the same list; every chunk returned has length at most [m].
    Positivity is needed: with [m = 0] and a text that holds a
    non-white-space character the loop never finishes. *)
Theorem chunkFeishuText_terminates (t : text) (m : Z) :
  (1 <= m ->
   (forall r, m < len r ->
      1 <= breakPoint r m /\
      len (trim (slice r (breakPoint r m) None)) < len r) /\
   exists cs,
     (forall fuel, (length t < fuel)%nat ->
        chunkFeishuText fuel t m = Some cs) /\
     Forall (fun c => len c <= m) cs) /\
  (non_white_space t <> [] ->
   forall fuel, chunkFeishuText fuel t 0 = None).
Proof.
  split.
  - intros Hm. split.
    { intros r Hr. destruct (remainder_shrinks r m Hm Hr) as [Hb Hs].
      split; [lia | exact Hs]. }
    unfold chunkFeishuText.
    destruct (len t <=? m) eqn:E.
    + exists [t]. split; [reflexivity|].
      constructor; [apply Z.leb_le, E | constructor].
    + destruct (chunk_loop_terminates m (S (length t)) Hm t [] ltac:(lia))
        as [cs Hcs].
      simpl app in Hcs. exists cs. split.
      * intros fuel Hfuel.
        apply (chunk_loop_fuel_mono (S (length t))); [exact Hcs | lia].
      * apply chunk_loop_spec in Hcs as (cs' & Heq & Hrule); [|lia].
        simpl in Heq. subst cs'.
        apply (chunks_of_bounded m t); [lia | exact Hrule].
  - intros Hnw fuel. unfold chunkFeishuText.
    assert (Hlen : 0 < len t).
    { destruct t; [contradiction Hnw; reflexivity|]. unfold len. simpl. lia. }
    destruct (len t <=? 0) eqn:E; [apply Z.leb_le in E; lia|].
    apply chunk_loop_zero_diverges, Hnw.
Qed.

Lemma chunkFeishuText_terminates_witness :
  (exists cs,
     (forall fuel, (length (lit "First paragraph." ++ [LF; LF]
                            ++ lit "Second paragraph.") < fuel)%nat ->
        chunkFeishuText fuel
          (lit "First paragraph." ++ [LF; LF] ++ lit "Second paragraph.") 25
          = Some cs) /\
     Forall (fun c => len c <= 25) cs) /\
  (forall fuel, chunkFeishuText fuel (lit "a") 0 = None).
Proof.
  split.
  - apply (proj1 (chunkFeishuText_terminates
                    (lit "First paragraph." ++ [LF; LF]
                     ++ lit "Second paragraph.") 25)).
    lia.
  - apply (proj2 (chunkFeishuText_terminates (lit "a") 0)).
    vm_compute. discriminate.
Defined.

End FormatFacts.

(** ** threading.ts *)

Module ThreadingFacts.

Import Js Types Threading Notions Fixtures.

Lemma trimmed_or_undefined_present (x : option text) (v : text) :
  trimmed_or_undefined x = Some v <-> present x v.
Proof.
  unfold trimmed_or_undefined, present. destruct x as [s|]; simpl.
  - destruct (trim s) as [|c t] eqn:E; simpl; split.
    + discriminate.
    + intros (s' & Hs & Ht & Hv). injection Hs as <-.
      rewrite E in Ht. subst v. contradiction.
    + intros H. injection H as <-. exists s. repeat split; auto; discriminate.
    + intros (s' & Hs & Ht & Hv). injection Hs as <-.
      rewrite E in Ht. subst v. reflexivity.
  - split; [discriminate | intros (s' & Hs & _); discriminate].
Qed.

Lemma trimmed_or_undefined_absent (x : option text) :
  trimmed_or_undefined x = None <-> absent x.
Proof.
  unfold trimmed_or_undefined, absent. destruct x as [s|]; simpl.
  - destruct (trim s) as [|c t] eqn:E; simpl; split.
    + intros _. right. exists s. auto.
    + reflexivity.
    + discriminate.
    + intros [H | (s' & Hs & Ht)]; [discriminate|].
      injection Hs as <-. rewrite E in Ht. discriminate.
  - split; auto.
Qed.

(** C4.  [isThreadReply] holds exactly when a non-blank [root_id] is
    present.  Without one, [replyToId] is undefined and the thread id is
    the message's own (trimmed) id.  With one, the thread id is the root
    id, and [replyToId] is the parent id when a non-blank [parent_id] is
    present and the root id otherwise. *)
Theorem resolveFeishuThreadContext_spec (message : FeishuMessage) :
  let tc := resolveFeishuThreadContext message in
  (isThreadReply tc = true <-> exists r, present (root_id message) r) /\
  (absent (root_id message) ->
     isThreadReply tc = false /\ replyToId tc = None /\
     (forall i, present (message_id message) i ->
        messageThreadId tc = Some i) /\
     (absent (message_id message) -> messageThreadId tc = None)) /\
  (forall r, present (root_id message) r ->
     messageThreadId tc = Some r /\
     (forall p, present (parent_id message) p -> replyToId tc = Some p) /\
     (absent (parent_id message) -> replyToId tc = Some r)).
Proof.
  unfold resolveFeishuThreadContext.
  destruct (trimmed_or_undefined (root_id message)) as [r|] eqn:Er.
  - pose proof (proj1 (trimmed_or_undefined_present _ _) Er) as Hr.
    simpl. split; [|split].
    + split; [eauto | reflexivity].
    + intros Ha. apply trimmed_or_undefined_absent in Ha. congruence.
    + intros r' Hr'. apply trimmed_or_undefined_present in Hr'.
      assert (r' = r) by congruence. subst r'.
      split; [reflexivity|]. split.
      * intros p Hp. apply trimmed_or_undefined_present in Hp.
        rewrite Hp. reflexivity.
      * intros Ha. apply trimmed_or_undefined_absent in Ha.
        rewrite Ha. reflexivity.
  - simpl. split; [|split].
    + split; [discriminate|]. intros [r Hr].
      apply trimmed_or_undefined_present in Hr. congruence.
    + intros _. split; [reflexivity|]. split; [reflexivity|]. split.
      * intros i Hi. apply trimmed_or_undefined_present, Hi.
      * intros Ha. apply trimmed_or_undefined_absent, Ha.
    + intros r Hr. apply trimmed_or_undefined_present in Hr. congruence.
Qed.

Lemma resolveFeishuThreadContext_spec_witness :
  messageThreadId (resolveFeishuThreadContext reply_message) = Some (lit "r")
  /\ replyToId (resolveFeishuThreadContext reply_message) = Some (lit "p").
Proof.
  destruct (resolveFeishuThreadContext_spec reply_message)
    as (_ & _ & Hroot).
  destruct (Hroot (lit "r")) as (Hthread & Hparent & _).
  { exists (lit "r"). repeat split; try (vm_compute; reflexivity).
    intros H; vm_compute in H; discriminate. }
  split; [exact Hthread|].
  apply Hparent. exists (lit "p").
  repeat split; try (vm_compute; reflexivity).
  intros H; vm_compute in H; discriminate.
Defined.

End ThreadingFacts.

(** ** monitor/context.ts: the chat gate *)

Module ContextFacts.

Import Js Types Context Notions Fixtures.

Lemma get_property_own (m : gmap text GroupConfig) (key : text) :
  inherited key = false -> get_property m key = m !! key.
Proof.
  intros H. unfold get_property. rewrite H.
  destruct (m !! key); reflexivity.
Qed.

Lemma get_property_inherited (m : gmap text GroupConfig) (key : text) :
  inherited key = true -> m !! key = None ->
  get_property m key = Some inherited_member.
Proof.
  intros H Hown. unfold get_property. rewrite Hown, H. reflexivity.
Qed.

Lemma group_entry_deciding (m : gmap text GroupConfig) (chatId : text)
    (c : GroupConfig) :
  inherited chatId = false ->
  group_entry (Some m) chatId = Some c <-> deciding_entry m chatId c.
Proof.
  intros Hown. unfold group_entry, deciding_entry.
  rewrite (get_property_own m chatId Hown).
  rewrite (get_property_own m (lit "*") eq_refl).
  destruct (m !! chatId) as [c'|]; split.
  - intros H. left. exact H.
  - intros [H | [H _]]; [exact H | discriminate].
  - intros H. right. split; [reflexivity | exact H].
  - intros [H | [_ H]]; [discriminate | exact H].
Qed.

Lemma isChatAllowed_group_eq (params : FeishuMonitorParams) (p : ChatRef)
    (chatId : text) :
  normalizeFeishuChatType (option_map chat_type_name (ref_chatType p))
    (ref_chatId p) = group ->
  truthy (ref_chatId p) = Some chatId ->
  isChatAllowed (createFeishuMonitorContext params) p =
  match p_groupPolicy params with
  | policy_disabled => false
  | policy_open => true
  | policy_allowlist =>
      match p_groupsConfig params with
      | None => true
      | Some m =>
          if Nat.eqb (size m) 0 then true
          else
            match group_entry (Some m) chatId with
            | None => false
            | Some c =>
                negb (bool_decide (enabled c = Some false)
                      || bool_decide (allow c = Some false))
            end
      end
  end.
Proof.
  intros Hgroup Hid. simpl. rewrite Hgroup, Hid. simpl.
  destruct (p_groupPolicy params); try reflexivity.
  destruct (p_groupsConfig params) as [m|]; [|reflexivity].
  destruct (Nat.eqb (size m) 0); [reflexivity|]. simpl.
  destruct (group_entry (Some m) chatId) as [c|]; [|reflexivity].
  destruct (bool_decide (enabled c = Some false) ||
            bool_decide (allow c = Some false)); reflexivity.
Qed.

(** C6, as the code has it.  For a group conversation with a chat id:
    under "disabled" it is dropped; under "open" it is allowed; under
    "allowlist" with at least one configured group, and a chat id that is
    not a name every object inherits, it is allowed exactly when the entry
    for the chat id, or else the wildcard entry, exists and is not
    explicitly disabled; under "allowlist" with no group configured at all
    it is allowed. *)
Theorem isChatAllowed_group (params : FeishuMonitorParams) (p : ChatRef)
    (chatId : text) :
  normalizeFeishuChatType (option_map chat_type_name (ref_chatType p))
    (ref_chatId p) = group ->
  truthy (ref_chatId p) = Some chatId ->
  let ok := isChatAllowed (createFeishuMonitorContext params) p in
  (p_groupPolicy params = policy_disabled -> ok = false) /\
  (p_groupPolicy params = policy_open -> ok = true) /\
  (p_groupPolicy params = policy_allowlist ->
   forall m, p_groupsConfig params = Some m -> m <> ∅ ->
   inherited chatId = false ->
   (ok = true <-> exists c, deciding_entry m chatId c /\ not_disabled c)) /\
  (p_groupPolicy params = policy_allowlist ->
   p_groupsConfig params = None \/ p_groupsConfig params = Some ∅ ->
   ok = true).
Proof.
  intros Hgroup Hid ok. unfold ok.
  rewrite (isChatAllowed_group_eq params p chatId Hgroup Hid).
  split; [|split; [|split]].
  - intros ->. reflexivity.
  - intros ->. reflexivity.
  - intros Hpol m Hm Hne Hown. rewrite Hpol, Hm.
    assert (Hsize : Nat.eqb (size m) 0 = false).
    { apply Nat.eqb_neq. intros Hz. apply Hne, map_size_empty_iff, Hz. }
    rewrite Hsize. split.
    + destruct (group_entry (Some m) chatId) as [c|] eqn:E; [|discriminate].
      intros Hok. exists c.
      split; [apply (group_entry_deciding m chatId c Hown), E|].
      apply negb_true_iff, orb_false_iff in Hok as [He Ha].
      apply bool_decide_eq_false in He, Ha. split; assumption.
    + intros (c & Hc & He & Ha).
      apply (group_entry_deciding m chatId c Hown) in Hc.
      rewrite Hc. apply negb_true_iff, orb_false_iff.
      split; apply bool_decide_eq_false; assumption.
  - intros Hpol [Hm | Hm]; rewrite Hpol, Hm; reflexivity.
Qed.

Lemma isChatAllowed_group_witness :
  isChatAllowed
    (createFeishuMonitorContext
       (with_groups {[ lit "oc_1" := plain_group ]} default_params))
    (group_chat (lit "oc_1")) = true.
Proof.
  destruct (isChatAllowed_group
              (with_groups {[ lit "oc_1" := plain_group ]} default_params)
              (group_chat (lit "oc_1")) (lit "oc_1") eq_refl eq_refl)
    as (_ & _ & Hallowlist & _).
  apply (Hallowlist eq_refl {[ lit "oc_1" := plain_group ]} eq_refl).
  - apply map_non_empty_singleton.
  - reflexivity.
  - exists plain_group. split.
    + left. apply lookup_singleton_eq.
    + split; discriminate.
Defined.

(** C6 as stated fails when no group is configured at all: under
    "allowlist" (the default policy, with the default empty configuration)
    every group is allowed although neither an entry for the chat id nor a
    wildcard entry exists. *)
Lemma isChatAllowed_allowlist_without_groups :
  p_groupPolicy default_params = policy_allowlist /\
  isChatAllowed (createFeishuMonitorContext default_params)
    (group_chat (lit "oc_1")) = true /\
  ~ (exists m c,
       p_groupsConfig default_params = Some m /\
       deciding_entry m (lit "oc_1") c /\ not_disabled c).
Proof.
  split; [reflexivity|]. split; [reflexivity|].
  intros (m & c & Hm & _). discriminate.
Qed.

End ContextFacts.

(** ** The deduplication cache and the message handler *)

Module DedupeFacts.

Import Js Types Dedupe Context Prepare MessageHandler Notions Fixtures.
Local Open Scope Z_scope.

Lemma text_eqb_eq (a b : text) : text_eqb a b = true <-> a = b.
Proof. unfold text_eqb. apply bool_decide_eq_true. Qed.

Lemma text_eqb_neq (a b : text) : text_eqb a b = false <-> a <> b.
Proof. unfold text_eqb. apply bool_decide_eq_false. Qed.

Lemma text_eqb_refl (a : text) : text_eqb a a = true.
Proof. apply text_eqb_eq. reflexivity. Qed.

Lemma key_free_filter (k : text) (f : text * Z -> bool)
    (es : list (text * Z)) :
  key_free k es -> key_free k (List.filter f es).
Proof.
  unfold key_free. induction 1 as [|e es He _ IH]; simpl.
  - constructor.
  - destruct (f e); [constructor|]; assumption.
Qed.

Lemma without_key_free (k : text) (es : list (text * Z)) :
  key_free k (without k es).
Proof.
  unfold key_free, without. induction es as [|e es IH]; simpl.
  - constructor.
  - destruct (text_eqb (fst e) k) eqn:E; simpl; [exact IH|].
    constructor; [apply text_eqb_neq, E | exact IH].
Qed.

Lemma filter_length_le {A : Type} (f : A -> bool) (l : list A) :
  (length (List.filter f l) <= length l)%nat.
Proof.
  induction l as [|x l IH]; simpl; [lia|]. destruct (f x); simpl; lia.
Qed.

Lemma expiry_of_found (k : text) (pre post : list (text * Z)) (exp : Z) :
  key_free k pre -> expiry_of k (pre ++ (k, exp) :: post) = Some exp.
Proof.
  unfold expiry_of, key_free. induction 1 as [|e pre He _ IH]; simpl.
  - rewrite text_eqb_refl. reflexivity.
  - apply text_eqb_neq in He. rewrite He. exact IH.
Qed.

(** Eviction keeps an unexpired entry that has fewer than [size] entries
    from itself to the end of the list. *)
Lemma evict_keeps (now : Z) (size : nat) (k : text) (exp : Z)
    (pre post : list (text * Z)) :
  now < exp -> (S (length post) <= size)%nat -> key_free k pre ->
  exists pre' post',
    evict now size (pre ++ (k, exp) :: post) = pre' ++ (k, exp) :: post' /\
    key_free k pre' /\ (length post' <= length post)%nat.
Proof.
  intros Hlive Hroom Hfree. unfold evict.
  destruct (size <? length (pre ++ (k, exp) :: post))%nat.
  - rewrite List.filter_app. simpl.
    apply Z.ltb_lt in Hlive. rewrite Hlive.
    set (keep := fun e : text * Z => now <? snd e).
    set (A := List.filter keep pre). set (B := List.filter keep post).
    assert (HB : (length B <= length post)%nat) by apply filter_length_le.
    exists (skipn (length (A ++ (k, exp) :: B) - size) A), B.
    split; [|split].
    + rewrite skipn_app.
      replace (length (A ++ (k, exp) :: B) - size - length A)%nat with O.
      * reflexivity.
      * rewrite length_app. simpl. lia.
    + apply Forall_drop, key_free_filter, Hfree.
    + exact HB.
  - exists pre, post. auto.
Qed.

(** A first check records the key at the young end of the cache. *)
Lemma check_records (k : text) (now : Z) (c : DedupeCache) :
  0 < ttlMs c -> (1 <= maxSize c)%nat ->
  remembered k (now + ttlMs c) 0 (snd (check k now c)).
Proof.
  intros Httl Hsize. unfold check, remembered. simpl.
  destruct (evict_keeps now (maxSize c) k (now + ttlMs c)
              (without k (entries c)) [])
    as (pre' & post' & Heq & Hfree & Hlen).
  - lia.
  - simpl. lia.
  - apply without_key_free.
  - exists pre', (now + ttlMs c), post'. repeat split; auto. lia.
Qed.

Lemma remembered_weaken (k : text) (T T' : Z) (n n' : nat)
    (c : DedupeCache) :
  remembered k T n c -> T' <= T -> (n <= n')%nat -> remembered k T' n' c.
Proof.
  intros (pre & exp & post & Heq & Hfree & Hexp & Hlen) HT Hn.
  exists pre, exp, post. repeat split; auto; lia.
Qed.

Lemma without_other (k k' : text) (exp : Z) (pre post : list (text * Z)) :
  k <> k' ->
  without k' (pre ++ (k, exp) :: post)
  = without k' pre ++ (k, exp) :: without k' post.
Proof.
  intros Hne. unfold without. rewrite List.filter_app. simpl.
  apply text_eqb_neq in Hne. rewrite Hne. reflexivity.
Qed.

(** A later check, of any key, keeps a remembered key as long as it is
    not expired and the capacity is not reached. *)
Lemma check_keeps (k k' : text) (T : Z) (n : nat) (now : Z)
    (c : DedupeCache) :
  remembered k T n c -> now < T -> T <= now + ttlMs c ->
  (n + 2 <= maxSize c)%nat ->
  remembered k T (S n) (snd (check k' now c)).
Proof.
  intros Hrem Hnow HT Hroom.
  destruct (decide (k' = k)) as [->|Hne].
  - apply (remembered_weaken k (now + ttlMs c) T 0); [|lia|lia].
    apply check_records; lia.
  - destruct Hrem as (pre & exp & post & Heq & Hfree & Hexp & Hlen).
    unfold check, remembered. simpl. rewrite Heq.
    rewrite without_other by congruence. rewrite <- app_assoc. simpl.
    destruct (evict_keeps now (maxSize c) k exp (without k' pre)
                (without k' post ++ [(k', now + ttlMs c)]))
      as (pre' & post' & Heq' & Hfree' & Hlen').
    + lia.
    + rewrite length_app. simpl.
      pose proof (filter_length_le
                    (fun e : text * Z => negb (text_eqb (fst e) k')) post).
      unfold without. lia.
    + apply key_free_filter, Hfree.
    + exists pre', exp, post'. repeat split; auto.
      rewrite length_app in Hlen'. simpl in Hlen'.
      pose proof (filter_length_le
                    (fun e : text * Z => negb (text_eqb (fst e) k')) post).
      unfold without in Hlen'. lia.
Qed.

(** A remembered key that has not expired is reported as seen. *)
Lemma check_seen (k : text) (T : Z) (n : nat) (now : Z) (c : DedupeCache) :
  remembered k T n c -> now < T -> fst (check k now c) = true.
Proof.
  intros (pre & exp & post & Heq & Hfree & Hexp & Hlen) Hnow.
  unfold check. simpl. rewrite Heq, expiry_of_found by assumption.
  apply Z.ltb_lt. lia.
Qed.

Lemma check_parameters (k : text) (now : Z) (c : DedupeCache) :
  ttlMs (snd (check k now c)) = ttlMs c /\
  maxSize (snd (check k now c)) = maxSize c.
Proof. split; reflexivity. Qed.

Section Handler.

Variable params : FeishuMonitorParams.
Let ctx := createFeishuMonitorContext params.

(** The handler on an event that carries both identifiers. *)
Lemma deliver_identified (d : Delivery) (w : World) (m : FeishuMessage)
    (c i : text) :
  event_message (delivered_event d) = Some m ->
  truthy (chat_id m) = Some c -> truthy (message_id m) = Some i ->
  deliver ctx d w =
  let w0 := with_clock (at_time d) w in
  let r := check (c ++ lit ":" ++ i) (at_time d) (seenMessages w) in
  if fst r then with_seenMessages (snd r) w0
  else with_enqueued
         (enqueued w ++ [{| entry_event := delivered_event d;
                            entry_opts := delivered_opts d |}])
         (with_seenMessages (snd r) w0).
Proof.
  intros Hm Hc Hi. unfold deliver, handler. rewrite Hm. simpl.
  rewrite Hc, Hi. reflexivity.
Qed.

Lemma deliver_parameters (d : Delivery) (w : World) :
  ttlMs (seenMessages (deliver ctx d w)) = ttlMs (seenMessages w) /\
  maxSize (seenMessages (deliver ctx d w)) = maxSize (seenMessages w).
Proof.
  unfold deliver, handler.
  destruct (event_message (delivered_event d)) as [m|]; [|split; reflexivity].
  simpl. destruct (truthy (chat_id m)), (truthy (message_id m));
    simpl; try (split; reflexivity).
  destruct (match expiry_of _ _ with Some _ => _ | None => _ end);
    split; reflexivity.
Qed.

Lemma deliver_keeps (k : text) (T : Z) (n : nat) (d : Delivery) (w : World) :
  remembered k T n (seenMessages w) ->
  at_time d < T -> T <= at_time d + ttlMs (seenMessages w) ->
  (n + 2 <= maxSize (seenMessages w))%nat ->
  remembered k T (S n) (seenMessages (deliver ctx d w)).
Proof.
  intros Hrem Hnow HT Hroom. unfold deliver, handler.
  destruct (event_message (delivered_event d)) as [m|];
    [|simpl; apply (remembered_weaken k T T n); auto; lia].
  simpl.
  destruct (truthy (chat_id m)) as [c|], (truthy (message_id m)) as [i|];
    simpl;
    try (apply (remembered_weaken k T T n); auto; lia).
  pose proof (check_keeps k (c ++ lit ":" ++ i) T n (at_time d)
                (seenMessages w) Hrem Hnow HT Hroom) as Hk.
  unfold check in *. simpl in *.
  destruct (match expiry_of _ _ with Some _ => _ | None => _ end);
    simpl; exact Hk.
Qed.

Lemma deliver_all_keeps (k : text) (T : Z) (ds : list Delivery) :
  forall (n : nat) (w : World),
  remembered k T n (seenMessages w) ->
  Forall (fun d => at_time d < T /\
                   T <= at_time d + ttlMs (seenMessages w)) ds ->
  (n + length ds + 1 <= maxSize (seenMessages w))%nat ->
  remembered k T (n + length ds) (seenMessages (deliver_all ctx ds w)) /\
  ttlMs (seenMessages (deliver_all ctx ds w)) = ttlMs (seenMessages w) /\
  maxSize (seenMessages (deliver_all ctx ds w)) = maxSize (seenMessages w).
Proof.
  induction ds as [|d ds IH]; intros n w Hrem Htimes Hroom.
  - simpl. rewrite Nat.add_0_r. auto.
  - inversion Htimes as [|d' ds' [Hd1 Hd2] Hrest]; subst.
    simpl in *. destruct (deliver_parameters d w) as [Httl Hmax].
    destruct (IH (S n) (deliver ctx d w)) as (Hr & Ht & Hm).
    + apply deliver_keeps; auto. lia.
    + rewrite Httl. exact Hrest.
    + rewrite Hmax. lia.
    + unfold deliver_all in *. simpl.
      replace (n + S (length ds))%nat with (S n + length ds)%nat by lia.
      rewrite Ht, Hm, Httl, Hmax. auto.
Qed.

(** C1, as the code has it.  A second delivery of an event with the same
    non-empty (chat_id, message_id) pair inside the retention window has no
    downstream effect, provided fewer deliveries than the capacity of the
    cache were handled in between.  An event whose chat_id or message_id
    is missing or empty is not looked up, leaves the cache unmarked and is
    handed to the debouncer. *)
Theorem redelivery_dropped (w : World) (d0 d1 : Delivery)
    (ds : list Delivery) (m0 m1 : FeishuMessage) (chatId messageId : text) :
  event_message (delivered_event d0) = Some m0 ->
  event_message (delivered_event d1) = Some m1 ->
  truthy (chat_id m0) = Some chatId ->
  truthy (message_id m0) = Some messageId ->
  truthy (chat_id m1) = Some chatId ->
  truthy (message_id m1) = Some messageId ->
  (length ds < maxSize (seenMessages w))%nat ->
  Forall (fun d => at_time d0 <= at_time d
                   < at_time d0 + ttlMs (seenMessages w)) (ds ++ [d1]) ->
  let w1 := deliver_all ctx ds (deliver ctx d0 w) in
  downstream (deliver ctx d1 w1) = downstream w1 /\
  (forall (d : Delivery) (m : FeishuMessage) (w' : World),
     event_message (delivered_event d) = Some m ->
     truthy (chat_id m) = None \/ truthy (message_id m) = None ->
     seenMessages (deliver ctx d w') = seenMessages w' /\
     enqueued (deliver ctx d w') =
       enqueued w' ++ [{| entry_event := delivered_event d;
                          entry_opts := delivered_opts d |}]).
Proof.
  intros Hm0 Hm1 Hc0 Hi0 Hc1 Hi1 Hlen Htimes w1. split.
  - apply Forall_app in Htimes as [Hds Hd1].
    inversion Hd1 as [|d' l' Hwin _]; subst.
    set (k := chatId ++ lit ":" ++ messageId).
    set (T := at_time d0 + ttlMs (seenMessages w)).
    assert (Hfirst : remembered k T 0 (seenMessages (deliver ctx d0 w))).
    { unfold deliver, handler. rewrite Hm0. simpl. rewrite Hc0, Hi0.
      pose proof (check_records k (at_time d0) (seenMessages w)
                    ltac:(lia) ltac:(lia)) as Hr.
      unfold check in *. simpl in *.
      destruct (match expiry_of _ _ with Some _ => _ | None => _ end);
        simpl; exact Hr. }
    destruct (deliver_parameters d0 w) as [Httl Hmax].
    destruct (deliver_all_keeps k T ds 0 (deliver ctx d0 w) Hfirst)
      as (Hrem & Httl' & Hmax').
    + rewrite Httl. eapply List.Forall_impl; [|exact Hds].
      intros d Hd. simpl in Hd. unfold T. lia.
    + rewrite Hmax. lia.
    + fold w1 in Hrem, Httl', Hmax'.
      pose proof (check_seen k T _ (at_time d1) (seenMessages w1) Hrem
                    ltac:(unfold T; lia)) as Hseen.
      rewrite (deliver_identified d1 w1 m1 chatId messageId Hm1 Hc1 Hi1).
      cbv zeta. fold k. rewrite Hseen. reflexivity.
  - intros d m w' Hm Hmissing. unfold deliver, handler. rewrite Hm. simpl.
    destruct Hmissing as [H | H]; rewrite H.
    + split; reflexivity.
    + destruct (truthy (chat_id m)); split; reflexivity.
Qed.

End Handler.

Lemma downstream_enqueued (w w' : World) :
  downstream w = downstream w' -> enqueued w = enqueued w'.
Proof. unfold downstream. intros H. injection H. auto. Qed.

Lemma flood_times (n : nat) (t0 ttl : Z) :
  t0 <= 1 < t0 + ttl ->
  Forall (fun d => t0 <= at_time d < t0 + ttl) (flood n).
Proof.
  intros H. unfold flood. apply List.Forall_map, List.Forall_forall.
  intros i _. simpl. exact H.
Qed.

Lemma redelivery_dropped_witness :
  let ctx := createFeishuMonitorContext default_params in
  let w1 := deliver_all ctx (flood 3)
              (deliver ctx (delivery 0 first_message) empty_world) in
  downstream (deliver ctx (delivery 2 first_message) w1) = downstream w1.
Proof.
  intros ctx w1.
  refine (proj1 (redelivery_dropped default_params empty_world
                   (delivery 0 first_message) (delivery 2 first_message)
                   (flood 3)
                   (text_message (lit "oc_1") (lit "om_1") (lit "hello"))
                   (text_message (lit "oc_1") (lit "om_1") (lit "hello"))
                   (lit "oc_1") (lit "om_1")
                   eq_refl eq_refl eq_refl eq_refl eq_refl eq_refl _ _)).
  - vm_compute. lia.
  - apply Forall_app. split.
    + apply flood_times. vm_compute. split; [discriminate | reflexivity].
    + constructor; [|constructor]. vm_compute.
      split; [discriminate | reflexivity].
Defined.

(** C1 as stated fails once the cache overflows: 500 other messages
    arrive between the two deliveries, all inside the one-minute
    retention window, and the second delivery is handed to the debouncer
    again. *)
Lemma redelivery_after_flood_enqueued :
  let ctx := createFeishuMonitorContext default_params in
  let d0 := delivery 0 first_message in
  let d1 := delivery 2 first_message in
  let w1 := deliver_all ctx (flood 500) (deliver ctx d0 empty_world) in
  Forall (fun d => at_time d0 <= at_time d
                   < at_time d0 + ttlMs (seenMessages empty_world))
    (flood 500 ++ [d1]) /\
  enqueued (deliver ctx d1 w1) =
    enqueued w1 ++ [{| entry_event := first_message;
                       entry_opts := {| wasMentioned := None |} |}] /\
  downstream (deliver ctx d1 w1) <> downstream w1.
Proof.
  intros ctx d0 d1 w1.
  assert (Henq : enqueued (deliver ctx d1 w1) =
                 enqueued w1 ++ [{| entry_event := first_message;
                                    entry_opts := {| wasMentioned := None |} |}]).
  { vm_compute. reflexivity. }
  split; [|split].
  - apply Forall_app. split.
    + apply flood_times. vm_compute. split; [discriminate | reflexivity].
    + constructor; [|constructor]. vm_compute.
      split; [discriminate | reflexivity].
  - exact Henq.
  - intros H. apply downstream_enqueued in H. rewrite Henq in H.
    revert H. generalize (enqueued w1) as q. clear. intros q H.
    apply (f_equal (@length _)) in H.
    rewrite length_app in H. simpl in H. lia.
Qed.

End DedupeFacts.

(** ** monitor/message-handler/prepare.ts: the access gates *)

Module PrepareFacts.

Import Js Types Threading Context Core MessageText Prepare Notions Fixtures.
Local Open Scope Z_scope.

Lemma includes_In (xs : list text) (x : text) :
  includes xs x = true <-> In x xs.
Proof.
  unfold includes. rewrite existsb_exists. split.
  - intros (y & Hy & Heq). apply bool_decide_eq_true in Heq. subst. exact Hy.
  - intros H. exists x. split; [exact H|]. apply bool_decide_eq_true.
    reflexivity.
Qed.

Lemma includes_lower (xs : list text) (y : text) :
  includes (map toLowerCase xs) y = true <->
  exists e, In e xs /\ toLowerCase e = y.
Proof.
  rewrite includes_In, in_map_iff. split; intros (e & H1 & H2); eauto.
Qed.

Lemma length_eqb_nil {A : Type} (l : list A) :
  Nat.eqb (length l) 0 = true <-> l = [].
Proof.
  destruct l; simpl; split; intros H; try reflexivity; discriminate.
Qed.

(** [isFeishuUserAllowed] decides [sender_matches]. *)
Lemma isFeishuUserAllowed_spec (allowList : list text) (id_ name_ : text) :
  isFeishuUserAllowed allowList id_ (Some name_) = true <->
  sender_matches allowList id_ name_.
Proof.
  unfold isFeishuUserAllowed, sender_matches.
  destruct (Nat.eqb (length allowList) 0) eqn:E.
  { apply length_eqb_nil in E. subst. simpl. split; [discriminate|].
    intros [H | (e & H & _)]; contradiction. }
  destruct (includes allowList (lit "*")) eqn:Estar.
  { apply includes_In in Estar. split; auto. }
  simpl. rewrite orb_true_iff, !includes_lower. split.
  - intros [(e & He & Hid) | (e & He & Hname)]; right; exists e; auto.
  - intros [Hstar | (e & He & [Hid | Hname])].
    + apply includes_In in Hstar. rewrite Hstar in Estar. discriminate.
    + left. eauto.
    + right. eauto.
Qed.

(** [resolveFeishuAllowListMatch] decides the same. *)
Lemma resolveFeishuAllowListMatch_spec (allowList : list text)
    (id_ name_ : text) :
  allowed (resolveFeishuAllowListMatch allowList id_ (Some name_)) = true <->
  sender_matches allowList id_ name_.
Proof.
  unfold resolveFeishuAllowListMatch, sender_matches.
  destruct (Nat.eqb (length allowList) 0) eqn:E.
  { apply length_eqb_nil in E. subst. simpl. split; [discriminate|].
    intros [H | (e & H & _)]; contradiction. }
  destruct (includes allowList (lit "*")) eqn:Estar.
  { apply includes_In in Estar. simpl. split; auto. }
  destruct (includes (map toLowerCase allowList) (toLowerCase id_)) eqn:Eid.
  { apply includes_lower in Eid as (e & He & Hid). simpl.
    split; [|reflexivity]. intros _. right. exists e. auto. }
  simpl.
  destruct (includes (map toLowerCase allowList) (toLowerCase name_))
    eqn:Ename; simpl.
  - apply includes_lower in Ename as (e & He & Hname).
    split; [|reflexivity]. intros _. right. exists e. auto.
  - split; [discriminate|].
    intros [Hstar | (e & He & [Hid | Hname])].
    + apply includes_In in Hstar. rewrite Hstar in Estar. discriminate.
    + assert (Hin : includes (map toLowerCase allowList) (toLowerCase id_)
                    = true) by (apply includes_lower; eauto).
      rewrite Hin in Eid. discriminate.
    + assert (Hin : includes (map toLowerCase allowList) (toLowerCase name_)
                    = true) by (apply includes_lower; eauto).
      rewrite Hin in Ename. discriminate.
Qed.

Lemma resolveFeishuAllowListMatch_id_spec (allowList : list text)
    (id_ : text) :
  allowed (resolveFeishuAllowListMatch allowList id_ None) = true <->
  id_matches allowList id_.
Proof.
  unfold resolveFeishuAllowListMatch, id_matches.
  destruct (Nat.eqb (length allowList) 0) eqn:E.
  { apply length_eqb_nil in E. subst. simpl. split; [discriminate|].
    intros [H | (e & H & _)]; contradiction. }
  destruct (includes allowList (lit "*")) eqn:Estar.
  { apply includes_In in Estar. simpl. split; auto. }
  destruct (includes (map toLowerCase allowList) (toLowerCase id_)) eqn:Eid;
    simpl.
  - apply includes_lower in Eid as (e & He & Hid).
    split; [|reflexivity]. intros _. right. exists e. auto.
  - split; [discriminate|].
    intros [Hstar | (e & He & Hid)].
    + apply includes_In in Hstar. rewrite Hstar in Estar. discriminate.
    + assert (Hin : includes (map toLowerCase allowList) (toLowerCase id_)
                    = true) by (apply includes_lower; eauto).
      rewrite Hin in Eid. discriminate.
Qed.

Lemma nonempty_iff {A : Type} (l : list A) :
  negb (Nat.eqb (length l) 0) = true <-> l <> [].
Proof.
  destruct l; simpl; split; intros H; try discriminate; try reflexivity.
  contradiction.
Qed.

(** The command gate of the specification, on the two authorizers
    [prepareFeishuMessage] hands it. *)
Lemma commandGate_authorized (core : Core) (ctx : FeishuMonitorContext)
    (isGroup_ : bool) (cfg : option GroupConfig)
    (senderId senderName rawBody : text) :
  resolveControlCommandGate core = CoreSpec.resolveControlCommandGate ->
  commandAuthorized
    (commandGate core ctx isGroup_ cfg senderId senderName rawBody) = true
  <->
  (allowFrom ctx <> [] /\
   sender_matches (allowFrom ctx) senderId senderName) \/
  (isGroup_ = true /\
   exists g us, cfg = Some g /\ users g = Some us /\ us <> [] /\
                sender_matches us senderId senderName).
Proof.
  intros Hcg. unfold commandGate. rewrite Hcg.
  unfold CoreSpec.resolveControlCommandGate.
  cbn [commandAuthorized authorizers existsb configured authorizer_allowed].
  rewrite orb_false_r, orb_true_iff, !andb_true_iff.
  rewrite nonempty_iff, resolveFeishuAllowListMatch_spec.
  apply or_iff_compat_l.
  destruct isGroup_; cbn [andb].
  - destruct cfg as [g|]; [destruct (users g) as [us|] eqn:Eu|].
    + split.
      * intros [[_ Hne] Hok]. split; [reflexivity|]. exists g, us.
        rewrite Hne in Hok. apply nonempty_iff in Hne.
        repeat split; auto.
        apply isFeishuUserAllowed_spec, Hok.
      * intros (_ & g' & us' & Hg & Hus & Hne & Hm).
        injection Hg as <-. rewrite Eu in Hus. injection Hus as <-.
        apply nonempty_iff in Hne. rewrite Hne.
        repeat split.
        apply isFeishuUserAllowed_spec, Hm.
    + split; [intros [[_ H] _]; discriminate|].
      intros (_ & g' & us' & Hg & Hus & _).
      injection Hg as <-. rewrite Eu in Hus. discriminate.
    + split; [intros [[_ H] _]; discriminate|].
      intros (_ & g' & us' & Hg & _). discriminate.
  - split; [intros [[H _] _]; discriminate | intros [H _]; discriminate].
Qed.

Lemma last_n_snoc {A : Type} (n : nat) (xs : list A) (x : A) :
  (1 <= n)%nat ->
  CoreSpec.last_n n (xs ++ [x]) = CoreSpec.last_n (n - 1) xs ++ [x].
Proof.
  intros Hn. unfold CoreSpec.last_n. rewrite length_app. simpl.
  rewrite skipn_app.
  replace (length xs + 1 - n)%nat with (length xs - (n - 1))%nat by lia.
  replace (length xs - (n - 1) - length xs)%nat with O by lia.
  reflexivity.
Qed.

Lemma last_n_length {A : Type} (n : nat) (xs : list A) :
  (length (CoreSpec.last_n n xs) <= n)%nat.
Proof. unfold CoreSpec.last_n. rewrite length_skipn. lia. Qed.

(** The pending history of the specification: the entry becomes the newest
    one under its key, the older ones are the most recent of those that
    were there, and the capacity is respected; other keys are untouched. *)
Lemma recordPendingHistoryEntry_appends
    (historyMap : gmap text (list HistoryEntry)) (key : text) (limit : Z)
    (e : HistoryEntry) :
  1 <= limit ->
  let recorded :=
    CoreSpec.recordPendingHistoryEntryIfEnabled historyMap key limit
      (Some e) in
  let older :=
    CoreSpec.last_n (Z.to_nat limit - 1) (nullish (historyMap !! key) []) in
  recorded !! key = Some (older ++ [e]) /\
  (length (older ++ [e]) <= Z.to_nat limit)%nat /\
  (forall key', key' <> key -> recorded !! key' = historyMap !! key').
Proof.
  intros Hlimit recorded older. unfold recorded, older.
  unfold CoreSpec.recordPendingHistoryEntryIfEnabled.
  rewrite lookup_insert_eq, last_n_snoc by lia.
  split; [reflexivity|]. split.
  - rewrite length_app. simpl.
    pose proof (last_n_length (Z.to_nat limit - 1)
                  (nullish (historyMap !! key) [])).
    lia.
  - intros key' Hne. apply lookup_insert_ne. congruence.
Qed.

Section Turn.

(** A turn with a message, a sender, a chat id and a sender id: what
    [prepareFeishuMessage] requires before any gate (lines 52-68). *)
Variables (core : Core) (ctx : FeishuMonitorContext)
  (account : ResolvedFeishuAccount) (event : FeishuMessageEvent)
  (opts : Opts) (w : World) (message : FeishuMessage)
  (sender_ : FeishuSender) (chatId senderId : text).

Hypothesis Hmessage : event_message event = Some message.
Hypothesis Hsender : event_sender event = Some sender_.
Hypothesis HchatId : truthy (chat_id message) = Some chatId.
Hypothesis HsenderId : truthy (senderOpenId sender_) = Some senderId.

Lemma prepare_direct :
  normalizeFeishuChatType (chat_type message) (Some chatId) = direct ->
  prepareFeishuMessage core ctx account event opts w =
  if negb (isChatAllowed ctx {| ref_chatId := Some chatId;
                                ref_chatType := Some direct |})
  then (None, w)
  else
    let r := checkDmAuthorization core ctx chatId senderId w in
    if fst r then
      gateAndBuild core ctx account event opts message sender_ chatId
        senderId None true None (snd r)
    else (None, snd r).
Proof using Hmessage Hsender HchatId HsenderId.
  intros Hdirect. unfold prepareFeishuMessage.
  rewrite Hmessage, Hsender, HchatId, HsenderId, Hdirect. simpl.
  destruct (isChatAllowed ctx _); simpl; [|reflexivity].
  destruct (checkDmAuthorization core ctx chatId senderId w) as [[|] w1];
    reflexivity.
Qed.

Lemma prepare_group :
  normalizeFeishuChatType (chat_type message) (Some chatId) = group ->
  prepareFeishuMessage core ctx account event opts w =
  if negb (isChatAllowed ctx {| ref_chatId := Some chatId;
                                ref_chatType := Some group |})
  then (None, w)
  else
    gateAndBuild core ctx account event opts message sender_ chatId senderId
      (chat_name (resolveChatInfo ctx chatId)) false
      (group_entry (groupsConfig ctx) chatId) w.
Proof using Hmessage Hsender HchatId HsenderId.
  intros Hgroup. unfold prepareFeishuMessage.
  rewrite Hmessage, Hsender, HchatId, HsenderId, Hgroup. simpl.
  destruct (isChatAllowed ctx _); reflexivity.
Qed.

(** C9.  A direct message under policy "pairing" from a sender who does
    not match the allowlist is dropped; the pairing request is upserted,
    and the pairing reply is sent to the chat exactly when the upsert
    reports the request as newly created: one reply when [created] is
    true, none when it is false.  Nothing else changes. *)
Theorem pairing_reply_when_created :
  normalizeFeishuChatType (chat_type message) (Some chatId) = direct ->
  isChatAllowed ctx {| ref_chatId := Some chatId;
                       ref_chatType := Some direct |} = true ->
  dmEnabled ctx = true ->
  dmPolicy ctx = dm_pairing ->
  ~ id_matches (allowFrom ctx) senderId ->
  let up :=
    upsertChannelPairingRequest core (lit "feishu") senderId
      (user_name (resolveUserName ctx senderId)) (clock w)
      (pairingRequests w) in
  let reply :=
    {| sent_to := chatId;
       sent_text :=
         buildPairingReply core (lit "feishu")
           (lit "Your Feishu user id: " ++ senderId)
           (upserted_code (fst up)) |} in
  let r := prepareFeishuMessage core ctx account event opts w in
  fst r = None /\
  pairingRequests (snd r) = snd up /\
  outbox (snd r) = outbox w ++ (if created (fst up) then [reply] else []) /\
  (created (fst up) = true -> outbox (snd r) = outbox w ++ [reply]) /\
  (created (fst up) = false -> outbox (snd r) = outbox w) /\
  dispatched (snd r) = dispatched w /\
  chatHistories (snd r) = chatHistories w /\
  sessions (snd r) = sessions w.
Proof using Hmessage Hsender HchatId HsenderId.
  intros Hdirect Hallowed Henabled Hpolicy Hnomatch up reply r.
  assert (Hno : allowed (resolveFeishuAllowListMatch (allowFrom ctx)
                           senderId None) = false).
  { apply not_true_is_false. intros H.
    apply Hnomatch, resolveFeishuAllowListMatch_id_spec, H. }
  unfold r. rewrite (prepare_direct Hdirect), Hallowed. simpl.
  unfold checkDmAuthorization. rewrite Henabled, Hpolicy, Hno.
  fold up. destruct up as [u store] eqn:Eup. simpl.
  destruct (created u) eqn:Ec; simpl.
  - repeat split; try reflexivity; try discriminate.
  - rewrite app_nil_r. repeat split; try reflexivity; try discriminate.
Qed.

(** The turn as [prepareFeishuMessage] sees it once it is known to be a
    group turn. *)
Let groupEntry := group_entry (groupsConfig ctx) chatId.
Let senderName := resolveSenderName ctx sender_ senderId.
Let rawBody := extractMessageText message.
Let route_ := turnRoute core account false chatId senderId.
Let mentionRegexes := buildMentionRegexes core (agentId route_).
Let wasMentioned_ :=
  resolveWasMentioned core ctx opts false message rawBody mentionRegexes.
Let gate := commandGate core ctx true groupEntry senderId senderName rawBody.
Let mention :=
  mentionGate core ctx true groupEntry message mentionRegexes wasMentioned_
    rawBody (commandAuthorized gate).
Let historyKey_ := turnHistoryKey core route_ message chatId.

(** A group turn that passed the chat gate, the group-user gate and the
    empty-body check stands before the command gate (line 209). *)
Lemma prepare_group_at_command_gate :
  normalizeFeishuChatType (chat_type message) (Some chatId) = group ->
  isChatAllowed ctx {| ref_chatId := Some chatId;
                       ref_chatType := Some group |} = true ->
  groupUserAuthorized true groupEntry senderId senderName = true ->
  is_truthy (Some (trim rawBody)) = true ->
  prepareFeishuMessage core ctx account event opts w =
  if shouldBlock gate then (None, w)
  else if (shouldRequireMention ctx true groupEntry
           && shouldSkip mention)%bool
  then
    (None,
     with_chatHistories
       (recordPendingHistoryEntryIfEnabled core (chatHistories w)
          historyKey_ (historyLimit ctx)
          (pendingEntry core message senderName rawBody))
       w)
  else
    buildPrepared core ctx account event message chatId senderId senderName
      rawBody (chat_name (resolveChatInfo ctx chatId)) false groupEntry
      route_ (resolveFeishuThreadContext message)
      (turnThreadKeys core route_ message) historyKey_
      (effectiveWasMentioned mention) (commandAuthorized gate) w.
Proof using Hmessage Hsender HchatId HsenderId.
  intros Hgroup Hallowed Husers Hbody.
  rewrite (prepare_group Hgroup), Hallowed. cbn [negb].
  unfold gateAndBuild. cbv zeta. change (negb false) with true.
  fold groupEntry senderName rawBody route_ mentionRegexes.
  rewrite Husers, Hbody. cbn [negb andb].
  fold wasMentioned_ gate mention historyKey_.
  destruct (shouldBlock gate); reflexivity.
Qed.

Lemma pendingEntry_of_body :
  is_truthy (Some (trim rawBody)) = true ->
  pendingEntry core message senderName rawBody =
  Some {| sender := senderName; body := rawBody;
          timestamp := message_timestamp core message;
          messageId := message_id message |}.
Proof.
  unfold pendingEntry. destruct rawBody as [|c b]; [discriminate|].
  reflexivity.
Qed.

Lemma shouldBlock_unauthorized :
  resolveControlCommandGate core = CoreSpec.resolveControlCommandGate ->
  hasControlCommand core rawBody = true ->
  shouldHandleTextCommands core = true ->
  commandAuthorized gate = false ->
  shouldBlock gate = true.
Proof.
  intros Hcg Hcmd Hallow. unfold gate, commandGate. rewrite Hcg.
  unfold CoreSpec.resolveControlCommandGate.
  cbn [commandAuthorized shouldBlock authorizers cg_allowTextCommands
       cg_hasControlCommand].
  rewrite Hcmd, Hallow. intros ->. reflexivity.
Qed.

(** C8.  With the command gate of the specification: the command of a
    turn is authorized exactly when the sender matches the
    direct-message-level allowlist, that list being non-empty, or the turn
    is a group turn whose group defines a non-empty users list that the
    sender matches; with neither list configured it is not authorized; and
    a group turn carrying a control command, with command handling
    enabled, is dropped when the command is not authorized. *)
Theorem command_authorization :
  resolveControlCommandGate core = CoreSpec.resolveControlCommandGate ->
  let isGroup_ :=
    chat_type_eqb
      (normalizeFeishuChatType (chat_type message) (Some chatId)) group in
  let turnGate :=
    commandGate core ctx isGroup_ (if isGroup_ then groupEntry else None)
      senderId senderName rawBody in
  (commandAuthorized turnGate = true <->
   (allowFrom ctx <> [] /\
    sender_matches (allowFrom ctx) senderId senderName) \/
   (isGroup_ = true /\
    exists g us, groupEntry = Some g /\ users g = Some us /\ us <> [] /\
                 sender_matches us senderId senderName)) /\
  (allowFrom ctx = [] ->
   (isGroup_ = false \/
    forall g us, groupEntry = Some g -> users g = Some us -> us = []) ->
   commandAuthorized turnGate = false) /\
  (isGroup_ = true ->
   hasControlCommand core rawBody = true ->
   shouldHandleTextCommands core = true ->
   commandAuthorized turnGate = false ->
   prepareFeishuMessage core ctx account event opts w = (None, w)).
Proof using Hmessage Hsender HchatId HsenderId.
  intros Hcg isGroup_ turnGate.
  assert (Hiff :
    commandAuthorized turnGate = true <->
    (allowFrom ctx <> [] /\
     sender_matches (allowFrom ctx) senderId senderName) \/
    (isGroup_ = true /\
     exists g us, groupEntry = Some g /\ users g = Some us /\ us <> [] /\
                  sender_matches us senderId senderName)).
  { unfold turnGate. rewrite (commandGate_authorized _ _ _ _ _ _ _ Hcg).
    apply or_iff_compat_l. destruct isGroup_; [reflexivity|].
    split; intros [H _]; discriminate. }
  split; [exact Hiff|]. split.
  - intros Hempty Hnone. apply not_true_is_false. intros Hauth.
    apply Hiff in Hauth as [[Hne _] | (Hg & g & us & Hcfg & Hus & Hne & _)].
    + contradiction.
    + destruct Hnone as [Hd | Hnone]; [congruence|].
      apply Hne. eapply Hnone; eassumption.
  - intros Hg Hcmd Hallow Hno.
    assert (Hgroup : normalizeFeishuChatType (chat_type message)
                       (Some chatId) = group).
    { unfold isGroup_ in Hg.
      destruct (normalizeFeishuChatType (chat_type message) (Some chatId));
        [discriminate | reflexivity]. }
    assert (Hgate : turnGate = gate).
    { unfold turnGate, isGroup_. rewrite Hgroup. reflexivity. }
    rewrite Hgate in Hno.
    pose proof (shouldBlock_unauthorized Hcg Hcmd Hallow Hno) as Hblock.
    destruct (isChatAllowed ctx {| ref_chatId := Some chatId;
                                   ref_chatType := Some group |}) eqn:Ha;
      [|rewrite (prepare_group Hgroup), Ha; reflexivity].
    destruct (groupUserAuthorized true groupEntry senderId senderName)
      eqn:Hu.
    + destruct (is_truthy (Some (trim rawBody))) eqn:Hb.
      * rewrite (prepare_group_at_command_gate Hgroup Ha Hu Hb), Hblock.
        reflexivity.
      * rewrite (prepare_group Hgroup), Ha. cbn [negb].
        unfold gateAndBuild. cbv zeta. change (negb false) with true.
        fold groupEntry senderName rawBody. rewrite Hu, Hb. reflexivity.
    + rewrite (prepare_group Hgroup), Ha. cbn [negb].
      unfold gateAndBuild. cbv zeta. change (negb false) with true.
      fold groupEntry senderName. rewrite Hu. reflexivity.
Qed.

(** C7.  A group turn that reaches the mention gate (lines 252-288).
    When a mention is required and the gate decides to skip, the turn is
    dropped without a reply, and before that its sender, body, timestamp
    and message id are handed to the pending history under the history
    key of the turn; with the pending history of the specification and a
    capacity of at least one the entry is then the newest one under that
    key.  With the mention gate of the specification an authorized control
    command is not skipped: the turn goes on to the context builder. *)
Theorem mention_skip_recorded :
  normalizeFeishuChatType (chat_type message) (Some chatId) = group ->
  isChatAllowed ctx {| ref_chatId := Some chatId;
                       ref_chatType := Some group |} = true ->
  groupUserAuthorized true groupEntry senderId senderName = true ->
  is_truthy (Some (trim rawBody)) = true ->
  shouldBlock gate = false ->
  let entry :=
    {| sender := senderName; body := rawBody;
       timestamp := message_timestamp core message;
       messageId := message_id message |} in
  let r := prepareFeishuMessage core ctx account event opts w in
  (shouldRequireMention ctx true groupEntry = true ->
   shouldSkip mention = true ->
   r = (None,
        with_chatHistories
          (recordPendingHistoryEntryIfEnabled core (chatHistories w)
             historyKey_ (historyLimit ctx) (Some entry))
          w) /\
   fst r = None /\ outbox (snd r) = outbox w /\
   dispatched (snd r) = dispatched w) /\
  (recordPendingHistoryEntryIfEnabled core
   = CoreSpec.recordPendingHistoryEntryIfEnabled ->
   1 <= historyLimit ctx ->
   shouldRequireMention ctx true groupEntry = true ->
   shouldSkip mention = true ->
   let older :=
     CoreSpec.last_n (Z.to_nat (historyLimit ctx) - 1)
       (nullish (chatHistories w !! historyKey_) []) in
   chatHistories (snd r) !! historyKey_ = Some (older ++ [entry]) /\
   (length (older ++ [entry]) <= Z.to_nat (historyLimit ctx))%nat) /\
  (resolveMentionGatingWithBypass core
   = CoreSpec.resolveMentionGatingWithBypass ->
   hasControlCommand core rawBody = true ->
   commandAuthorized gate = true ->
   shouldSkip mention = false /\
   r = buildPrepared core ctx account event message chatId senderId
         senderName rawBody (chat_name (resolveChatInfo ctx chatId)) false
         groupEntry route_ (resolveFeishuThreadContext message)
         (turnThreadKeys core route_ message) historyKey_
         (effectiveWasMentioned mention) (commandAuthorized gate) w).
Proof using Hmessage Hsender HchatId HsenderId.
  intros Hgroup Hallowed Husers Hbody Hblock entry r.
  assert (Hr : r = _) by
    exact (prepare_group_at_command_gate Hgroup Hallowed Husers Hbody).
  rewrite Hblock, (pendingEntry_of_body Hbody) in Hr. fold entry in Hr.
  split; [|split].
  - intros Hreq Hskip. rewrite Hreq, Hskip in Hr. cbn [andb] in Hr.
    rewrite Hr. repeat split; reflexivity.
  - intros Hrec Hlimit Hreq Hskip older.
    rewrite Hreq, Hskip in Hr. cbn [andb] in Hr. rewrite Hr, Hrec.
    cbn [snd chatHistories with_chatHistories].
    destruct (recordPendingHistoryEntry_appends (chatHistories w)
                historyKey_ (historyLimit ctx) entry Hlimit)
      as (Hlookup & Hlen & _).
    split; [exact Hlookup | exact Hlen].
  - intros Hmg Hcmd Hauth.
    assert (Hskip : shouldSkip mention = false).
    { unfold mention, mentionGate. rewrite Hmg.
      unfold CoreSpec.resolveMentionGatingWithBypass.
      cbn [shouldSkip mg_requireMention mg_wasMentioned mg_implicitMention
           mg_hasControlCommand mg_commandAuthorized].
      rewrite Hcmd, Hauth. cbn [andb]. rewrite orb_true_r.
      apply andb_false_r. }
    split; [exact Hskip|].
    rewrite Hskip, andb_false_r in Hr. exact Hr.
Qed.

End Turn.

Lemma command_authorization_witness :
  prepareFeishuMessage sample_core (createFeishuMonitorContext group_params)
    sample_account (group_message (lit "/status")) no_opts empty_world
  = (None, empty_world).
Proof.
  destruct (command_authorization sample_core
              (createFeishuMonitorContext group_params) sample_account
              (group_message (lit "/status")) no_opts empty_world _ _
              (lit "oc_1") (lit "ou_user")
              eq_refl eq_refl eq_refl eq_refl eq_refl)
    as (_ & _ & Hdrop).
  apply Hdrop; vm_compute; reflexivity.
Defined.

Lemma mention_skip_recorded_witness :
  let r :=
    prepareFeishuMessage sample_core
      (createFeishuMonitorContext group_params) sample_account
      (group_message (lit "hello team")) no_opts empty_world in
  fst r = None /\ outbox (snd r) = [] /\
  chatHistories (snd r) !! lit "oc_1" =
    Some [{| sender := lit "ou_user"; body := lit "hello team";
             timestamp := Some 0; messageId := Some (lit "om_g1") |}].
Proof.
  intros r.
  destruct (mention_skip_recorded sample_core
              (createFeishuMonitorContext group_params) sample_account
              (group_message (lit "hello team")) no_opts empty_world _ _
              (lit "oc_1") (lit "ou_user")
              eq_refl eq_refl eq_refl eq_refl)
    as (Hskip & Hrecorded & _); try (vm_compute; reflexivity).
  destruct Hskip as (_ & Hnone & Hout & _); try (vm_compute; reflexivity).
  destruct Hrecorded as (Hlookup & _); try (vm_compute; reflexivity).
  { vm_compute. discriminate. }
  split; [exact Hnone|]. split; [exact Hout|]. exact Hlookup.
Defined.

(** The skipped message of the sample run is in the transcript of the next
    message that mentions the bot. *)
Example skipped_message_is_injected_later :
  let ctx := createFeishuMonitorContext group_params in
  let skipped :=
    prepareFeishuMessage sample_core ctx sample_account
      (group_message (lit "hello team")) no_opts empty_world in
  let later :=
    prepareFeishuMessage sample_core ctx sample_account mentioning_message
      no_opts (snd skipped) in
  fst skipped = None /\
  option_map (fun p => Body (ctxPayload p)) (fst later) =
    Some (lit "hello team [id:om_g1 chat:oc_1]" ++ [LF]
          ++ lit "@bot status?" ++ [LF]
          ++ lit "[feishu message id: om_g2 chat: oc_1]").
Proof. split; vm_compute; reflexivity. Qed.

Lemma pairing_reply_when_created_witness :
  let ctx := createFeishuMonitorContext default_params in
  let first :=
    prepareFeishuMessage sample_core ctx sample_account direct_message
      no_opts empty_world in
  let second :=
    prepareFeishuMessage sample_core ctx sample_account direct_message
      no_opts (snd first) in
  length (outbox (snd first)) = 1%nat /\
  outbox (snd second) = outbox (snd first).
Proof.
  intros ctx first second.
  assert (Hstranger : ~ id_matches (allowFrom ctx) (lit "ou_stranger")).
  { intros [H | (e & H & _)]; exact H. }
  split.
  - destruct (pairing_reply_when_created sample_core ctx sample_account
                direct_message no_opts empty_world _ _
                (lit "ou_stranger") (lit "ou_stranger")
                eq_refl eq_refl eq_refl eq_refl
                eq_refl eq_refl eq_refl eq_refl Hstranger)
      as (_ & _ & _ & Hcreated & _).
    fold first in Hcreated. rewrite Hcreated; reflexivity.
  - destruct (pairing_reply_when_created sample_core ctx sample_account
                direct_message no_opts (snd first) _ _
                (lit "ou_stranger") (lit "ou_stranger")
                eq_refl eq_refl eq_refl eq_refl
                eq_refl eq_refl eq_refl eq_refl Hstranger)
      as (_ & _ & _ & _ & Hreused & _).
    fold second in Hreused. apply Hreused. vm_compute. reflexivity.
Defined.

End PrepareFacts.

(** ** monitor/message-handler.ts: the merge on flush *)

Module MessageHandlerFacts.

Import Js Types Threading Context Core Prepare MessageHandler Notions
  Fixtures.
Local Open Scope Z_scope.

Lemma last_entry_snoc (init : list DebounceEntry) (e : DebounceEntry) :
  last_entry (init ++ [e]) = Some e.
Proof.
  unfold last_entry. rewrite map_app. simpl. apply last_last.
Qed.

Lemma last_entry_inv (entries : list DebounceEntry) (last : DebounceEntry) :
  last_entry entries = Some last -> exists init, entries = init ++ [last].
Proof.
  destruct entries as [|e entries] using rev_ind; [discriminate|].
  rewrite last_entry_snoc. intros H. injection H as <-. eauto.
Qed.

Lemma trim_nil : trim [] = [].
Proof. reflexivity. Qed.

(** A debounced event carries text. *)
Lemma shouldDebounce_text (core : Core) (e : DebounceEntry) :
  shouldDebounce core e = true -> entry_text e <> [].
Proof.
  unfold shouldDebounce. intros H Hnil. rewrite Hnil in H.
  rewrite trim_nil in H. discriminate.
Qed.

Lemma filter_truthy_id (texts : list text) :
  Forall (fun t => t <> []) texts ->
  List.filter (fun t => is_truthy (Some t)) texts = texts.
Proof.
  induction 1 as [|t texts Ht _ IH]; simpl; [reflexivity|].
  destruct t as [|c t]; [contradiction|]. simpl. rewrite IH. reflexivity.
Qed.

Lemma memberIds_omap (entries : list DebounceEntry) :
  memberIds entries = omap member_id entries.
Proof. reflexivity. Qed.

Lemma memberIds_all (entries : list DebounceEntry) :
  Forall (fun e => is_Some (member_id e)) entries ->
  map Some (memberIds entries) = map member_id entries.
Proof.
  rewrite memberIds_omap.
  induction 1 as [|e entries [i Hi] _ IH]; simpl; [reflexivity|].
  rewrite Hi. simpl. f_equal. exact IH.
Qed.

(** What a flush builds.  A flush of a non-empty bucket prepares one turn,
    the last event with the combined text as its content, and dispatches
    what [prepareFeishuMessage] makes of it.  The combined text of a
    single-item bucket is the text of its event; for a bucket of debounced
    events it is the texts of the members joined by newlines, in arrival
    order.  The turn is marked as mentioned exactly when some member was.
    Header, sender and every property of the message but its content are
    those of the last event, its type included: the combined text is read
    back from the content only when that type is "text".  When more than
    one event was merged, the identifiers of the members are recorded on
    the prepared turn: the full list in arrival order, its first and its
    last element. *)
Theorem onFlush_merges (core : Core) (ctx : FeishuMonitorContext)
    (account : ResolvedFeishuAccount) (entries : list DebounceEntry)
    (last : DebounceEntry) (w : World) :
  last_entry entries = Some last ->
  let turn := syntheticEvent entries last in
  let merged := combinedText entries last in
  let turnOpts := syntheticOpts entries last in
  onFlush core ctx account entries w =
    (let r := prepareFeishuMessage core ctx account turn turnOpts w in
     match fst r with
     | None => snd r
     | Some prepared =>
         dispatchPreparedFeishuMessage (recordMessageIds entries prepared)
           (snd r)
     end) /\
  (entries = [last] -> merged = entry_text last) /\
  (Forall (fun e => shouldDebounce core e = true) entries ->
   merged = join [LF] (map entry_text entries)) /\
  (exists m,
     event_message turn = Some m /\
     content m = stringify_text merged /\
     (message_type m = lit "text" ->
      MessageText.extractMessageText m = merged) /\
     (forall lm, entry_message last = Some lm ->
        message_id m = message_id lm /\ root_id m = root_id lm /\
        parent_id m = parent_id lm /\ chat_id m = chat_id lm /\
        chat_type m = chat_type lm /\ create_time m = create_time lm /\
        message_type m = message_type lm /\ mentions m = mentions lm)) /\
  event_sender turn = event_sender (entry_event last) /\
  header turn = header (entry_event last) /\
  (wasMentioned turnOpts = Some true <->
   exists e, In e entries /\ wasMentioned (entry_opts e) = Some true) /\
  (forall prepared, (1 < length entries)%nat -> memberIds entries <> [] ->
     let c := ctxPayload (recordMessageIds entries prepared) in
     MessageSids c = Some (memberIds entries) /\
     MessageSidFirst c = head (memberIds entries) /\
     MessageSidLast c = List.last (map Some (memberIds entries)) None) /\
  memberIds entries = omap member_id entries /\
  (Forall (fun e => is_Some (member_id e)) entries ->
   map Some (memberIds entries) = map member_id entries).
Proof.
  intros Hlast turn merged turnOpts.
  destruct (last_entry_inv entries last Hlast) as [init Hentries].
  repeat match goal with |- _ /\ _ => split end.
  - unfold onFlush. rewrite Hlast. fold turn turnOpts.
    destruct (prepareFeishuMessage core ctx account turn turnOpts w)
      as [[prepared|] w1]; reflexivity.
  - intros ->. reflexivity.
  - intros Hdeb. unfold merged, combinedText.
    destruct (Nat.eqb (length entries) 1) eqn:E.
    + apply Nat.eqb_eq in E. rewrite Hentries in E |- *.
      rewrite length_app in E. simpl in E.
      destruct init; [reflexivity | simpl in E; lia].
    + rewrite filter_truthy_id; [reflexivity|].
      apply List.Forall_map. eapply List.Forall_impl; [|exact Hdeb].
      intros e He. exact (shouldDebounce_text core e He).
  - exists (with_content (nullish (entry_message last) no_message)
              (stringify_text merged)).
    split; [reflexivity|]. split; [reflexivity|]. split.
    + intros Htype. unfold MessageText.extractMessageText.
      cbn [content with_content stringify_text].
      rewrite Htype. reflexivity.
    + intros lm Hlm. rewrite Hlm. repeat split; reflexivity.
  - reflexivity.
  - reflexivity.
  - unfold turnOpts, syntheticOpts. cbn [wasMentioned].
    destruct (combinedMentioned entries) eqn:E.
    + split; [intros _|reflexivity].
      apply existsb_exists in E as (e & He & Hm). exists e.
      split; [exact He|].
      destruct (wasMentioned (entry_opts e)) as [[|]|]; [reflexivity | |];
        discriminate.
    + split.
      * intros Hl. exists last. split; [|exact Hl].
        rewrite Hentries. apply in_or_app. right. left. reflexivity.
      * intros (e & He & Hm). exfalso.
        assert (Ht : combinedMentioned entries = true).
        { apply existsb_exists. exists e. split; [exact He|].
          rewrite Hm. reflexivity. }
        rewrite Ht in E. discriminate.
  - intros prepared Hmany Hids c. unfold c, recordMessageIds.
    apply Nat.ltb_lt in Hmany. rewrite Hmany.
    destruct (memberIds entries) as [|i ids] eqn:E; [contradiction|].
    repeat split; reflexivity.
  - apply memberIds_omap.
  - apply memberIds_all.
Qed.

(** A turn whose text is blank never gets past [prepareFeishuMessage]. *)
Lemma prepare_blank_body (core : Core) (ctx : FeishuMonitorContext)
    (account : ResolvedFeishuAccount) (event : FeishuMessageEvent)
    (opts : Opts) (w : World) (m : FeishuMessage) :
  event_message event = Some m ->
  is_truthy (Some (trim (MessageText.extractMessageText m))) = false ->
  fst (prepareFeishuMessage core ctx account event opts w) = None.
Proof.
  intros Hm Hblank. unfold prepareFeishuMessage. rewrite Hm.
  destruct (event_sender event) as [s|]; [|reflexivity].
  destruct (truthy (chat_id m)) as [chatId|]; [|reflexivity].
  destruct (truthy (senderOpenId s)) as [senderId|]; [|reflexivity].
  destruct (negb (isChatAllowed ctx _)); [reflexivity|].
  match goal with
  | |- context [if ?b then checkDmAuthorization _ _ _ _ _ else _] =>
      destruct b
  end.
  - destruct (checkDmAuthorization core ctx chatId senderId w) as [[|] w1];
      [|reflexivity].
    unfold gateAndBuild. cbv zeta.
    match goal with |- context [if ?b then (None, w1) else _] => destruct b end;
      [reflexivity|].
    rewrite Hblank. reflexivity.
  - unfold gateAndBuild. cbv zeta.
    match goal with |- context [if ?b then (None, w) else _] => destruct b end;
      [reflexivity|].
    rewrite Hblank. reflexivity.
Qed.

(** X25.  The merged turn keeps the [message_type] of the last event
    while its content becomes [{ text }]: when the last event is a
    rich-text "post", [prepareFeishuMessage] reads the content as a post,
    finds no text and drops the turn. *)
Remark merged_post_turn_is_dropped (core : Core) (ctx : FeishuMonitorContext)
    (account : ResolvedFeishuAccount) (entries : list DebounceEntry)
    (last : DebounceEntry) (lm : FeishuMessage) (w : World) :
  entry_message last = Some lm ->
  message_type lm = lit "post" ->
  fst (prepareFeishuMessage core ctx account (syntheticEvent entries last)
         (syntheticOpts entries last) w) = None.
Proof.
  intros Hlm Hpost.
  apply (prepare_blank_body _ _ _ _ _ _
           (with_content lm (stringify_text (combinedText entries last)))).
  - unfold syntheticEvent. rewrite Hlm. reflexivity.
  - unfold MessageText.extractMessageText.
    cbn [content with_content stringify_text message_type].
    rewrite Hpost. reflexivity.
Qed.

(** C5, where the code fails it.  A bucket of one rich-text "post" message
    that reads "Plan", newline, "ship it": the claim promises a turn with
    that body.  [onFlush] hands [prepareFeishuMessage] the event with its
    type still "post" and the text object as its content, which reads as
    the empty text, and nothing is dispatched.  The same words sent as a
    "text" message by the same sender in the same chat are dispatched
    with that body. *)
Lemma onFlush_drops_post_bucket :
  let ctx := createFeishuMonitorContext MoreFixtures.relaxed_group_params in
  let flush entry :=
    onFlush sample_core ctx sample_account [entry] empty_world in
  let words := lit "Plan" ++ [LF] ++ lit "ship it" in
  entry_text MoreFixtures.post_entry = words /\
  combinedText [MoreFixtures.post_entry] MoreFixtures.post_entry = words /\
  dispatched (flush MoreFixtures.post_entry) = [] /\
  entry_text MoreFixtures.plain_twin = words /\
  map (fun p => RawBody (ctxPayload p))
    (dispatched (flush MoreFixtures.plain_twin)) = [words].
Proof.
  vm_compute. repeat split; reflexivity.
Qed.

Lemma onFlush_merges_witness :
  combinedText burst burst_last
  = lit "one" ++ [LF] ++ lit "two" ++ [LF] ++ lit "three" /\
  memberIds burst = [lit "om_1"; lit "om_2"; lit "om_3"].
Proof.
  destruct (onFlush_merges sample_core
              (createFeishuMonitorContext group_params) sample_account
              burst burst_last empty_world eq_refl)
    as (_ & _ & Hjoin & _ & _ & _ & _ & _ & Hids & _).
  split.
  - rewrite Hjoin; [reflexivity|].
    repeat constructor.
  - rewrite Hids. reflexivity.
Defined.

End MessageHandlerFacts.

(* ===================================================================== *)
(** * Properties of the surrounding code                                  *)
(* ===================================================================== *)

(** ** More on trimming *)

Module TrimFacts.

Import Js JsFacts.
Local Open Scope Z_scope.

Lemma trimStart_idem (s : text) : trimStart (trimStart s) = trimStart s.
Proof.
  induction s as [|c s IH]; simpl; [reflexivity|].
  destruct (is_white_space c) eqn:E; [exact IH|].
  simpl. rewrite E. reflexivity.
Qed.

Lemma trimStart_app (x y : text) :
  trimStart x <> [] -> trimStart (x ++ y) = trimStart x ++ y.
Proof.
  induction x as [|c x IH]; simpl; intros H; [contradiction|].
  destruct (is_white_space c); auto.
Qed.

Lemma trimStart_snoc (l : text) (c : ascii) :
  is_white_space c = false -> trimStart (l ++ [c]) = trimStart l ++ [c].
Proof.
  intros E. induction l as [|a l IH]; simpl.
  - rewrite E. reflexivity.
  - destruct (is_white_space a); [exact IH | reflexivity].
Qed.

Lemma trimStart_head (s : text) (c : ascii) (u : text) :
  trimStart s = c :: u -> is_white_space c = false.
Proof.
  induction s as [|a s IH]; simpl; [discriminate|].
  destruct (is_white_space a) eqn:E; intros H; [auto|].
  injection H as <- _. exact E.
Qed.

Lemma trimEnd_nil : trimEnd [] = [].
Proof. reflexivity. Qed.

Lemma trimEnd_cons (c : ascii) (s : text) :
  is_white_space c = false -> trimEnd (c :: s) = c :: trimEnd s.
Proof.
  intros E. unfold trimEnd. simpl rev.
  rewrite (trimStart_snoc _ _ E), rev_app_distr. reflexivity.
Qed.

Lemma trimEnd_idem (s : text) : trimEnd (trimEnd s) = trimEnd s.
Proof. unfold trimEnd. rewrite rev_involutive, trimStart_idem. reflexivity. Qed.

Lemma trimEnd_app (a b : text) :
  trimEnd b <> [] -> trimEnd (a ++ b) = a ++ trimEnd b.
Proof.
  unfold trimEnd. intros H.
  rewrite rev_app_distr, trimStart_app, rev_app_distr, rev_involutive.
  - reflexivity.
  - intros E. apply H. rewrite E. reflexivity.
Qed.

Lemma trimEnd_length (s : text) : (length (trimEnd s) <= length s)%nat.
Proof.
  unfold trimEnd. rewrite length_rev.
  etransitivity; [apply trimStart_length|]. rewrite length_rev. lia.
Qed.

(** Trimming a trimmed string changes nothing. *)
Lemma trim_idem (s : text) : trim (trim s) = trim s.
Proof.
  unfold trim. destruct (trimStart s) as [|c u] eqn:E; [reflexivity|].
  pose proof (trimStart_head _ _ _ E) as Hc.
  rewrite (trimEnd_cons _ _ Hc). simpl trimStart. rewrite Hc.
  rewrite (trimEnd_cons _ _ Hc), trimEnd_idem. reflexivity.
Qed.

Lemma trimStart_same_length (s : text) :
  length (trimStart s) = length s -> trimStart s = s.
Proof.
  destruct s as [|c s]; simpl; [reflexivity|].
  destruct (is_white_space c); [|reflexivity].
  intros H. pose proof (trimStart_length s). lia.
Qed.

(** A string that [trim] leaves alone has no white space at either end. *)
Lemma trim_fixed (s : text) :
  trim s = s -> trimStart s = s /\ trimEnd s = s.
Proof.
  intros H.
  assert (Hs : trimStart s = s).
  { apply trimStart_same_length.
    pose proof (trimStart_length s).
    pose proof (trimEnd_length (trimStart s)) as Hl.
    unfold trim in H. rewrite H in Hl. lia. }
  split; [exact Hs|]. unfold trim in H. rewrite Hs in H. exact H.
Qed.

Lemma trim_app_fixed (a b : text) :
  trimStart a = a -> a <> [] -> trimEnd b = b -> b <> [] ->
  trim (a ++ b) = a ++ b.
Proof.
  intros Ha Hna Hb Hnb. unfold trim.
  rewrite trimStart_app by (rewrite Ha; exact Hna).
  rewrite Ha, trimEnd_app by (rewrite Hb; exact Hnb).
  rewrite Hb. reflexivity.
Qed.

(** A string with a character that is not white space does not trim to
    nothing. *)
Lemma trim_nonempty (s : text) : non_white_space s <> [] -> trim s <> [].
Proof.
  intros H E. apply H. rewrite <- trim_non_white_space, E. reflexivity.
Qed.

Lemma is_truthy_nonempty (s : text) : is_truthy (Some s) = true <-> s <> [].
Proof.
  destruct s; simpl; split; intros H; try discriminate; try reflexivity.
  contradiction.
Qed.

Lemma is_truthy_empty (s : text) : is_truthy (Some s) = false <-> s = [].
Proof.
  destruct s; simpl; split; intros H; try discriminate; reflexivity.
Qed.

Lemma truthy_Some (o : option text) (s : text) :
  truthy o = Some s <-> o = Some s /\ s <> [].
Proof.
  destruct o as [[|c t]|]; simpl; split.
  - discriminate.
  - intros [H Hn]. injection H as <-. contradiction.
  - intros H. injection H as <-. split; [reflexivity | discriminate].
  - intros [H _]. exact H.
  - discriminate.
  - intros [H _]. discriminate.
Qed.

End TrimFacts.

(** ** threading.ts: where a reply goes *)

Module ReplyParamsFacts.

Import Js Types Threading TrimFacts.

Lemma trimmed_or_undefined_nonempty (x : option text) (v : text) :
  trimmed_or_undefined x = Some v -> v <> [].
Proof.
  unfold trimmed_or_undefined. destruct x as [s|]; [|discriminate].
  intros H. apply truthy_Some in H. tauto.
Qed.

(** X1.  [buildFeishuReplyParams] applied to the context
    [resolveFeishuThreadContext] builds: a message with a root id is
    answered to its parent, or to its root when it has no parent, and the
    [messageId] argument plays no part; a message without a root id is
    answered to [messageId] when that is not empty, and to nothing
    otherwise.  Ids are taken after the trim of
    [resolveFeishuThreadContext]; a blank id counts as missing. *)
Theorem buildFeishuReplyParams_of_message (message : FeishuMessage)
    (messageId : option text) :
  buildFeishuReplyParams (resolveFeishuThreadContext message) messageId =
  match trimmed_or_undefined (root_id message) with
  | Some r => Some (nullish (trimmed_or_undefined (parent_id message)) r)
  | None => truthy messageId
  end.
Proof.
  unfold buildFeishuReplyParams, resolveFeishuThreadContext.
  destruct (trimmed_or_undefined (root_id message)) as [r|] eqn:Er;
    [|reflexivity].
  cbn [isThreadReply replyToId andb].
  assert (Hne : nullish (trimmed_or_undefined (parent_id message)) r <> []).
  { destruct (trimmed_or_undefined (parent_id message)) as [p|] eqn:Ep;
      simpl; eauto using trimmed_or_undefined_nonempty. }
  apply is_truthy_nonempty in Hne. rewrite Hne. reflexivity.
Qed.

End ReplyParamsFacts.

(** ** monitor/context.ts: chats outside the group policy, allowlists *)

Module AllowFacts.

Import Js Types Context Notions TrimFacts PrepareFacts.

Lemma normalizeFeishuChatType_named (t : FeishuChatType)
    (chatId : option text) :
  normalizeFeishuChatType (Some (chat_type_name t)) chatId = t.
Proof. destruct t; vm_compute; reflexivity. Qed.

(** X2.  Outside group conversations the group policy is not consulted:
    for a direct conversation [isChatAllowed] is the [dmEnabled] switch,
    whatever the chat id, and a group reference that carries no chat id
    (undefined or empty) is allowed under every policy, "disabled"
    included. *)
Theorem isChatAllowed_outside_groups (params : FeishuMonitorParams)
    (chatId : option text) :
  let ctx := createFeishuMonitorContext params in
  isChatAllowed ctx {| ref_chatId := chatId; ref_chatType := Some direct |}
  = p_dmEnabled params /\
  isChatAllowed ctx {| ref_chatId := None; ref_chatType := Some group |}
  = true /\
  isChatAllowed ctx {| ref_chatId := Some []; ref_chatType := Some group |}
  = true.
Proof.
  cbn [isChatAllowed createFeishuMonitorContext ref_chatId ref_chatType
       option_map].
  rewrite !normalizeFeishuChatType_named.
  cbn [chat_type_eqb andb negb truthy].
  destruct (p_dmEnabled params); repeat split; reflexivity.
Qed.

Lemma filter_trim_fixed (l : list text) :
  Forall (fun e => e <> [] /\ trim e = e) l ->
  List.filter (fun e => is_truthy (Some e)) (map trim l) = l.
Proof.
  induction 1 as [|e l [Hne He] _ IH]; [reflexivity|].
  simpl. rewrite He.
  apply is_truthy_nonempty in Hne. rewrite Hne. f_equal. exact IH.
Qed.

(** X3.  The allowlist [createFeishuMonitorContext] keeps is normalized:
    no entry is empty or has white space around it, and normalizing it
    again changes nothing. *)
Theorem normalizeAllowList_normal (l : option (list text)) :
  Forall (fun e => e <> [] /\ trim e = e) (normalizeAllowList l) /\
  normalizeAllowList (Some (normalizeAllowList l)) = normalizeAllowList l.
Proof.
  assert (H : Forall (fun e => e <> [] /\ trim e = e)
                (normalizeAllowList l)).
  { destruct l as [l|]; [|constructor]. simpl.
    apply List.Forall_forall. intros e He.
    apply filter_In in He as [Hin Ht].
    apply in_map_iff in Hin as (x & <- & _).
    split; [apply is_truthy_nonempty, Ht | apply trim_idem]. }
  split; [exact H|]. apply filter_trim_fixed, H.
Qed.

(** X4.  The two allowlist checks agree on every input, and
    [resolveFeishuAllowListMatch] names a match source exactly when it
    allows. *)
Theorem allowlist_checks_agree (allowList : list text) (id_ : text)
    (name_ : option text) :
  let m := resolveFeishuAllowListMatch allowList id_ name_ in
  allowed m = isFeishuUserAllowed allowList id_ name_ /\
  (allowed m = true <-> matchSource m <> None).
Proof.
  unfold resolveFeishuAllowListMatch, isFeishuUserAllowed.
  destruct (Nat.eqb (length allowList) 0).
  { simpl. split; [reflexivity|]. split; [discriminate | congruence]. }
  destruct (includes allowList (lit "*")).
  { simpl. split; [reflexivity|]. split; [discriminate | reflexivity]. }
  destruct (includes (map toLowerCase allowList) (toLowerCase id_)).
  { simpl. split; [reflexivity|]. split; [discriminate | reflexivity]. }
  destruct name_ as [n|]; simpl.
  - destruct (includes (map toLowerCase allowList) (toLowerCase n)); simpl;
      (split; [reflexivity|]); split; try discriminate; try reflexivity;
      congruence.
  - split; [reflexivity|]. split; [discriminate | congruence].
Qed.

Lemma to_lower_char_idem (c : ascii) :
  to_lower_char (to_lower_char c) = to_lower_char c.
Proof.
  destruct c as [[] [] [] [] [] [] [] []]; vm_compute; reflexivity.
Qed.

Lemma to_lower_char_star (c : ascii) :
  to_lower_char c = "*"%char -> c = "*"%char.
Proof.
  destruct c as [[] [] [] [] [] [] [] []]; vm_compute; intros H;
    first [reflexivity | discriminate H].
Qed.

Lemma toLowerCase_idem (s : text) :
  toLowerCase (toLowerCase s) = toLowerCase s.
Proof.
  unfold toLowerCase. rewrite map_map. apply map_ext.
  apply to_lower_char_idem.
Qed.

Lemma toLowerCase_star (e : text) :
  toLowerCase e = lit "*" <-> e = lit "*".
Proof.
  split; [|intros ->; reflexivity].
  destruct e as [|c [|d e]]; try discriminate.
  intros H. injection H as H. apply to_lower_char_star in H. subst.
  reflexivity.
Qed.

Lemma includes_star_lower (l : list text) :
  includes (map toLowerCase l) (lit "*") = includes l (lit "*").
Proof.
  apply eq_true_iff_eq. rewrite includes_lower, includes_In. split.
  - intros (e & He & Hl). apply (proj1 (toLowerCase_star e)) in Hl.
    subst. exact He.
  - intros H. exists (lit "*"). split; [exact H | reflexivity].
Qed.

(** X5.  Allowlist matching ignores letter case on both sides: lowering
    the entries, the user id and the user name does not change the
    answer of [isFeishuUserAllowed]. *)
Theorem isFeishuUserAllowed_ignores_case (allowList : list text)
    (userId : text) (userName : option text) :
  isFeishuUserAllowed (map toLowerCase allowList) (toLowerCase userId)
    (option_map toLowerCase userName)
  = isFeishuUserAllowed allowList userId userName.
Proof.
  unfold isFeishuUserAllowed.
  rewrite length_map, includes_star_lower.
  destruct (Nat.eqb (length allowList) 0); [reflexivity|].
  destruct (includes allowList (lit "*")); [reflexivity|].
  rewrite map_map, (map_ext _ _ toLowerCase_idem), toLowerCase_idem.
  destruct userName as [n|]; simpl; [|reflexivity].
  rewrite toLowerCase_idem. reflexivity.
Qed.

End AllowFacts.

(** ** monitor/context.ts: chat ids that name an inherited property *)

Module InheritedFacts.

Import Js Types Context Notions Fixtures MoreFixtures ContextFacts.

(** X27.  The group configuration is read with the chat id as a property
    name, so a chat id that names a property every object inherits
    ([constructor], [toString], [__proto__], ...) and that the
    configuration does not hold itself finds the inherited member instead
    of falling back to the wildcard entry.  The member is truthy and none
    of the settings of a group is defined on it: under "allowlist" such a
    group is allowed whatever the configured entries are, a wildcard
    entry that is switched off included, and [prepareFeishuMessage]
    reads a group entry without a user list or a mention setting. *)
Theorem isChatAllowed_inherited_name (params : FeishuMonitorParams)
    (m : gmap text GroupConfig) (chatId : text) :
  p_groupPolicy params = policy_allowlist ->
  p_groupsConfig params = Some m ->
  inherited chatId = true ->
  m !! chatId = None ->
  group_entry (Some m) chatId = Some inherited_member /\
  isChatAllowed (createFeishuMonitorContext params)
    {| ref_chatId := Some chatId; ref_chatType := Some group |} = true.
Proof.
  intros Hpol Hm Hin Hown.
  assert (Hentry : group_entry (Some m) chatId = Some inherited_member).
  { unfold group_entry.
    rewrite (get_property_inherited m chatId Hin Hown). reflexivity. }
  split; [exact Hentry|].
  assert (Hne : truthy (Some chatId) = Some chatId).
  { destruct chatId; [discriminate Hin | reflexivity]. }
  rewrite (isChatAllowed_group_eq params
             {| ref_chatId := Some chatId; ref_chatType := Some group |}
             chatId
             (AllowFacts.normalizeFeishuChatType_named group (Some chatId))
             Hne).
  rewrite Hpol, Hm, Hentry.
  destruct (Nat.eqb (size m) 0); reflexivity.
Qed.

Lemma isChatAllowed_inherited_name_witness :
  isChatAllowed
    (createFeishuMonitorContext (with_groups closed_groups default_params))
    (group_chat (lit "constructor")) = true /\
  isChatAllowed
    (createFeishuMonitorContext (with_groups closed_groups default_params))
    (group_chat (lit "oc_2")) = false.
Proof.
  split.
  - apply (isChatAllowed_inherited_name
             (with_groups closed_groups default_params) closed_groups
             (lit "constructor")); reflexivity.
  - reflexivity.
Defined.

End InheritedFacts.

(** ** monitor/message-handler.ts: debounce buckets, enqueueing *)

Module BucketFacts.

Import Js Types Context Core Prepare MessageHandler Notions MoreNotions
  Fixtures.
Local Open Scope Z_scope.

Lemma split_first (c : ascii) (x x' y y' : text) :
  x ++ c :: y = x' ++ c :: y' -> ~ In c x -> ~ In c x' ->
  x = x' /\ y = y'.
Proof.
  revert x'. induction x as [|a x IH]; intros [|a' x'] H Hx Hx'.
  - injection H as ->. auto.
  - injection H as <- _. exfalso. apply Hx'. left. reflexivity.
  - injection H as -> _. exfalso. apply Hx. left. reflexivity.
  - injection H as <- H.
    destruct (IH x' H) as [-> ->].
    + intros Hin. apply Hx. right. exact Hin.
    + intros Hin. apply Hx'. right. exact Hin.
    + auto.
Qed.

Lemma split_last (c : ascii) (x x' y y' : text) :
  x ++ c :: y = x' ++ c :: y' -> ~ In c y -> ~ In c y' ->
  x = x' /\ y = y'.
Proof.
  intros H Hy Hy'.
  assert (Hr : rev y ++ c :: rev x = rev y' ++ c :: rev x').
  { apply (f_equal (@rev ascii)) in H.
    rewrite !rev_app_distr in H. simpl in H.
    rewrite <- !app_assoc in H. exact H. }
  apply split_first in Hr as [Hy1 Hx1].
  - apply (f_equal (@rev ascii)) in Hy1, Hx1.
    rewrite !rev_involutive in Hy1, Hx1. auto.
  - rewrite <- in_rev. exact Hy.
  - rewrite <- in_rev. exact Hy'.
Qed.

(** The thread part of a key: the chat alone, or the chat and the root. *)
Lemma buildKey_eq (ctx : FeishuMonitorContext) (e : DebounceEntry) :
  buildKey ctx e =
  match key_sender e with
  | None => None
  | Some s =>
      Some (lit "feishu:" ++ accountId ctx ++ lit ":"
            ++ match key_root e with
               | Some r => key_chat e ++ lit ":" ++ r
               | None => key_chat e
               end
            ++ lit ":" ++ s)
  end.
Proof.
  unfold buildKey, key_sender, key_chat, key_root, senderOpenId.
  destruct (event_sender (entry_event e)) as [s|]; [|reflexivity].
  destruct (truthy _) as [i|]; [|reflexivity].
  destruct (entry_message e) as [m|]; reflexivity.
Qed.

Lemma thread_part_inj (c1 c2 : text) (r1 r2 : option text) :
  colon_free c1 -> colon_free c2 ->
  match r1 with Some r => colon_free r | None => True end ->
  match r2 with Some r => colon_free r | None => True end ->
  match r1 with Some r => c1 ++ lit ":" ++ r | None => c1 end
  = match r2 with Some r => c2 ++ lit ":" ++ r | None => c2 end ->
  c1 = c2 /\ r1 = r2.
Proof.
  unfold colon_free. intros H1 H2 Hr1 Hr2 H.
  destruct r1 as [r1|], r2 as [r2|].
  - apply split_first in H as [-> ->]; auto.
  - exfalso. apply H2. rewrite <- H. apply in_or_app. right. left.
    reflexivity.
  - exfalso. apply H1. rewrite H. apply in_or_app. right. left.
    reflexivity.
  - auto.
Qed.

(** X6.  Debounce buckets are exactly the classes of (sender, chat,
    thread root): for ids that hold no colon, two entries of one account
    get the same key if and only if they have the same sender open id,
    the same chat id and the same root id (or both none).  An entry has
    no key exactly when its sender open id is missing or empty. *)
Theorem buildKey_buckets (ctx : FeishuMonitorContext)
    (e1 e2 : DebounceEntry) (s1 s2 : text) :
  key_sender e1 = Some s1 -> key_sender e2 = Some s2 ->
  colon_free s1 -> colon_free s2 ->
  colon_free (key_chat e1) -> colon_free (key_chat e2) ->
  match key_root e1 with Some r => colon_free r | None => True end ->
  match key_root e2 with Some r => colon_free r | None => True end ->
  (buildKey ctx e1 = buildKey ctx e2 <->
   s1 = s2 /\ key_chat e1 = key_chat e2 /\ key_root e1 = key_root e2) /\
  (forall e, buildKey ctx e = None <-> key_sender e = None).
Proof.
  intros Hs1 Hs2 Hc1 Hc2 Hk1 Hk2 Hr1 Hr2. split.
  - rewrite !buildKey_eq, Hs1, Hs2. split.
    + intros H. injection H as H.
      apply app_inv_head in H. injection H as H.
      apply split_last in H as [H ->]; [|exact Hc1 | exact Hc2].
      apply thread_part_inj in H as [-> ->]; auto.
    + intros (-> & -> & ->). reflexivity.
  - intros e. rewrite buildKey_eq.
    destruct (key_sender e); split; intros H; try discriminate; reflexivity.
Qed.

Lemma buildKey_buckets_witness :
  buildKey (createFeishuMonitorContext group_params) burst_last
  = buildKey (createFeishuMonitorContext group_params)
      {| entry_event := first_message; entry_opts := no_opts |}.
Proof.
  apply (buildKey_buckets (createFeishuMonitorContext group_params)
           burst_last {| entry_event := first_message; entry_opts := no_opts |}
           (lit "ou_user") (lit "ou_user"));
    try reflexivity;
    try (vm_compute; intros H; repeat (destruct H as [H|H]; [discriminate|]);
         exact H);
    try exact I.
  repeat split; reflexivity.
Defined.

Lemma handler_appends (ctx : FeishuMonitorContext)
    (event : FeishuMessageEvent) (opts : Opts) (w : World) :
  let w' := handler ctx event opts w in
  (enqueued w' = enqueued w \/
   (event_message event <> None /\
    enqueued w' =
    enqueued w ++ [{| entry_event := event; entry_opts := opts |}])) /\
  clock w' = clock w /\
  chatHistories w' = chatHistories w /\
  pairingRequests w' = pairingRequests w /\
  outbox w' = outbox w /\
  systemEvents w' = systemEvents w /\
  sessions w' = sessions w /\
  dispatched w' = dispatched w.
Proof.
  unfold handler. destruct (event_message event) as [m|].
  - destruct (markMessageSeen ctx _ _ _ _) as [[|] cache]; simpl.
    + repeat split; try reflexivity. left. reflexivity.
    + repeat split; try reflexivity. right. split; [discriminate|].
      reflexivity.
  - simpl. repeat split; try reflexivity. left. reflexivity.
Qed.

(** X7.  Whatever the deduplicator answers, the handler only ever adds
    to the debounce queue: after any run of deliveries the queue is the
    old queue followed by entries of those deliveries, each at most once
    and in arrival order, all of them events with a message; the pending
    histories, the pairing store, the outbox, the system events, the
    session records and the dispatched turns are untouched. *)
Theorem deliver_all_appends (ctx : FeishuMonitorContext)
    (ds : list Delivery) (w : World) :
  let w' := deliver_all ctx ds w in
  (exists added,
     enqueued w' = enqueued w ++ added /\
     sublist added (map delivered_entry ds) /\
     Forall (fun e => entry_message e <> None) added) /\
  chatHistories w' = chatHistories w /\
  pairingRequests w' = pairingRequests w /\
  outbox w' = outbox w /\
  systemEvents w' = systemEvents w /\
  sessions w' = sessions w /\
  dispatched w' = dispatched w.
Proof.
  unfold deliver_all. revert w.
  induction ds as [|d ds IH]; intros w.
  - simpl. split; [|repeat split; reflexivity].
    exists []. rewrite app_nil_r. repeat split; constructor.
  - simpl fold_left.
    destruct (IH (deliver ctx d w))
      as ((added & Hq & Hsub & Hmsg) & Hh & Hp & Ho & Hs & Hr & Hd).
    unfold deliver in Hq, Hh, Hp, Ho, Hs, Hr, Hd |- *.
    destruct (handler_appends ctx (delivered_event d) (delivered_opts d)
                (with_clock (at_time d) w))
      as (Hq1 & _ & Hh1 & Hp1 & Ho1 & Hs1 & Hr1 & Hd1).
    cbv zeta in *.
    split.
    + destruct Hq1 as [Hsame | [Hm Hadd]].
      * exists added. split; [rewrite Hq, Hsame; reflexivity|].
        split; [|exact Hmsg]. simpl. apply sublist_cons, Hsub.
      * exists (delivered_entry d :: added).
        split; [rewrite Hq, Hadd, <- app_assoc; reflexivity|].
        split; [simpl; apply sublist_skip, Hsub|].
        constructor; [exact Hm | exact Hmsg].
    + rewrite Hh, Hp, Ho, Hs, Hr, Hd, Hh1, Hp1, Ho1, Hs1, Hr1, Hd1.
      repeat split; reflexivity.
Qed.

End BucketFacts.

(** ** monitor/events and monitor/provider.ts: what reaches the debouncer *)

Module EventsFacts.

Import Js Types Context Core Prepare MessageHandler Notions MoreNotions
  Fixtures.
Local Open Scope Z_scope.

Lemma no_growth {A : Type} (l : list A) (x : A) : l <> l ++ [x].
Proof.
  intros H. apply (f_equal (@length A)) in H.
  rewrite length_app in H. simpl in H. lia.
Qed.

(** X8.  The provider hands an event to the debouncer only when it is an
    ["im.message.receive_v1"] event that carries a message and a sender,
    the sender is not an app, and its application id, when both ids are
    known, is the configured one; the entry then holds the event itself
    with [wasMentioned] set to whether one of its mentions has the bot's
    open id.  Only the dedupe cache and the queue can change. *)
Theorem provider_handleEvent_enqueues (ctx : FeishuMonitorContext)
    (event : FeishuMessageEvent) (w : World) :
  let w' := Provider.handleEvent ctx event w in
  (enqueued w' = enqueued w \/
   exists message sender_,
     event_type (header event) = lit "im.message.receive_v1" /\
     event_message event = Some message /\
     event_sender event = Some sender_ /\
     sender_type sender_ <> lit "app" /\
     (appId ctx = [] \/ app_id (header event) = [] \/
      app_id (header event) = appId ctx) /\
     enqueued w' =
     enqueued w ++
     [{| entry_event := event;
         entry_opts :=
           {| wasMentioned :=
                Some (isExplicitlyMentioned (explicitMention ctx message))
           |} |}]) /\
  clock w' = clock w /\
  chatHistories w' = chatHistories w /\
  pairingRequests w' = pairingRequests w /\
  outbox w' = outbox w /\
  systemEvents w' = systemEvents w /\
  sessions w' = sessions w /\
  dispatched w' = dispatched w.
Proof.
  unfold Provider.handleEvent.
  destruct (is_truthy (Some (app_id (header event)))
            && ContextGuards.shouldDropMismatchedEvent ctx
                 (Some (app_id (header event))))%bool eqn:Edrop.
  { cbv zeta. repeat split; try reflexivity. left. reflexivity. }
  assert (Happ : appId ctx = [] \/ app_id (header event) = [] \/
                 app_id (header event) = appId ctx).
  { unfold ContextGuards.shouldDropMismatchedEvent in Edrop.
    cbn [nullish] in Edrop.
    destruct (appId ctx) as [|a i] eqn:Ea; [left; reflexivity|].
    destruct (app_id (header event)) as [|b j] eqn:Eb;
      [right; left; reflexivity|].
    right. right. cbn [is_truthy truthy negb andb] in Edrop.
    destruct (text_eqb (b :: j) (a :: i)) eqn:Eq; [|discriminate].
    apply DedupeFacts.text_eqb_eq in Eq. exact Eq. }
  unfold Events.handleEvent. cbv zeta.
  destruct (text_eqb (event_type (header event))
              (lit "im.message.receive_v1")) eqn:Etype;
    [|repeat split; try reflexivity; left; reflexivity].
  apply DedupeFacts.text_eqb_eq in Etype.
  unfold Events.handleMessageReceive.
  destruct (event_message event) as [message|] eqn:Em;
    [|repeat split; try reflexivity; left; reflexivity].
  destruct (event_sender event) as [sender_|] eqn:Es;
    [|repeat split; try reflexivity; left; reflexivity].
  destruct (text_eqb (sender_type sender_) (lit "app")) eqn:Eapp;
    [repeat split; try reflexivity; left; reflexivity|].
  apply DedupeFacts.text_eqb_neq in Eapp.
  match goal with
  | |- context [handler ctx event ?o w] =>
      destruct (BucketFacts.handler_appends ctx event o w)
        as (Hq & Hc & Hrest)
  end.
  split; [|split; [exact Hc | exact Hrest]].
  destruct Hq as [Hsame | [_ Hadd]]; [left; exact Hsame|].
  right. exists message, sender_. repeat split; auto.
Qed.

Lemma received_opts (ctx : FeishuMonitorContext) (e : DebounceEntry) :
  received ctx e ->
  wasMentioned (entry_opts e) = Some (mentions_bot ctx e).
Proof.
  intros [w H]. unfold Events.handleMessageReceive in H.
  unfold mentions_bot, entry_message.
  destruct (event_message (entry_event e)) as [message|];
    [|exfalso; exact (no_growth _ _ H)].
  destruct (event_sender (entry_event e)) as [sender_|];
    [|exfalso; exact (no_growth _ _ H)].
  destruct (text_eqb (sender_type sender_) (lit "app"));
    [exfalso; exact (no_growth _ _ H)|].
  match type of H with
  | context [handler ctx ?ev ?o w] =>
      destruct (BucketFacts.handler_appends ctx ev o w) as (Hq & _)
  end.
  destruct Hq as [Hsame | [_ Hadd]].
  - rewrite Hsame in H. exfalso. exact (no_growth _ _ H).
  - rewrite Hadd in H. apply app_inv_head in H. injection H as <-.
    reflexivity.
Qed.

(** X9.  For a bucket of entries that came through
    [handleMessageReceive], the mention flag [prepareFeishuMessage] works
    with on flush is whether some member mentions the bot by open id;
    [wasMentioned] is always set on this path, so the text patterns of
    [matchesMentionWithExplicit] are never consulted. *)
Theorem mention_flag_of_received_bucket (core : Core)
    (ctx : FeishuMonitorContext) (entries : list DebounceEntry)
    (last : DebounceEntry) (isDirectMessage_ : bool)
    (message : FeishuMessage) (rawBody : text) (mentionRegexes : list text) :
  Forall (received ctx) entries ->
  last_entry entries = Some last ->
  resolveWasMentioned core ctx (syntheticOpts entries last) isDirectMessage_
    message rawBody mentionRegexes
  = existsb (mentions_bot ctx) entries.
Proof.
  intros Hall Hlast.
  assert (Hflags : combinedMentioned entries
                   = existsb (mentions_bot ctx) entries).
  { unfold combinedMentioned. clear Hlast.
    induction Hall as [|e es He _ IH]; [reflexivity|].
    simpl. rewrite (received_opts _ _ He), IH. reflexivity. }
  unfold resolveWasMentioned, syntheticOpts. cbn [wasMentioned].
  rewrite Hflags.
  destruct (existsb (mentions_bot ctx) entries) eqn:E; [reflexivity|].
  apply MessageHandlerFacts.last_entry_inv in Hlast as (init & ->).
  apply Forall_app in Hall as [_ Hl]. inversion Hl as [|? ? He _]; subst.
  rewrite (received_opts _ _ He).
  rewrite existsb_app in E. apply orb_false_elim in E as [_ E].
  simpl in E. rewrite orb_false_r in E. exact E.
Qed.

Lemma mention_flag_of_received_bucket_witness :
  resolveWasMentioned sample_core (createFeishuMonitorContext group_params)
    (syntheticOpts
       [{| entry_event := mentioning_message;
           entry_opts := {| wasMentioned := Some true |} |}]
       {| entry_event := mentioning_message;
          entry_opts := {| wasMentioned := Some true |} |})
    false reply_message (lit "@bot status?") []
  = true.
Proof.
  rewrite (mention_flag_of_received_bucket sample_core
             (createFeishuMonitorContext group_params)
             [{| entry_event := mentioning_message;
                 entry_opts := {| wasMentioned := Some true |} |}]
             {| entry_event := mentioning_message;
                entry_opts := {| wasMentioned := Some true |} |}).
  - reflexivity.
  - constructor; [|constructor]. exists empty_world. reflexivity.
  - reflexivity.
Defined.

(** X10.  The three places that decide whether the bot was mentioned
    agree: [wasBotMentioned] on the result of [extractMentions], the
    flag [handleMessageReceive] computes, and [isExplicitlyMentioned] of
    [prepareFeishuMessage]. *)
Theorem mention_checks_agree (ctx : FeishuMonitorContext)
    (message : FeishuMessage) :
  Events.wasBotMentioned (Events.extractMentions message) (botOpenId ctx)
  = isExplicitlyMentioned (explicitMention ctx message) /\
  match truthy (botOpenId ctx) with
  | Some bot =>
      existsb (Events.mentions_id bot) (nullish (mentions message) [])
  | None => false
  end = isExplicitlyMentioned (explicitMention ctx message).
Proof.
  split; [|reflexivity].
  unfold Events.wasBotMentioned, Events.extractMentions, explicitMention.
  cbn [isExplicitlyMentioned].
  destruct (truthy (botOpenId ctx)) as [bot|]; [|reflexivity].
  induction (nullish (mentions message) []) as [|m ms IH]; [reflexivity|].
  simpl. rewrite IH. f_equal.
  destruct (mention_id m) as [i|]; simpl.
  - destruct (open_id i) as [o|]; simpl.
    + unfold text_eqb. apply bool_decide_ext. split; congruence.
    + reflexivity.
  - reflexivity.
Qed.

End EventsFacts.

(** ** monitor/message-handler/prepare.ts: the gates as a whole *)

Module GateFacts.

Import Js Types Threading Context Core MessageText Prepare Notions
  MoreNotions Fixtures TrimFacts PrepareFacts.
Local Open Scope Z_scope.

(** The two ways [checkDmAuthorization] ends: it leaves the world alone,
    letting the turn on only for an enabled, open or matched sender; or it
    is the pairing branch, which stops the turn. *)
Lemma checkDmAuthorization_outcomes (core : Core)
    (ctx : FeishuMonitorContext) (chatId senderId : text) (w : World) :
  let r := checkDmAuthorization core ctx chatId senderId w in
  (snd r = w /\
   (fst r = true ->
    dmEnabled ctx = true /\
    (dmPolicy ctx = dm_open \/
     ((dmPolicy ctx = dm_pairing \/ dmPolicy ctx = dm_allowlist) /\
      id_matches (allowFrom ctx) senderId))) /\
   (fst r = false ->
    dmEnabled ctx = false \/ dmPolicy ctx = dm_disabled \/
    (dmPolicy ctx = dm_allowlist /\ ~ id_matches (allowFrom ctx) senderId)))
  \/
  (fst r = false /\ dmEnabled ctx = true /\ dmPolicy ctx = dm_pairing /\
   ~ id_matches (allowFrom ctx) senderId /\
   exists store sent,
     snd r = with_outbox (outbox w ++ sent) (with_pairingRequests store w) /\
     (length sent <= 1)%nat /\
     Forall (fun m => sent_to m = chatId) sent).
Proof.
  unfold checkDmAuthorization.
  destruct (dmEnabled ctx) eqn:Een.
  2:{ left. simpl. repeat split; try discriminate; auto;
        destruct (dmPolicy ctx); simpl; auto; discriminate. }
  destruct (dmPolicy ctx) eqn:Epol.
  - left. simpl. repeat split; auto; discriminate.
  - destruct (allowed (resolveFeishuAllowListMatch (allowFrom ctx) senderId
                         None)) eqn:Eal.
    + apply resolveFeishuAllowListMatch_id_spec in Eal.
      left. simpl. repeat split; auto; discriminate.
    + assert (Hno : ~ id_matches (allowFrom ctx) senderId).
      { intros Hm. apply resolveFeishuAllowListMatch_id_spec in Hm.
        rewrite Hm in Eal. discriminate. }
      right.
      destruct (upsertChannelPairingRequest core (lit "feishu") senderId
                  (user_name (resolveUserName ctx senderId)) (clock w)
                  (pairingRequests w)) as [up store] eqn:Eup.
      destruct (created up) eqn:Ecr; cbn [fst snd].
      * repeat split; auto.
        eexists store, [_]. split; [reflexivity|].
        split; [simpl; lia|]. constructor; [reflexivity | constructor].
      * repeat split; auto.
        exists store, []. split.
        { unfold with_outbox, with_pairingRequests. cbn.
          rewrite app_nil_r. reflexivity. }
        split; [simpl; lia | constructor].
  - destruct (allowed (resolveFeishuAllowListMatch (allowFrom ctx) senderId
                         None)) eqn:Eal.
    + apply resolveFeishuAllowListMatch_id_spec in Eal.
      left. simpl. repeat split; auto; discriminate.
    + assert (Hno : ~ id_matches (allowFrom ctx) senderId).
      { intros Hm. apply resolveFeishuAllowListMatch_id_spec in Hm.
        rewrite Hm in Eal. discriminate. }
      left. simpl. repeat split; auto; discriminate.
  - left. simpl. repeat split; auto; discriminate.
Qed.

Section Built.

Variables (core : Core) (ctx : FeishuMonitorContext)
  (account : ResolvedFeishuAccount) (event : FeishuMessageEvent)
  (message : FeishuMessage) (chatId senderId senderName rawBody : text)
  (chatName : option text) (isDirectMessage_ : bool)
  (groupConfig_ : option GroupConfig) (route_ : AgentRoute)
  (threadContext_ : FeishuThreadContext) (threadKeys : ThreadSessionKeys)
  (historyKey_ : text) (effectiveWasMentioned_ commandAuthorized_ : bool)
  (w : World).

Let built :=
  buildPrepared core ctx account event message chatId senderId senderName
    rawBody chatName isDirectMessage_ groupConfig_ route_ threadContext_
    threadKeys historyKey_ effectiveWasMentioned_ commandAuthorized_ w.

(** A built turn records one system event and one session record, and
    nothing else; the prepared message is about the event and the thread
    it was built from. *)
Lemma buildPrepared_outcome :
  (exists ev rec,
     snd built =
     with_sessions (sessions w ++ [rec])
       (with_systemEvents (systemEvents w ++ [ev]) w)) /\
  (forall p, fst built = Some p ->
     prepared_event p = event /\
     isDirectMessage p = isDirectMessage_ /\
     isGroup p = negb isDirectMessage_ /\
     threadContext p = threadContext_ /\
     historyKey p = historyKey_ /\
     groupConfig p = groupConfig_ /\
     replyTarget p <> []).
Proof.
  unfold built, buildPrepared. cbv zeta.
  match goal with
  | |- context [truthy (To ?c)] => destruct (truthy (To c)) as [t|] eqn:Et
  end; cbn [fst snd].
  - split; [eexists _, _; reflexivity|].
    intros p Hp. injection Hp as <-. cbn.
    repeat split; try reflexivity.
    apply truthy_Some in Et. tauto.
  - split; [eexists _, _; reflexivity|]. intros p Hp. discriminate.
Qed.

End Built.

Section Gates.

Variables (core : Core) (ctx : FeishuMonitorContext)
  (account : ResolvedFeishuAccount) (event : FeishuMessageEvent)
  (opts : Opts) (message : FeishuMessage) (sender_ : FeishuSender)
  (chatId senderId : text) (chatName : option text)
  (isDirectMessage_ : bool) (groupConfig_ : option GroupConfig) (w : World).

Let isGroup_ := negb isDirectMessage_.
Let senderName := resolveSenderName ctx sender_ senderId.
Let rawBody := extractMessageText message.
Let route_ := turnRoute core account isDirectMessage_ chatId senderId.
Let mentionRegexes := buildMentionRegexes core (agentId route_).
Let gate :=
  commandGate core ctx isGroup_ groupConfig_ senderId senderName rawBody.
Let mention :=
  mentionGate core ctx isGroup_ groupConfig_ message mentionRegexes
    (resolveWasMentioned core ctx opts isDirectMessage_ message rawBody
       mentionRegexes)
    rawBody (commandAuthorized gate).
Let run :=
  gateAndBuild core ctx account event opts message sender_ chatId senderId
    chatName isDirectMessage_ groupConfig_ w.

(** The four ways [gateAndBuild] ends, with what each one says about the
    gates. *)
Lemma gateAndBuild_outcomes :
  run = (None, w) \/
  (fst run = None /\ isGroup_ = true /\
   exists h, snd run = with_chatHistories h w) \/
  ((exists ev rec,
      snd run =
      with_sessions (sessions w ++ [rec])
        (with_systemEvents (systemEvents w ++ [ev]) w)) /\
   (isGroup_ = true ->
    groupUserAuthorized true groupConfig_ senderId senderName = true /\
    shouldBlock gate = false /\
    (shouldRequireMention ctx true groupConfig_ && shouldSkip mention)%bool
    = false) /\
   trim rawBody <> [] /\
   (forall p, fst run = Some p ->
      prepared_event p = event /\
      isDirectMessage p = isDirectMessage_ /\
      isGroup p = isGroup_ /\
      threadContext p = resolveFeishuThreadContext message /\
      groupConfig p = groupConfig_ /\
      replyTarget p <> [])).
Proof.
  unfold run, gateAndBuild. cbv zeta.
  fold isGroup_ senderName rawBody route_ mentionRegexes.
  destruct (isGroup_ && negb (groupUserAuthorized isGroup_ groupConfig_
                                senderId senderName))%bool eqn:Eusers;
    [left; reflexivity|].
  destruct (negb (is_truthy (Some (trim rawBody)))) eqn:Ebody;
    [left; reflexivity|].
  fold gate.
  destruct (isGroup_ && shouldBlock gate)%bool eqn:Eblock;
    [left; reflexivity|].
  fold mention.
  destruct (isGroup_ && shouldRequireMention ctx isGroup_ groupConfig_
            && shouldSkip mention)%bool eqn:Eskip.
  - right. left. cbn [fst snd].
    split; [reflexivity|].
    split; [|eexists; reflexivity].
    destruct isGroup_; [reflexivity | discriminate].
  - right. right.
    match goal with
    | |- context [buildPrepared ?a ?b ?c ?d ?e ?f ?g ?h ?i ?j ?k ?l ?m ?n
                    ?o ?q ?r ?s ?t] =>
        destruct (buildPrepared_outcome a b c d e f g h i j k l m n o q r s t)
          as (Hworld & Hfields)
    end.
    split; [exact Hworld|]. split; [|split].
    + intros Hg. rewrite Hg in *.
      cbn [andb] in Eusers, Eblock, Eskip.
      apply negb_false_iff in Eusers. auto.
    + apply negb_false_iff in Ebody. apply is_truthy_nonempty, Ebody.
    + intros p Hp. destruct (Hfields p Hp) as (H1 & H2 & H3 & H4 & _ & H5 & H6).
      auto 10.
Qed.

End Gates.

Section Prepare.

Variables (core : Core) (ctx : FeishuMonitorContext)
  (account : ResolvedFeishuAccount) (event : FeishuMessageEvent)
  (opts : Opts) (w : World).

Let r := prepareFeishuMessage core ctx account event opts w.

(** X11.  Every call of [prepareFeishuMessage] ends in one of four ways:
    the turn is dropped and nothing changes; or, under the "pairing"
    policy, it is dropped, the pairing store is updated and at most one
    message is sent, to the chat of the event; or it is dropped and only
    the pending histories change (the mention skip); or one system event
    and one session record are added and nothing else changes (the turn
    was built).  The clock, the dedupe cache, the debounce queue and the
    dispatched turns are never touched. *)
Theorem prepare_outcomes :
  (r = (None, w) \/
   (fst r = None /\ dmPolicy ctx = dm_pairing /\
    exists store sent,
      snd r = with_outbox (outbox w ++ sent) (with_pairingRequests store w) /\
      (length sent <= 1)%nat /\
      Forall (fun m => exists message,
                event_message event = Some message /\
                chat_id message = Some (sent_to m)) sent) \/
   (fst r = None /\ exists h, snd r = with_chatHistories h w) \/
   (exists ev rec,
      snd r =
      with_sessions (sessions w ++ [rec])
        (with_systemEvents (systemEvents w ++ [ev]) w))) /\
  clock (snd r) = clock w /\
  seenMessages (snd r) = seenMessages w /\
  enqueued (snd r) = enqueued w /\
  dispatched (snd r) = dispatched w.
Proof.
  assert (Hcases :
    r = (None, w) \/
    (fst r = None /\ dmPolicy ctx = dm_pairing /\
     exists store sent,
       snd r = with_outbox (outbox w ++ sent) (with_pairingRequests store w) /\
       (length sent <= 1)%nat /\
       Forall (fun m => exists message,
                 event_message event = Some message /\
                 chat_id message = Some (sent_to m)) sent) \/
    (fst r = None /\ exists h, snd r = with_chatHistories h w) \/
    (exists ev rec,
       snd r =
       with_sessions (sessions w ++ [rec])
         (with_systemEvents (systemEvents w ++ [ev]) w))).
  { unfold r, prepareFeishuMessage.
    destruct (event_message event) as [message|] eqn:Em; [|left; reflexivity].
    destruct (event_sender event) as [sender_|]; [|left; reflexivity].
    destruct (truthy (chat_id message)) as [chatId|] eqn:Ec;
      [|left; reflexivity].
    destruct (truthy (senderOpenId sender_)) as [senderId|];
      [|left; reflexivity].
    cbv zeta.
    destruct (negb (isChatAllowed ctx _)); [left; reflexivity|].
    destruct (chat_type_eqb
                (normalizeFeishuChatType (chat_type message) (Some chatId))
                direct) eqn:Edm.
    - destruct (checkDmAuthorization_outcomes core ctx chatId senderId w)
        as [(Hw & _ & _) | (Hf & _ & Hpol & _ & store & sent & Hw & Hlen & Hto)];
        destruct (checkDmAuthorization core ctx chatId senderId w)
          as [proceed w1]; cbn [fst snd] in *; subst.
      + destruct proceed; [|left; reflexivity].
        match goal with
        | |- context [gateAndBuild ?a ?b ?c ?d ?e ?f ?g ?h ?i ?j ?k ?l ?m] =>
            destruct (gateAndBuild_outcomes a b c d e f g h i j k l m)
              as [H | [(H1 & _ & H2) | (H & _)]]
        end; auto.
      + right. left. split; [reflexivity|]. split; [exact Hpol|].
        exists store, sent. split; [reflexivity|]. split; [exact Hlen|].
        eapply List.Forall_impl; [|exact Hto].
        intros m ->. exists message. split; [reflexivity|].
        apply truthy_Some in Ec. tauto.
    - match goal with
      | |- context [gateAndBuild ?a ?b ?c ?d ?e ?f ?g ?h ?i ?j ?k ?l ?m] =>
          destruct (gateAndBuild_outcomes a b c d e f g h i j k l m)
            as [H | [(H1 & _ & H2) | (H & _)]]
      end; auto. }
  split; [exact Hcases|].
  destruct Hcases as [H | [(_ & _ & store & sent & H & _)
                          | [(_ & h & H) | (ev & rec & H)]]];
    rewrite H; repeat split; reflexivity.
Qed.

(** X12.  A turn that [prepareFeishuMessage] hands back has passed every
    gate: the event has a message, a sender, a chat id and a sender open
    id; the chat is allowed; the text is not blank; a direct message comes
    through only with direct messages enabled and under policy "open" or
    from a sender matching the allowlist; a group message only from a
    sender passing the group's user allowlist, with no blocked command and
    no unmet mention requirement.  The prepared turn is about the event
    given, with its thread context and a reply target. *)
Theorem prepared_turn_passed_gates (p : PreparedFeishuMessage) (w' : World) :
  r = (Some p, w') ->
  exists message sender_ chatId senderId,
    event_message event = Some message /\
    event_sender event = Some sender_ /\
    truthy (chat_id message) = Some chatId /\
    truthy (senderOpenId sender_) = Some senderId /\
    let kind := normalizeFeishuChatType (chat_type message) (Some chatId) in
    let senderName := resolveSenderName ctx sender_ senderId in
    let rawBody := extractMessageText message in
    let groupEntry := group_entry (groupsConfig ctx) chatId in
    let regexes :=
      buildMentionRegexes core
        (agentId (turnRoute core account false chatId senderId)) in
    let gate :=
      commandGate core ctx true groupEntry senderId senderName rawBody in
    let mention :=
      mentionGate core ctx true groupEntry message regexes
        (resolveWasMentioned core ctx opts false message rawBody regexes)
        rawBody (commandAuthorized gate) in
    isChatAllowed ctx {| ref_chatId := Some chatId;
                         ref_chatType := Some kind |} = true /\
    trim rawBody <> [] /\
    prepared_event p = event /\
    isDirectMessage p = chat_type_eqb kind direct /\
    isGroup p = chat_type_eqb kind group /\
    threadContext p = resolveFeishuThreadContext message /\
    replyTarget p <> [] /\
    match kind with
    | direct =>
        dmEnabled ctx = true /\
        (dmPolicy ctx = dm_open \/
         ((dmPolicy ctx = dm_pairing \/ dmPolicy ctx = dm_allowlist) /\
          id_matches (allowFrom ctx) senderId))
    | group =>
        groupUserAuthorized true groupEntry senderId senderName = true /\
        shouldBlock gate = false /\
        (shouldRequireMention ctx true groupEntry && shouldSkip mention)%bool
        = false
    end.
Proof.
  unfold r, prepareFeishuMessage.
  destruct (event_message event) as [message|]; [|discriminate].
  destruct (event_sender event) as [sender_|]; [|discriminate].
  destruct (truthy (chat_id message)) as [chatId|] eqn:Ec; [|discriminate].
  destruct (truthy (senderOpenId sender_)) as [senderId|] eqn:Es;
    [|discriminate].
  cbv zeta.
  destruct (isChatAllowed ctx _) eqn:Eallowed; [|discriminate].
  cbn [negb].
  intros H. exists message, sender_, chatId, senderId.
  split; [reflexivity|]. split; [reflexivity|].
  split; [exact Ec|]. split; [exact Es|].
  destruct (normalizeFeishuChatType (chat_type message) (Some chatId))
    eqn:Ekind; cbn [chat_type_eqb] in H.
  - destruct (checkDmAuthorization_outcomes core ctx chatId senderId w)
      as [(Hw & Hyes & _) | (Hf & _)];
      destruct (checkDmAuthorization core ctx chatId senderId w)
        as [[|] w1]; cbn [fst snd] in *; try discriminate.
    subst w1.
    match type of H with
    | gateAndBuild ?a ?b ?c ?d ?e ?f ?g ?h ?i ?j ?k ?l ?m = _ =>
        destruct (gateAndBuild_outcomes a b c d e f g h i j k l m)
          as [H1 | [(H1 & _) | (_ & _ & Hbody & Hp)]];
        rewrite H in *; cbn [fst snd] in *; try discriminate
    end.
    destruct (Hp p eq_refl) as (P1 & P2 & P3 & P4 & _ & P6).
    split; [exact Eallowed|]. split; [exact Hbody|].
    split; [exact P1|]. split; [exact P2|]. split; [exact P3|].
    split; [exact P4|]. split; [exact P6|].
    apply Hyes. reflexivity.
  - match type of H with
    | gateAndBuild ?a ?b ?c ?d ?e ?f ?g ?h ?i ?j ?k ?l ?m = _ =>
        destruct (gateAndBuild_outcomes a b c d e f g h i j k l m)
          as [H1 | [(H1 & _) | (_ & Hg & Hbody & Hp)]];
        rewrite H in *; cbn [fst snd] in *; try discriminate
    end.
    destruct (Hp p eq_refl) as (P1 & P2 & P3 & P4 & _ & P6).
    split; [exact Eallowed|]. split; [exact Hbody|].
    split; [exact P1|]. split; [exact P2|]. split; [exact P3|].
    split; [exact P4|]. split; [exact P6|].
    apply Hg. reflexivity.
Qed.

End Prepare.

End GateFacts.

(** ** targets.ts *)

Module TargetsFacts.

Import Js JsFacts JsSearch Targets TrimFacts.
Local Open Scope Z_scope.

Lemma formatted_trimmed (t : FeishuTarget) :
  trim (id t) = id t -> id t <> [] ->
  trim (formatFeishuTarget t) = formatFeishuTarget t.
Proof.
  intros Ht Hne. apply trim_fixed in Ht as [_ Hend].
  unfold formatFeishuTarget.
  rewrite !app_assoc, <- (app_assoc (lit "feishu:")).
  apply trim_app_fixed; try assumption.
  - destruct (kind t); reflexivity.
  - destruct (kind t); discriminate.
Qed.

Lemma slice_after (a b : text) :
  slice (a ++ b) (len a) None = b.
Proof.
  rewrite slice_suffix.
  - unfold len. rewrite Nat2Z.id, skipn_app, skipn_all, Nat.sub_diag.
    reflexivity.
  - unfold len. rewrite length_app. lia.
Qed.

(** X13.  Parsing undoes formatting: for a target whose id is not empty
    and has no white space around it, [parseFeishuTarget] of
    [formatFeishuTarget] gives back the kind and the id, with the id type
    the kind and the id prefix determine, and [normalizeFeishuTarget]
    gives back the id. *)
Theorem parse_format_round_trip (t : FeishuTarget) :
  trim (id t) = id t -> id t <> [] ->
  parseFeishuTarget (formatFeishuTarget t) =
  Some {| kind := kind t; id := id t;
          idType := match kind t with
                    | user => inferIdType (id t)
                    | chat => Some type_chat_id
                    end |} /\
  normalizeFeishuTarget (formatFeishuTarget t) = Some (id t).
Proof.
  intros Ht Hne.
  assert (Hparse :
    parseFeishuTarget (formatFeishuTarget t) =
    Some {| kind := kind t; id := id t;
            idType := match kind t with
                      | user => inferIdType (id t)
                      | chat => Some type_chat_id
                      end |}).
  { unfold parseFeishuTarget. rewrite (formatted_trimmed t Ht Hne).
    pose proof (proj2 (is_truthy_nonempty (id t)) Hne) as Hid.
    unfold formatFeishuTarget. destruct (kind t).
    - change (strip_feishu_prefix (lit "feishu:" ++ kind_name user ++ lit ":"
                                   ++ id t))
        with (lit "user:" ++ id t).
      change (starts_with (lit "user:") (lit "user:" ++ id t)) with true.
      cbn match.
      change 5 with (len (lit "user:")). rewrite slice_after, Ht, Hid.
      reflexivity.
    - change (strip_feishu_prefix (lit "feishu:" ++ kind_name chat ++ lit ":"
                                   ++ id t))
        with (lit "chat:" ++ id t).
      change (starts_with (lit "user:") (lit "chat:" ++ id t)) with false.
      change (starts_with (lit "chat:") (lit "chat:" ++ id t)) with true.
      cbn match. cbn [orb].
      change (indexOf (lit "chat:" ++ id t) (lit ":") + 1)
        with (len (lit "chat:")).
      rewrite slice_after, Ht, Hid. reflexivity. }
  split; [exact Hparse|].
  unfold normalizeFeishuTarget. rewrite Hparse. reflexivity.
Qed.

Lemma parse_format_round_trip_witness :
  parseFeishuTarget (lit "feishu:chat:oc_123") =
  Some {| kind := chat; id := lit "oc_123"; idType := Some type_chat_id |} /\
  normalizeFeishuTarget (lit "feishu:chat:oc_123") = Some (lit "oc_123").
Proof.
  apply (parse_format_round_trip
           {| kind := chat; id := lit "oc_123"; idType := None |}).
  - reflexivity.
  - discriminate.
Defined.

End TargetsFacts.

(** ** targets.ts: bare ids *)

Module BareIdFacts.

Import Js JsFacts JsSearch Targets TrimFacts.
Local Open Scope Z_scope.

(** X14.  An id that, once trimmed, starts with one of the known
    prefixes [ou_], [oc_], [on_] looks like a Feishu id and parses to
    itself: the id of the target is the trimmed input, the kind is chat
    exactly for [oc_], the id type follows the prefix, and normalizing
    the result again gives the same id. *)
Theorem parse_bare_id (raw : text) :
  let s := trim raw in
  (starts_with (lit "ou_") s || starts_with (lit "oc_") s
   || starts_with (lit "on_") s)%bool = true ->
  looksLikeFeishuId raw = true /\
  parseFeishuTarget raw =
  Some {| kind := if starts_with (lit "oc_") s then chat else user;
          id := s;
          idType :=
            Some (if starts_with (lit "oc_") s then type_chat_id
                  else if starts_with (lit "ou_") s then type_open_id
                  else type_union_id) |} /\
  normalizeFeishuTarget raw = Some s /\
  normalizeFeishuTarget s = Some s.
Proof.
  intros s H.
  assert (Hshape :
    exists c rest, s = "o"%char :: c :: "_"%char :: rest /\
                   (c = "u"%char \/ c = "c"%char \/ c = "n"%char)).
  { apply orb_true_iff in H as [H | H];
      [apply orb_true_iff in H as [H | H]|];
      apply FormatFacts.starts_with_spec in H as [rest ->];
      eexists _, rest; (split; [reflexivity|]); auto. }
  destruct Hshape as (c & rest & Hs & Hc).
  assert (Hparse : forall raw', trim raw' = s ->
    looksLikeFeishuId raw' = true /\
    parseFeishuTarget raw' =
    Some {| kind := if starts_with (lit "oc_") s then chat else user;
            id := s;
            idType :=
              Some (if starts_with (lit "oc_") s then type_chat_id
                    else if starts_with (lit "ou_") s then type_open_id
                    else type_union_id) |}).
  { intros raw' Hr. unfold looksLikeFeishuId, parseFeishuTarget.
    rewrite Hr, Hs.
    destruct Hc as [-> | [-> | ->]]; split; reflexivity. }
  destruct (Hparse raw eq_refl) as [Hlooks Hp].
  destruct (Hparse s (trim_idem raw)) as [_ Hp'].
  split; [exact Hlooks|]. split; [exact Hp|].
  unfold normalizeFeishuTarget. rewrite Hp, Hp'. split; reflexivity.
Qed.

Lemma parse_bare_id_witness :
  parseFeishuTarget (lit " oc_123 ") =
  Some {| kind := chat; id := lit "oc_123"; idType := Some type_chat_id |}.
Proof.
  destruct (parse_bare_id (lit " oc_123 ")) as (_ & H & _).
  - reflexivity.
  - exact H.
Defined.

End BareIdFacts.

(** ** targets.ts: the bare prefix *)

Module EmptyIdFacts.

Import Js JsFacts JsSearch Targets TrimFacts.
Local Open Scope Z_scope.

Lemma strip_bare_prefix (s : text) :
  s <> [] -> strip_feishu_prefix s = [] ->
  toLowerCase s = lit "feishu:".
Proof.
  intros Hne. unfold strip_feishu_prefix.
  destruct (starts_with (lit "feishu:") (toLowerCase s)) eqn:Ep;
    [|intros ->; contradiction].
  intros Hskip.
  apply FormatFacts.starts_with_spec in Ep as [post Hpost].
  assert (Hlen : (length s <= 7)%nat).
  { apply (f_equal (@length ascii)) in Hskip.
    rewrite length_skipn in Hskip. simpl in Hskip. lia. }
  assert (Hpost_len : length post = 0%nat).
  { apply (f_equal (@length ascii)) in Hpost.
    unfold toLowerCase in Hpost.
    rewrite length_map, length_app in Hpost.
    change (length (lit "feishu:")) with 7%nat in Hpost. lia. }
  destruct post; [|discriminate Hpost_len].
  rewrite Hpost, app_nil_r. reflexivity.
Qed.

Lemma bare_prefix_parses (raw : text) :
  toLowerCase (trim raw) = lit "feishu:" ->
  parseFeishuTarget raw =
  Some {| kind := user; id := []; idType := None |} /\
  looksLikeFeishuId raw = true.
Proof.
  intros H. unfold parseFeishuTarget, looksLikeFeishuId, strip_feishu_prefix.
  cbv zeta. rewrite H.
  assert (Hlen : length (trim raw) = 7%nat).
  { apply (f_equal (@length ascii)) in H. unfold toLowerCase in H.
    rewrite length_map in H. exact H. }
  assert (Hne : is_truthy (Some (trim raw)) = true).
  { apply is_truthy_nonempty. intros E. rewrite E in Hlen.
    discriminate Hlen. }
  rewrite Hne. cbn [negb].
  change (starts_with (lit "feishu:") (lit "feishu:")) with true.
  cbn match.
  rewrite (skipn_all2 (n := 7) (trim raw)) by lia.
  split; reflexivity.
Qed.

(** X26.  The only inputs that [parseFeishuTarget] accepts with an empty
    id are those that, once trimmed, are the bare prefix [feishu:] in any
    letter case: [normalizeFeishuTarget] answers the empty string for
    them and for nothing else.  Such an input parses to a user target
    with an empty id and no id type, and [looksLikeFeishuId] accepts
    it. *)
Theorem parse_empty_id (raw : text) :
  (normalizeFeishuTarget raw = Some [] <->
   toLowerCase (trim raw) = lit "feishu:") /\
  (toLowerCase (trim raw) = lit "feishu:" ->
   parseFeishuTarget raw =
   Some {| kind := user; id := []; idType := None |} /\
   looksLikeFeishuId raw = true).
Proof.
  split; [split|exact (bare_prefix_parses raw)].
  - unfold normalizeFeishuTarget, parseFeishuTarget. cbv zeta.
    destruct (is_truthy (Some (trim raw))) eqn:Et; cbn [negb];
      [|discriminate].
    apply is_truthy_nonempty in Et.
    set (r := strip_feishu_prefix (trim raw)).
    assert (Hr : r = [] -> toLowerCase (trim raw) = lit "feishu:")
      by (apply strip_bare_prefix; exact Et).
    clearbody r.
    assert (Hstart : forall pat, pat <> [] -> starts_with pat r = true ->
                                 r <> []).
    { intros pat Hpat Hs E. rewrite E in Hs.
      destruct pat; [contradiction | discriminate Hs]. }
    destruct (starts_with (lit "user:") r).
    { destruct (is_truthy (Some (trim (slice r 5 None)))) eqn:Ei;
        cbn [negb]; [|discriminate].
      apply is_truthy_nonempty in Ei. cbn [id].
      intros E. injection E as E. contradiction. }
    destruct (starts_with (lit "chat:") r || starts_with (lit "group:") r)%bool.
    { match goal with
      | |- context [is_truthy (Some ?x)] =>
          destruct (is_truthy (Some x)) eqn:Ei
      end; cbn [negb]; [|discriminate].
      apply is_truthy_nonempty in Ei. cbn [id].
      intros E. injection E as E. contradiction. }
    destruct (starts_with (lit "oc_") r) eqn:E1.
    { cbn [id]. intros E. injection E as E.
      exfalso. apply (Hstart (lit "oc_")); [discriminate | exact E1 | exact E]. }
    destruct (starts_with (lit "ou_") r) eqn:E2.
    { cbn [id]. intros E. injection E as E.
      exfalso. apply (Hstart (lit "ou_")); [discriminate | exact E2 | exact E]. }
    destruct (starts_with (lit "on_") r) eqn:E3.
    { cbn [id]. intros E. injection E as E.
      exfalso. apply (Hstart (lit "on_")); [discriminate | exact E3 | exact E]. }
    cbn [id]. intros E. injection E as E. exact (Hr E).
  - intros H. unfold normalizeFeishuTarget.
    destruct (bare_prefix_parses raw H) as [-> _]. reflexivity.
Qed.

End EmptyIdFacts.

(** ** monitor/replies.ts *)

Module RepliesFacts.

Import Js JsFacts Replies MoreNotions TrimFacts.
Local Open Scope Z_scope.

Lemma marked_not_blank (prefix url : text) :
  trim (prefix ++ MEDIA_MARK ++ url) <> [].
Proof.
  apply trim_nonempty. rewrite !non_white_space_app.
  intros H. apply app_eq_nil in H as [_ H].
  apply app_eq_nil in H as [H _]. vm_compute in H. discriminate H.
Qed.

Lemma media_calls_spec (target text_ : text) (replyToId : option text)
    (first : bool) (mediaList : list text) :
  Forall (fun c => call_to c = target /\ trim (call_message c) <> [] /\
                   call_replyToId c = replyToId)
    (media_calls target text_ replyToId first mediaList) /\
  length (media_calls target text_ replyToId first mediaList)
  = length mediaList.
Proof.
  revert first. induction mediaList as [|u rest IH]; intros first.
  - split; [constructor | reflexivity].
  - destruct (IH false) as [Hall Hlen]. cbn [media_calls length]. split.
    + constructor; [|exact Hall]. cbn [call_to call_message call_replyToId].
      split; [reflexivity|]. split; [|reflexivity].
      destruct (is_truthy (Some (if first then text_ else []))).
      * rewrite (app_assoc _ [LF; LF]). apply marked_not_blank.
      * apply (marked_not_blank []).
    + rewrite Hlen. reflexivity.
Qed.

Lemma media_calls_rest (target text_ : text) (replyToId : option text)
    (mediaList : list text) :
  map call_message (media_calls target text_ replyToId false mediaList)
  = map (fun u => MEDIA_MARK ++ u) mediaList.
Proof.
  induction mediaList as [|u rest IH]; [reflexivity|].
  simpl. rewrite IH. reflexivity.
Qed.

Lemma payload_calls_spec (isSilentReplyText : text -> bool) (target : text)
    (replyToId : option text) (payload : ReplyPayload) (c : SendCall) :
  In c (payload_calls isSilentReplyText target replyToId payload) ->
  call_to c = target /\ trim (call_message c) <> [] /\
  call_replyToId c = or_else (payload_replyToId payload) replyToId.
Proof.
  intros Hc. unfold payload_calls in Hc. cbv zeta in Hc.
  match type of Hc with
  | context [Nat.eqb (length ?l) 0] => set (mediaList := l) in *
  end.
  destruct (negb (is_truthy (Some (nullish (payload_text payload) [])))
            && Nat.eqb (length mediaList) 0)%bool; [contradiction|].
  destruct (Nat.eqb (length mediaList) 0).
  - destruct (negb (is_truthy
                      (Some (trim (nullish (payload_text payload) []))))
              || isSilentReplyText _)%bool eqn:E; [contradiction|].
    destruct Hc as [<-|[]]. cbn [call_to call_message call_replyToId].
    apply orb_false_elim in E as [E _]. apply negb_false_iff in E.
    apply is_truthy_nonempty in E.
    rewrite trim_idem. auto.
  - destruct (media_calls_spec target (nullish (payload_text payload) [])
                (or_else (payload_replyToId payload) replyToId) true
                mediaList) as [Hall _].
    rewrite List.Forall_forall in Hall. exact (Hall c Hc).
Qed.

(** X15.  [deliverFeishuReplies] never asks [sendMessageFeishu] for a
    blank message, sends everything to the target, and gives every call
    the reply id of its payload, or the one of the delivery when the
    payload has none.  A payload with media makes one call per media URL,
    and only the first of them carries the text. *)
Theorem deliverFeishuReplies_calls (isSilentReplyText : text -> bool)
    (replies : list ReplyPayload) (target : text)
    (replyToId : option text) :
  Forall (fun c =>
            call_to c = target /\ trim (call_message c) <> [] /\
            exists payload,
              In payload replies /\
              call_replyToId c
              = or_else (payload_replyToId payload) replyToId)
    (deliverFeishuReplies isSilentReplyText replies target replyToId) /\
  (forall payload u urls,
     mediaUrls payload = Some (u :: urls) ->
     map call_message
       (payload_calls isSilentReplyText target replyToId payload)
     = (match truthy (payload_text payload) with
        | Some t => t ++ [LF; LF] ++ MEDIA_MARK ++ u
        | None => MEDIA_MARK ++ u
        end)
       :: map (fun v => MEDIA_MARK ++ v) urls).
Proof.
  split.
  - unfold deliverFeishuReplies. apply List.Forall_forall. intros c Hc.
    apply in_flat_map in Hc as (payload & Hin & Hc).
    destruct (payload_calls_spec _ _ _ _ _ Hc) as (H1 & H2 & H3). eauto.
  - intros payload u urls Hm. unfold payload_calls. rewrite Hm.
    cbn [length Nat.eqb andb]. rewrite andb_false_r.
    cbn [media_calls map call_message]. rewrite media_calls_rest.
    f_equal.
    destruct (payload_text payload) as [[|c t]|]; reflexivity.
Qed.

Lemma deliverFeishuReplies_calls_witness :
  map call_message
    (payload_calls (fun _ => false) (lit "chat:oc_1") None
       {| payload_text := Some (lit "see");
          mediaUrl := None;
          mediaUrls := Some [lit "u1"; lit "u2"];
          payload_replyToId := None |})
  = [lit "see" ++ [LF; LF] ++ MEDIA_MARK ++ lit "u1"; MEDIA_MARK ++ lit "u2"].
Proof.
  destruct (deliverFeishuReplies_calls (fun _ => false) [] (lit "chat:oc_1")
              None) as [_ H].
  exact (H {| payload_text := Some (lit "see");
              mediaUrl := None;
              mediaUrls := Some [lit "u1"; lit "u2"];
              payload_replyToId := None |} (lit "u1") [lit "u2"] eq_refl).
Defined.

Lemma run_plan_constant (params : PlanParams) (v : option text) :
  (forall ref, nextReplyToId params ref = v) ->
  forall calls ref, fst (run_plan params calls ref) = repeat v (asked calls).
Proof.
  intros Hv. induction calls as [|[|] calls IH]; intros ref.
  - reflexivity.
  - simpl. specialize (IH ref).
    destruct (run_plan params calls ref) as [results ref'].
    simpl in *. unfold asked in *. simpl. rewrite Hv, IH. reflexivity.
  - simpl. apply IH.
Qed.

Lemma run_plan_app (params : PlanParams) (calls1 calls2 : list PlanCall)
    (ref : bool) :
  fst (run_plan params (calls1 ++ calls2) ref) =
  fst (run_plan params calls1 ref)
  ++ fst (run_plan params calls2 (snd (run_plan params calls1 ref))).
Proof.
  revert ref. induction calls1 as [|[|] calls1 IH]; intros ref.
  - reflexivity.
  - simpl. specialize (IH ref).
    destruct (run_plan params (calls1 ++ calls2) ref) as [r12 ref12].
    destruct (run_plan params calls1 ref) as [r1 ref1].
    simpl in *. rewrite IH. reflexivity.
  - simpl. apply IH.
Qed.

Lemma run_plan_sent (incoming messageId : option text)
    (calls : list PlanCall) :
  fst (run_plan {| plan_replyToMode := mode_first;
                   plan_incomingReplyToId := incoming;
                   plan_messageId := messageId |} calls true)
  = repeat None (asked calls).
Proof.
  induction calls as [|[|] calls IH].
  - reflexivity.
  - simpl.
    destruct (run_plan _ calls true) as [results ref'].
    simpl in *. unfold asked in *. simpl. rewrite IH. reflexivity.
  - simpl. exact IH.
Qed.

(** X16.  The reply plan over its shared cell, for any run of
    [nextReplyToId] and [markSent] calls: in mode "off" every answer is
    the incoming reply id and the message id is never used; in mode "all"
    every answer is the incoming reply id, or else the message id,
    whether or not something was sent; in mode "first" every answer after
    a [markSent] is undefined, the answers before it are not affected by
    what follows, and a run that starts with nothing sent and marks
    nothing answers the incoming reply id, or else the message id,
    throughout. *)
Theorem reply_plan_modes (incoming messageId : option text)
    (calls before after : list PlanCall) (ref : bool) :
  let plan mode :=
    {| plan_replyToMode := mode; plan_incomingReplyToId := incoming;
       plan_messageId := messageId |} in
  fst (run_plan (plan mode_off) calls ref) = repeat incoming (asked calls) /\
  fst (run_plan (plan mode_all) calls ref)
  = repeat (or_else incoming messageId) (asked calls) /\
  fst (run_plan (plan mode_first) (before ++ call_markSent :: after) ref)
  = fst (run_plan (plan mode_first) before ref)
    ++ repeat None (asked after) /\
  (fst (run_plan (plan mode_first) before false)
   = repeat (or_else incoming messageId) (asked before)
   \/ In call_markSent before).
Proof.
  intros plan. split; [|split; [|split]].
  - apply run_plan_constant. reflexivity.
  - apply run_plan_constant. reflexivity.
  - rewrite run_plan_app. f_equal. simpl. apply run_plan_sent.
  - induction before as [|[|] before IH].
    + left. reflexivity.
    + destruct IH as [IH | IH]; [|right; right; exact IH].
      left. simpl.
      destruct (run_plan (plan mode_first) before false) as [results ref'].
      simpl in *. unfold asked in *. simpl. rewrite IH. reflexivity.
    + right. left. reflexivity.
Qed.

End RepliesFacts.

(** ** monitor/message-handler/prepare.ts: drops that leave no trace *)

Module DropFacts.

Import Js Types Threading Context Core MessageText Prepare MessageHandler
  Notions MoreNotions Fixtures MoreFixtures TrimFacts PrepareFacts.
Local Open Scope Z_scope.

Section Drop.

Variables (core : Core) (ctx : FeishuMonitorContext)
  (account : ResolvedFeishuAccount) (event : FeishuMessageEvent)
  (opts : Opts) (w : World) (message : FeishuMessage)
  (sender_ : FeishuSender) (chatId senderId : text).

Hypothesis Hmessage : event_message event = Some message.
Hypothesis Hsender : event_sender event = Some sender_.
Hypothesis HchatId : truthy (chat_id message) = Some chatId.
Hypothesis HsenderId : truthy (senderOpenId sender_) = Some senderId.

Let kind := normalizeFeishuChatType (chat_type message) (Some chatId).
Let groupEntry := group_entry (groupsConfig ctx) chatId.
Let senderName := resolveSenderName ctx sender_ senderId.
Let rawBody := MessageText.extractMessageText message.

(** X17.  Turns that are dropped without a trace.  For an event with a
    message, a sender, a chat id and a sender open id,
    [prepareFeishuMessage] returns nothing and changes nothing when the
    chat is not allowed; when it is a direct message and direct messages
    are off, the policy is "disabled", or the policy is "allowlist" and
    the sender does not match; when it is a group message and the group
    has a user allowlist the sender does not match, or the text is blank,
    or it holds a control command the gate blocks. *)
Theorem silent_drops :
  isChatAllowed ctx {| ref_chatId := Some chatId;
                       ref_chatType := Some kind |} = false \/
  (kind = direct /\
   (dmEnabled ctx = false \/ dmPolicy ctx = dm_disabled \/
    (dmPolicy ctx = dm_allowlist /\
     ~ id_matches (allowFrom ctx) senderId))) \/
  (kind = group /\
   exists g us, groupEntry = Some g /\ users g = Some us /\ us <> [] /\
                ~ sender_matches us senderId senderName) \/
  (kind = group /\ trim rawBody = []) \/
  (kind = group /\
   shouldBlock
     (commandGate core ctx true groupEntry senderId senderName rawBody)
   = true) ->
  prepareFeishuMessage core ctx account event opts w = (None, w).
Proof using Hmessage Hsender HchatId HsenderId.
  intros H.
  assert (Hnot : isChatAllowed ctx {| ref_chatId := Some chatId;
                                      ref_chatType := Some kind |} = false ->
                 prepareFeishuMessage core ctx account event opts w
                 = (None, w)).
  { intros Hno. unfold prepareFeishuMessage.
    rewrite Hmessage, Hsender, HchatId, HsenderId. cbv zeta.
    fold kind. rewrite Hno. reflexivity. }
  destruct (isChatAllowed ctx {| ref_chatId := Some chatId;
                                 ref_chatType := Some kind |}) eqn:Eallowed;
    [|apply Hnot; reflexivity].
  clear Hnot.
  destruct H as [H | [[Hk H] | H]]; [discriminate| |].
  - rewrite (prepare_direct core ctx account event opts w message sender_
               chatId senderId Hmessage Hsender HchatId HsenderId Hk).
    fold kind in Eallowed. rewrite Hk in Eallowed. rewrite Eallowed.
    cbn [negb].
    assert (Hdm : checkDmAuthorization core ctx chatId senderId w
                  = (false, w)).
    { unfold checkDmAuthorization.
      destruct H as [-> | [-> | [-> Hno]]].
      - reflexivity.
      - destruct (dmEnabled ctx); reflexivity.
      - destruct (dmEnabled ctx); [|reflexivity].
        destruct (allowed _) eqn:Eal; [|reflexivity].
        apply resolveFeishuAllowListMatch_id_spec in Eal. contradiction. }
    rewrite Hdm. reflexivity.
  - assert (Hk : kind = group) by (destruct H as [[? _] | [[? _] | [? _]]];
                                   assumption).
    rewrite (prepare_group core ctx account event opts w message sender_
               chatId senderId Hmessage Hsender HchatId HsenderId Hk).
    fold kind in Eallowed. rewrite Hk in Eallowed. rewrite Eallowed.
    cbn [negb]. unfold gateAndBuild. cbv zeta.
    change (negb false) with true.
    fold groupEntry senderName rawBody.
    destruct (groupUserAuthorized true groupEntry senderId senderName)
      eqn:Eusers; cbn [negb andb]; [|reflexivity].
    destruct H as [(_ & g & us & Hg & Hus & Hne & Hno) | H].
    { exfalso. unfold groupUserAuthorized in Eusers.
      rewrite Hg, Hus in Eusers. cbn [nullish] in Eusers.
      apply nonempty_iff in Hne. rewrite Hne in Eusers.
      cbn [negb] in Eusers. rewrite orb_false_r in Eusers.
      apply isFeishuUserAllowed_spec in Eusers. contradiction. }
    destruct (is_truthy (Some (trim rawBody))) eqn:Ebody; cbn [negb];
      [|reflexivity].
    destruct H as [[_ Hblank] | [_ Hblock]].
    { rewrite Hblank in Ebody. discriminate. }
    rewrite Hblock. reflexivity.
Qed.

End Drop.

Lemma silent_drops_witness :
  prepareFeishuMessage sample_core (createFeishuMonitorContext group_params)
    sample_account (group_message (lit "  ")) no_opts empty_world
  = (None, empty_world).
Proof.
  eapply (silent_drops sample_core (createFeishuMonitorContext group_params)
            sample_account (group_message (lit "  ")) no_opts empty_world);
    try reflexivity.
  right. right. right. left. split; reflexivity.
Defined.

Lemma prepared_turn_passed_gates_witness :
  exists p,
    fst (prepareFeishuMessage sample_core
           (createFeishuMonitorContext group_params) sample_account
           mentioning_message no_opts empty_world) = Some p /\
    replyTarget p <> [].
Proof.
  assert (Hsome :
    match fst (prepareFeishuMessage sample_core
                 (createFeishuMonitorContext group_params) sample_account
                 mentioning_message no_opts empty_world)
    with Some _ => true | None => false end = true)
    by (vm_compute; reflexivity).
  destruct (prepareFeishuMessage sample_core
              (createFeishuMonitorContext group_params) sample_account
              mentioning_message no_opts empty_world) as [[p|] w'] eqn:E.
  - exists p. split; [reflexivity|].
    destruct (GateFacts.prepared_turn_passed_gates _ _ _ _ _ _ p w' E)
      as (m & s & c & i & _ & _ & _ & _ & H).
    cbv zeta in H. tauto.
  - discriminate Hsome.
Defined.

Lemma merged_post_turn_is_dropped_witness :
  fst (prepareFeishuMessage sample_core
         (createFeishuMonitorContext group_params) sample_account
         (syntheticEvent [post_entry] post_entry)
         (syntheticOpts [post_entry] post_entry) empty_world) = None.
Proof.
  apply (MessageHandlerFacts.merged_post_turn_is_dropped sample_core
           (createFeishuMonitorContext group_params) sample_account
           [post_entry] post_entry
           (nullish (entry_message post_entry) no_message));
    reflexivity.
Defined.

End DropFacts.

(** ** format.ts: the inline markup parser *)

Module MarkdownFacts.

Import Js JsFacts JsSearch Markdown MoreNotions TrimFacts.
Local Open Scope Z_scope.

Lemma span_spec (p : ascii -> bool) (s : text) :
  s = fst (span p s) ++ snd (span p s) /\
  forallb p (fst (span p s)) = true /\
  match snd (span p s) with
  | [] => True
  | c :: _ => p c = false
  end.
Proof.
  induction s as [|a s IH]; simpl; [auto|].
  destruct (p a) eqn:E.
  - destruct (span p s) as [run rest]. simpl in *.
    destruct IH as (IH1 & IH2 & IH3). rewrite E, IH2.
    repeat split; auto. f_equal. exact IH1.
  - simpl. auto.
Qed.

Lemma skipn_prefix {A : Type} (a b : list A) : skipn (length a) (a ++ b) = b.
Proof. rewrite skipn_app, skipn_all, Nat.sub_diag. reflexivity. Qed.

Lemma match_delimited_spec (open : text) (stop : ascii) (close s : text)
    (m : Match) :
  match_delimited open stop close s = Some m ->
  exists rest,
    s = whole m ++ rest /\
    whole m = open ++ group1 m ++ close /\
    group1 m <> [] /\ group2 m = [] /\
    forallb (is_not stop) (group1 m) = true.
Proof.
  unfold match_delimited.
  destruct (starts_with open s) eqn:Eo; [|discriminate].
  apply FormatFacts.starts_with_spec in Eo as [post ->].
  rewrite skipn_prefix.
  destruct (span_spec (is_not stop) post) as (Hs & Hrun & _).
  destruct (span (is_not stop) post) as [run rest]. simpl in Hs, Hrun.
  destruct (negb (Nat.eqb (length run) 0) && starts_with close rest)%bool
    eqn:E; [|discriminate].
  apply andb_true_iff in E as [Hne Hc].
  apply FormatFacts.starts_with_spec in Hc as [post' ->].
  apply PrepareFacts.nonempty_iff in Hne.
  intros H. injection H as <-. simpl. exists post'.
  rewrite Hs, <- !app_assoc. auto.
Qed.

Lemma match_link_spec (s : text) (m : Match) :
  match_link s = Some m ->
  exists rest,
    s = whole m ++ rest /\
    whole m = lit "[" ++ group1 m ++ lit "](" ++ group2 m ++ lit ")" /\
    group1 m <> [] /\ group2 m <> [].
Proof.
  unfold match_link.
  destruct (match_delimited (lit "[") "]" (lit "](") s) as [m1|] eqn:E1;
    [|discriminate].
  apply match_delimited_spec in E1
    as (rest1 & -> & Hw & Hne & _ & _).
  rewrite skipn_prefix.
  destruct (span_spec (is_not ")") rest1) as (Hs & _ & _).
  destruct (span (is_not ")") rest1) as [href rest]. simpl in Hs.
  destruct (negb (Nat.eqb (length href) 0) && starts_with (lit ")") rest)%bool
    eqn:E; [|discriminate].
  apply andb_true_iff in E as [Hh Hc].
  apply FormatFacts.starts_with_spec in Hc as [post ->].
  apply PrepareFacts.nonempty_iff in Hh.
  intros H. injection H as <-. simpl. exists post.
  rewrite Hs, Hw, <- !app_assoc. auto.
Qed.

Lemma search_from_spec (p : ascii -> bool) (s : text) (i : Z) :
  (search_from p s i = -1 /\ forallb (fun c => negb (p c)) s = true) \/
  (exists pre c post,
     s = pre ++ c :: post /\
     forallb (fun c => negb (p c)) pre = true /\ p c = true /\
     search_from p s i = i + len pre).
Proof.
  revert i. induction s as [|a s IH]; intros i; simpl.
  - left. auto.
  - destruct (p a) eqn:E.
    + right. exists [], a, s. simpl. repeat split; auto.
      unfold len. simpl. lia.
    + destruct (IH (i + 1)) as [[H1 H2] | (pre & c & post & -> & H1 & H2 & H3)].
      * left. simpl. auto.
      * right. exists (a :: pre), c, post. simpl. rewrite E.
        repeat split; auto. rewrite H3. unfold len. simpl length. lia.
Qed.

Lemma markup_free_app (a b : text) :
  markup_free (a ++ b) = markup_free a ++ markup_free b.
Proof. unfold markup_free. apply List.filter_app. Qed.

Lemma slice_first (a b : text) : slice (a ++ b) 0 (Some (len a)) = a.
Proof.
  rewrite slice_prefix.
  - unfold len. rewrite Nat2Z.id, firstn_app, firstn_all, Nat.sub_diag.
    simpl. apply app_nil_r.
  - unfold len. rewrite length_app. lia.
Qed.

Lemma len_pos (s : text) : s <> [] -> 0 < len s.
Proof. destruct s; [contradiction|]. unfold len. simpl. lia. Qed.

(** One iteration of the loop of [parseLineToTags] on a remainder that is
    not empty: a non-empty piece is taken off the front and one tag is
    pushed for it. *)
Lemma parse_step (remaining : text) :
  remaining <> [] ->
  exists tag consumed rest,
    remaining = consumed ++ rest /\
    consumed <> [] /\
    tag_filled tag /\
    markup_free (tag_chars tag) = markup_free consumed /\
    sublist (tag_chars tag) consumed /\
    (unmatched remaining -> tag = tag_text consumed None) /\
    ((rest = [] /\
      forall fuel tags,
        parse_loop (S fuel) remaining tags = Some (tags ++ [tag])) \/
     (forall fuel tags,
        parse_loop (S fuel) remaining tags
        = parse_loop fuel rest (tags ++ [tag]))).
Proof.
  intros Hne.
  assert (Hlen : (len remaining <=? 0) = false).
  { apply Z.leb_gt, len_pos, Hne. }
  assert (Hdelim : forall open stop close style_ m,
    match_delimited open stop close remaining = Some m ->
    markup_free open = [] -> markup_free close = [] -> open <> [] ->
    exists consumed rest,
      remaining = consumed ++ rest /\ consumed <> [] /\
      tag_filled (tag_text (group1 m) style_) /\
      markup_free (group1 m) = markup_free consumed /\
      sublist (group1 m) consumed /\
      slice remaining (len (whole m)) None = rest).
  { intros open stop close style_ m Hm Ho Hc Hopen.
    apply match_delimited_spec in Hm as (rest & Hs & Hw & Hg & _ & _).
    exists (whole m), rest. split; [exact Hs|].
    split; [rewrite Hw; destruct open; [contradiction | discriminate]|].
    split; [exact Hg|].
    split; [rewrite Hw, !markup_free_app, Ho, Hc, app_nil_r; reflexivity|].
    split; [rewrite Hw; apply sublist_inserts_l, sublist_inserts_r;
            reflexivity|].
    rewrite Hs. apply TargetsFacts.slice_after. }
  destruct (match_inline_code remaining) as [m|] eqn:Ecode.
  { destruct (Hdelim _ _ _ (Some [lit "code"]) m Ecode)
      as (consumed & rest & Hs & Hc & Hf & Hmf & Hsub & Hrest);
      try reflexivity; try discriminate.
    exists (tag_text (group1 m) (Some [lit "code"])), consumed, rest.
    repeat (split; [assumption|]).
    split; [intros (H & _); congruence|].
    right. intros fuel tags. cbn [parse_loop].
    rewrite Hlen, Ecode, Hrest. reflexivity. }
  destruct (match_link remaining) as [m|] eqn:Elink.
  { pose proof Elink as Hm.
    apply match_link_spec in Hm as (rest & Hs & Hw & Hg1 & Hg2).
    exists (tag_a (group1 m) (group2 m)), (whole m), rest.
    split; [exact Hs|].
    split; [rewrite Hw; discriminate|].
    split; [split; assumption|].
    split.
    { rewrite Hw. cbn [tag_chars]. rewrite !markup_free_app.
      change (markup_free (lit "[")) with (@nil ascii).
      change (markup_free (lit "](")) with (@nil ascii).
      change (markup_free (lit ")")) with (@nil ascii).
      rewrite app_nil_r. reflexivity. }
    split.
    { rewrite Hw. cbn [tag_chars].
      apply sublist_inserts_l, sublist_app; [reflexivity|].
      apply sublist_inserts_l, sublist_inserts_r. reflexivity. }
    split; [intros (_ & H & _); congruence|].
    right. intros fuel tags. cbn [parse_loop].
    rewrite Hlen, Ecode, Elink. rewrite Hs at 1.
    rewrite TargetsFacts.slice_after. reflexivity. }
  destruct (or_match (match_bold_star remaining)
              (match_bold_underscore remaining)) as [m|] eqn:Ebold.
  { assert (Hm : exists open stop close,
              match_delimited open stop close remaining = Some m /\
              markup_free open = [] /\ markup_free close = [] /\
              open <> []).
    { unfold or_match in Ebold.
      destruct (match_bold_star remaining) as [m1|] eqn:E1.
      - injection Ebold as <-. exists (lit "**"), "*"%char, (lit "**").
        repeat split; auto; discriminate.
      - exists (lit "__"), "_"%char, (lit "__").
        repeat split; auto; discriminate. }
    destruct Hm as (open & stop & close & Hm & Ho & Hc & Hopen).
    destruct (Hdelim _ _ _ (Some [lit "bold"]) m Hm Ho Hc Hopen)
      as (consumed & rest & Hs & Hc' & Hf & Hmf & Hsub & Hrest).
    exists (tag_text (group1 m) (Some [lit "bold"])), consumed, rest.
    repeat (split; [assumption|]).
    split.
    { intros (_ & _ & H1 & H2 & _). unfold or_match in Ebold.
      rewrite H1, H2 in Ebold. discriminate. }
    right. intros fuel tags. cbn [parse_loop].
    rewrite Hlen, Ecode, Elink, Ebold, Hrest. reflexivity. }
  destruct (or_match (match_italic_star remaining)
              (match_italic_underscore remaining)) as [m|] eqn:Eitalic.
  { assert (Hm : exists open stop close,
              match_delimited open stop close remaining = Some m /\
              markup_free open = [] /\ markup_free close = [] /\
              open <> []).
    { unfold or_match in Eitalic.
      destruct (match_italic_star remaining) as [m1|] eqn:E1.
      - injection Eitalic as <-. exists (lit "*"), "*"%char, (lit "*").
        repeat split; auto; discriminate.
      - exists (lit "_"), "_"%char, (lit "_").
        repeat split; auto; discriminate. }
    destruct Hm as (open & stop & close & Hm & Ho & Hc & Hopen).
    destruct (Hdelim _ _ _ (Some [lit "italic"]) m Hm Ho Hc Hopen)
      as (consumed & rest & Hs & Hc' & Hf & Hmf & Hsub & Hrest).
    exists (tag_text (group1 m) (Some [lit "italic"])), consumed, rest.
    repeat (split; [assumption|]).
    split.
    { intros (_ & _ & _ & _ & H1 & H2). unfold or_match in Eitalic.
      rewrite H1, H2 in Eitalic. discriminate. }
    right. intros fuel tags. cbn [parse_loop].
    rewrite Hlen, Ecode, Elink, Ebold, Eitalic, Hrest. reflexivity. }
  unfold search_special.
  destruct (search_from_spec is_special remaining 0)
    as [[Hnone _] | (pre & c & post & Hs & Hpre & Hc & Hfound)].
  - exists (tag_text remaining None), remaining, [].
    split; [rewrite app_nil_r; reflexivity|].
    split; [exact Hne|]. split; [exact Hne|].
    split; [reflexivity|]. split; [reflexivity|].
    split; [reflexivity|].
    left. split; [reflexivity|]. intros fuel tags. cbn [parse_loop].
    rewrite Hlen, Ecode, Elink, Ebold, Eitalic.
    unfold search_special. rewrite Hnone.
    apply is_truthy_nonempty in Hne. rewrite Hne. reflexivity.
  - destruct pre as [|a pre].
    + simpl in Hs. subst remaining.
      exists (tag_text [c] None), [c], post.
      split; [reflexivity|]. split; [discriminate|].
      split; [discriminate|]. split; [reflexivity|].
      split; [reflexivity|]. split; [reflexivity|].
      right. intros fuel tags. cbn [parse_loop].
      rewrite Hlen, Ecode, Elink, Ebold, Eitalic.
      unfold search_special. rewrite Hfound.
      change (0 + len []) with 0. cbn [Z.eqb].
      change (firstn 1 (c :: post)) with [c].
      change 1 with (len [c]).
      change (c :: post) with ([c] ++ post).
      rewrite TargetsFacts.slice_after. reflexivity.
    + exists (tag_text (a :: pre) None), (a :: pre), (c :: post).
      split; [exact Hs|]. split; [discriminate|].
      split; [discriminate|]. split; [reflexivity|].
      split; [reflexivity|]. split; [reflexivity|].
      right. intros fuel tags. cbn [parse_loop].
      rewrite Hlen, Ecode, Elink, Ebold, Eitalic.
      unfold search_special. rewrite Hfound, Z.add_0_l.
      assert (Hpos : 0 < len (a :: pre)) by (apply len_pos; discriminate).
      destruct (len (a :: pre) =? -1) eqn:E1; [apply Z.eqb_eq in E1; lia|].
      destruct (len (a :: pre) =? 0) eqn:E0; [apply Z.eqb_eq in E0; lia|].
      rewrite Hs, slice_first, TargetsFacts.slice_after. reflexivity.
Qed.

(** What the loop makes of a remainder, whatever the tags so far and
    however many iterations are allowed beyond its length. *)
Lemma parse_loop_result (n : nat) :
  forall remaining, (length remaining <= n)%nat ->
  exists new,
    (forall fuel tags, (length remaining < fuel)%nat ->
       parse_loop fuel remaining tags = Some (tags ++ new)) /\
    Forall tag_filled new /\
    markup_free (concat (map tag_chars new)) = markup_free remaining /\
    sublist (concat (map tag_chars new)) remaining /\
    (remaining <> [] -> new <> []) /\
    ((forall pre s, remaining = pre ++ s -> s <> [] -> unmatched s) ->
     Forall plain_tag new /\ concat (map tag_chars new) = remaining).
Proof.
  induction n as [|n IH]; intros remaining Hn.
  - destruct remaining; [|simpl in Hn; lia].
    exists []. split.
    { intros [|fuel] tags Hf; [simpl in Hf; lia|].
      simpl. rewrite app_nil_r. reflexivity. }
    repeat split; try constructor; try reflexivity. contradiction.
  - destruct remaining as [|c0 r0] eqn:Er.
    { exists []. split.
      { intros [|fuel] tags Hf; [simpl in Hf; lia|].
        simpl. rewrite app_nil_r. reflexivity. }
      repeat split; try constructor; try reflexivity. contradiction. }
    rewrite <- Er in *.
    assert (Hne : remaining <> []) by (rewrite Er; discriminate).
    destruct (parse_step remaining Hne)
      as (tag & consumed & rest & Hs & Hc & Hfilled & Hmf & Hsub & Hplain
          & Hstep).
    assert (Hshorter : (length rest <= n)%nat).
    { rewrite Hs, length_app in Hn. destruct consumed; [contradiction|].
      simpl in Hn. lia. }
    assert (Hlen : (length rest < length remaining)%nat).
    { rewrite Hs, length_app. destruct consumed; [contradiction|].
      simpl. lia. }
    destruct (IH rest Hshorter)
      as (new & Hrun & Hall & Hmf' & Hsub' & _ & Hplain').
    destruct Hstep as [[Hnil Hlast] | Hnext].
    + exists [tag]. split.
      { intros [|fuel] tags Hf; [lia|]. apply Hlast. }
      split; [constructor; [exact Hfilled | constructor]|].
      subst rest. rewrite app_nil_r in Hs. subst consumed.
      cbn [map concat]. rewrite !app_nil_r.
      split; [exact Hmf|]. split; [exact Hsub|].
      split; [discriminate|].
      intros H.
      assert (Hun : unmatched remaining)
        by (apply (H []); [reflexivity | exact Hne]).
      rewrite (Hplain Hun). split; [|reflexivity].
      constructor; [|constructor]. exists remaining. reflexivity.
    + exists (tag :: new). split.
      { intros [|fuel] tags Hf; [lia|].
        rewrite Hnext, Hrun by lia. rewrite <- app_assoc. reflexivity. }
      split; [constructor; assumption|].
      cbn [map concat].
      split.
      { rewrite markup_free_app, Hmf, Hmf', Hs, markup_free_app.
        reflexivity. }
      split; [rewrite Hs; apply sublist_app; assumption|].
      split; [discriminate|].
      intros H.
      assert (Hun : unmatched remaining)
        by (apply (H []); [reflexivity | exact Hne]).
      assert (Hrest : forall pre s, rest = pre ++ s -> s <> [] ->
                                    unmatched s).
      { intros pre s Hr Hsne. apply (H (consumed ++ pre)); [|exact Hsne].
        rewrite <- app_assoc, <- Hr. exact Hs. }
      destruct (Hplain' Hrest) as [Hp Hcat].
      rewrite (Hplain Hun). split.
      * constructor; [exists consumed; reflexivity | exact Hp].
      * cbn [tag_chars]. rewrite Hcat, Hs. reflexivity.
Qed.

(** X18.  [parseLineToTags] always finishes (more iterations than the
    line has characters are never needed, and the result does not depend
    on how many more are allowed), and its tags are faithful to the line:
    every tag is a text or link tag with a non-empty text (and address),
    a line that is not empty gives at least one tag, and the characters
    of the tags are those of the line, in order, with nothing added and
    nothing dropped but markup characters (backtick, brackets,
    parentheses, star, underscore). *)
Theorem parseLineToTags_faithful (line : text) :
  exists tags,
    (forall fuel, (length line < fuel)%nat ->
       parseLineToTags fuel line = Some tags) /\
    Forall tag_filled tags /\
    markup_free (concat (map tag_chars tags)) = markup_free line /\
    sublist (concat (map tag_chars tags)) line /\
    (line <> [] -> tags <> []).
Proof.
  destruct (parse_loop_result (length line) line (Nat.le_refl _))
    as (new & Hrun & Hall & Hmf & Hsub & Hne & _).
  exists new. split; [|auto].
  intros fuel Hf. unfold parseLineToTags. rewrite (Hrun fuel [] Hf).
  reflexivity.
Qed.

Lemma parseLineToTags_faithful_witness :
  exists tags,
    parseLineToTags 8 (lit "a *b*") = Some tags /\ Forall tag_filled tags.
Proof.
  destruct (parseLineToTags_faithful (lit "a *b*"))
    as (tags & Hrun & Hall & _).
  exists tags. split; [|exact Hall].
  apply Hrun. vm_compute. lia.
Defined.

(** A literal is not the empty string. *)
Ltac lit_nonempty :=
  let H := fresh in intros H; vm_compute in H; discriminate H.

Lemma test_anywhere_false (m : text -> bool) (s : text) :
  test_anywhere m s = false ->
  forall pre x, s = pre ++ x -> m x = false.
Proof.
  intros H pre. revert s H. induction pre as [|a pre IH]; intros s H x ->.
  - destruct x; simpl in H; apply orb_false_elim in H; tauto.
  - simpl in H. apply orb_false_elim in H as [_ H]. eapply IH; eauto.
Qed.

Lemma split_lines_nonempty (s : text) : split_lines s <> [].
Proof.
  destruct s as [|c s]; simpl; [discriminate|].
  destruct (Ascii.eqb c LF); [discriminate|].
  destruct (split_lines s); discriminate.
Qed.

(** Joining the lines with newlines gives the text back. *)
Lemma join_split_lines (s : text) : join [LF] (split_lines s) = s.
Proof.
  induction s as [|c s IH]; [reflexivity|].
  simpl. destruct (Ascii.eqb c LF) eqn:E.
  - apply Ascii.eqb_eq in E. subst c.
    pose proof (split_lines_nonempty s) as Hne.
    destruct (split_lines s) as [|l ls]; [contradiction|].
    change (join [LF] ([] :: l :: ls))
      with ([] ++ [LF] ++ join [LF] (l :: ls)).
    rewrite IH. reflexivity.
  - pose proof (split_lines_nonempty s) as Hne.
    destruct (split_lines s) as [|l ls]; [contradiction|].
    rewrite <- IH. destruct ls; reflexivity.
Qed.

Lemma join_occurs (sep : text) (lines : list text) (line : text) :
  In line lines -> exists A B, join sep lines = A ++ line ++ B.
Proof.
  induction lines as [|x rest IH]; intros Hin; [contradiction|].
  destruct rest as [|y rest].
  - destruct Hin as [<- | []]. exists [], []. simpl.
    rewrite app_nil_r. reflexivity.
  - destruct Hin as [<- | Hin].
    + exists [], (sep ++ join sep (y :: rest)). reflexivity.
    + destruct (IH Hin) as (A & B & HAB).
      exists (x ++ sep ++ A), B.
      change (join sep (x :: y :: rest))
        with (x ++ sep ++ join sep (y :: rest)).
      rewrite HAB, <- !app_assoc. reflexivity.
Qed.

Lemma split_lines_occurs (s line : text) :
  In line (split_lines s) -> exists A B, s = A ++ line ++ B.
Proof.
  intros Hin. destruct (join_occurs [LF] _ _ Hin) as (A & B & H).
  rewrite join_split_lines in H. eauto.
Qed.

Lemma span_extend (p : ascii -> bool) (x B : text) :
  snd (span p x) <> [] ->
  span p (x ++ B) = (fst (span p x), snd (span p x) ++ B).
Proof.
  induction x as [|a x IH]; simpl; [contradiction|].
  destruct (p a).
  - destruct (span p x) as [run rest]. simpl in *.
    intros H. rewrite (IH H). reflexivity.
  - reflexivity.
Qed.

Lemma starts_with_extend (pat x B : text) :
  starts_with pat x = true -> starts_with pat (x ++ B) = true.
Proof.
  intros H. apply FormatFacts.starts_with_spec in H as [post ->].
  apply FormatFacts.starts_with_spec. exists (post ++ B).
  rewrite app_assoc. reflexivity.
Qed.

Lemma starts_with_nonempty (pat x : text) :
  pat <> [] -> starts_with pat x = true -> x <> [].
Proof. destruct pat, x; simpl; try discriminate; contradiction. Qed.

(** A match at the start of [x] is a match at the start of any text that
    goes on after [x]. *)
Lemma match_delimited_extend (open : text) (stop : ascii) (close x B : text)
    (m : Match) :
  close <> [] ->
  match_delimited open stop close x = Some m ->
  match_delimited open stop close (x ++ B) = Some m.
Proof.
  intros Hclose. unfold match_delimited.
  destruct (starts_with open x) eqn:Eo; [|discriminate].
  rewrite (starts_with_extend _ _ B Eo).
  apply FormatFacts.starts_with_spec in Eo as [post ->].
  rewrite <- app_assoc, !skipn_prefix.
  destruct (span (is_not stop) post) as [run rest] eqn:Es.
  destruct (negb (Nat.eqb (length run) 0) && starts_with close rest)%bool
    eqn:E; [|discriminate].
  apply andb_true_iff in E as [Hne Hc].
  assert (Hrest : snd (span (is_not stop) post) <> []).
  { rewrite Es. simpl. eapply starts_with_nonempty; eauto. }
  rewrite (span_extend _ _ B Hrest), Es. simpl.
  rewrite Hne, (starts_with_extend _ _ B Hc). simpl. auto.
Qed.

Lemma match_link_extend (x B : text) (m : Match) :
  match_link x = Some m -> match_link (x ++ B) = Some m.
Proof.
  unfold match_link.
  destruct (match_delimited (lit "[") "]" (lit "](") x) as [m1|] eqn:E1;
    [|discriminate].
  assert (Hclose : lit "](" <> []) by lit_nonempty.
  rewrite (match_delimited_extend _ _ _ _ B _ Hclose E1).
  apply match_delimited_spec in E1 as (rest1 & -> & _).
  rewrite <- app_assoc, !skipn_prefix.
  destruct (span (is_not ")") rest1) as [href rest] eqn:Es.
  destruct (negb (Nat.eqb (length href) 0) && starts_with (lit ")") rest)%bool
    eqn:E; [|discriminate].
  apply andb_true_iff in E as [Hne Hc].
  assert (Hrest : snd (span (is_not ")") rest1) <> []).
  { rewrite Es. cbn [snd]. eapply starts_with_nonempty; [|exact Hc].
    lit_nonempty. }
  rewrite (span_extend _ _ B Hrest), Es. cbn [fst snd].
  rewrite Hne, (starts_with_extend _ _ B Hc). cbn [andb]. auto.
Qed.

Lemma unmatched_inside (m : text -> option Match) (text_ A s B : text) :
  (forall x m', m x = Some m' -> m (x ++ B) = Some m') ->
  test_anywhere (matches m) text_ = false ->
  text_ = A ++ s ++ B ->
  m s = None.
Proof.
  intros Hext Htest Hs.
  pose proof (test_anywhere_false _ _ Htest A (s ++ B) Hs) as Hno.
  unfold matches in Hno.
  destruct (m s) as [m'|] eqn:E; [|reflexivity].
  rewrite (Hext _ _ E) in Hno. discriminate.
Qed.

(** X19.  Text that [needsRichText] finds plain is plain to the converter
    as well: in every line of it, no inline markup is recognized, so
    [parseLineToTags] yields unstyled text tags only, and their texts put
    together are the line, character for character. *)
Theorem plain_text_parses_plain (text_ line : text) :
  needsRichText text_ = false ->
  In line (split_lines text_) ->
  exists tags,
    (forall fuel, (length line < fuel)%nat ->
       parseLineToTags fuel line = Some tags) /\
    Forall plain_tag tags /\
    concat (map tag_chars tags) = line.
Proof.
  intros Hplain Hin. unfold needsRichText in Hplain.
  destruct (test_anywhere fenced_at text_); [discriminate|].
  destruct (test_anywhere (matches match_inline_code) text_) eqn:T1;
    [discriminate|].
  destruct (test_anywhere (matches match_link) text_) eqn:T2;
    [discriminate|].
  destruct (test_anywhere (matches match_bold_star) text_) eqn:T3;
    [discriminate|].
  destruct (test_anywhere (matches match_italic_star) text_) eqn:T4;
    [discriminate|].
  destruct (test_anywhere (matches match_bold_underscore) text_) eqn:T5;
    [discriminate|].
  destruct (test_anywhere (matches match_italic_underscore) text_) eqn:T6;
    [discriminate|].
  clear Hplain.
  destruct (split_lines_occurs _ _ Hin) as (A & B & Htext).
  destruct (parse_loop_result (length line) line (Nat.le_refl _))
    as (new & Hrun & _ & _ & _ & _ & Hp).
  destruct Hp as [Hp Hcat].
  { intros pre s Hline _.
    assert (Hs : text_ = (A ++ pre) ++ s ++ B).
    { rewrite Htext, Hline, <- !app_assoc. reflexivity. }
    repeat split.
    - eapply (unmatched_inside match_inline_code); eauto.
      intros x m'. apply match_delimited_extend. lit_nonempty.
    - eapply (unmatched_inside match_link); eauto.
      intros x m'. apply match_link_extend.
    - eapply (unmatched_inside match_bold_star); eauto.
      intros x m'. apply match_delimited_extend. lit_nonempty.
    - eapply (unmatched_inside match_bold_underscore); eauto.
      intros x m'. apply match_delimited_extend. lit_nonempty.
    - eapply (unmatched_inside match_italic_star); eauto.
      intros x m'. apply match_delimited_extend. lit_nonempty.
    - eapply (unmatched_inside match_italic_underscore); eauto.
      intros x m'. apply match_delimited_extend. lit_nonempty. }
  exists new. split; [|auto].
  intros fuel Hf. unfold parseLineToTags. rewrite (Hrun fuel [] Hf).
  reflexivity.
Qed.

Lemma plain_text_parses_plain_witness :
  exists tags,
    parseLineToTags 20 (lit "snake_case") = Some tags /\
    concat (map tag_chars tags) = lit "snake_case".
Proof.
  destruct (plain_text_parses_plain (lit "Use" ++ [LF] ++ lit "snake_case")
              (lit "snake_case"))
    as (tags & Hrun & _ & Hcat).
  - vm_compute. reflexivity.
  - right. left. reflexivity.
  - exists tags. split; [|exact Hcat]. apply Hrun. vm_compute. lia.
Defined.

(** *** [markdownToFeishuPost] *)

Lemma lines_size_cons (l : text) (ls : list text) :
  lines_size (l :: ls) = (S (length l) + lines_size ls)%nat.
Proof. reflexivity. Qed.

Lemma size_split_lines (s : text) :
  lines_size (split_lines s) = S (length s).
Proof.
  induction s as [|c s IH]; [reflexivity|].
  cbn [split_lines]. destruct (Ascii.eqb c LF).
  - rewrite lines_size_cons, IH. simpl. lia.
  - pose proof (split_lines_nonempty s).
    destruct (split_lines s) as [|l ls]; [contradiction|].
    rewrite lines_size_cons in *. simpl length. lia.
Qed.

Lemma code_lines_size (lines : list text) :
  (lines_size (snd (code_lines lines)) <= lines_size lines)%nat.
Proof.
  induction lines as [|line rest IH]; [reflexivity|].
  cbn [code_lines].
  destruct (starts_with (lit "```") line); [reflexivity|].
  destruct (code_lines rest) as [codeLines after]. cbn [snd] in *.
  rewrite lines_size_cons. lia.
Qed.

Lemma skipn_size (n : nat) (lines : list text) :
  (lines_size (skipn n lines) <= lines_size lines)%nat.
Proof.
  revert n. induction lines as [|l ls IH]; intros [|n]; cbn [skipn];
    try reflexivity.
  rewrite lines_size_cons. specialize (IH n). lia.
Qed.

Lemma match_list_item_spec (line : text) (m : Match) :
  match_list_item line = Some m ->
  (length (group2 m) <= length line)%nat /\ group1 m <> [].
Proof.
  unfold match_list_item.
  match goal with
  | |- match ?mk with _ => _ end = _ -> _ => destruct mk as [marker|] eqn:Em
  end; [|discriminate].
  destruct (span_spec is_white_space (skipn (length marker) line))
    as (Hs & _ & _).
  destruct (span is_white_space (skipn (length marker) line))
    as [space rest]. simpl in Hs.
  destruct (negb (Nat.eqb (length space) 0) && _)%bool; [|discriminate].
  intros H. injection H as <-. simpl. split.
  - apply (f_equal (@length ascii)) in Hs.
    rewrite length_skipn, length_app in Hs. lia.
  - destruct line as [|c line]; [discriminate|].
    destruct (is_bullet c); [injection Em as <-; discriminate|].
    destruct (span is_digit (c :: line)) as [digits rest'].
    destruct (negb (Nat.eqb (length digits) 0) && _)%bool; [|discriminate].
    injection Em as <-. destruct digits; discriminate.
Qed.

Lemma push_well_formed (content : list (list PostTag))
    (paragraph : list PostTag) :
  well_formed content ->
  paragraph <> [] ->
  (content = [] -> paragraph <> [tag_text [] None]) ->
  well_formed (content ++ [paragraph]).
Proof.
  intros [Hall Hhd] Hne Hfirst. split.
  - apply Forall_app. split; [exact Hall|]. constructor; [exact Hne|].
    constructor.
  - destruct content as [|p content]; simpl in *; [|exact Hhd].
    intros H. injection H as H. apply Hfirst; auto.
Qed.

Lemma parsed_paragraph (line : text) (fuel : nat) :
  (length line < fuel)%nat ->
  exists tags,
    parseLineToTags fuel line = Some tags /\
    Forall tag_filled tags /\ (line <> [] -> tags <> []).
Proof.
  intros Hf.
  destruct (parse_loop_result (length line) line (Nat.le_refl _))
    as (new & Hrun & Hall & _ & _ & Hne & _).
  exists new. unfold parseLineToTags. rewrite (Hrun fuel [] Hf). auto.
Qed.

Lemma post_loop_total (fuel : nat) :
  forall lines content,
    (lines_size lines < fuel)%nat -> well_formed content ->
    exists out, post_loop fuel lines content = Some out /\ well_formed out.
Proof.
  induction fuel as [|fuel IH]; intros lines content Hf Hwf; [lia|].
  destruct lines as [|line rest]; [exists content; auto|].
  cbn [post_loop]. rewrite lines_size_cons in Hf.
  destruct (match_fence line) as [codeBlockMatch|] eqn:Efence.
  { pose proof (code_lines_size rest) as Hsize.
    destruct (code_lines rest) as [codeLines after]. cbn [snd] in Hsize.
    apply IH.
    - pose proof (skipn_size 1 after). lia.
    - apply push_well_formed; [exact Hwf | discriminate | discriminate]. }
  destruct (match_list_item line) as [listMatch|] eqn:Elist.
  { destruct (match_list_item_spec _ _ Elist) as [Hlen Hmarker].
    destruct (parsed_paragraph (group2 listMatch) (S fuel))
      as (tags & -> & _); [lia|].
    apply IH; [lia|].
    apply push_well_formed; [exact Hwf | discriminate |].
    intros _ H. injection H as H _.
    destruct (ends_with_dot (group1 listMatch)).
    - destruct (group1 listMatch); discriminate.
    - vm_compute in H. discriminate. }
  destruct (is_truthy (Some (trim line))) eqn:Etrim.
  { assert (Hne : line <> []).
    { intros ->. discriminate. }
    destruct (parsed_paragraph line (S fuel)) as (tags & -> & Hall & Htags);
      [lia|].
    apply IH; [lia|].
    apply push_well_formed; [exact Hwf | exact (Htags Hne) |].
    intros _ ->. inversion Hall as [|? ? Hfilled _]. apply Hfilled.
    reflexivity. }
  destruct (0 <? length content)%nat eqn:Econtent.
  - apply IH; [lia|].
    apply push_well_formed; [exact Hwf | discriminate |].
    intros ->. discriminate.
  - apply IH; [lia | exact Hwf].
Qed.

(** X20.  [markdownToFeishuPost] always finishes (with room for two more
    iterations than the text has characters), sets no title, never makes
    an empty paragraph, and never starts the post with the filler
    paragraph of a blank line: blank lines at the top are skipped. *)
Theorem markdownToFeishuPost_total (markdown : text) (fuel : nat) :
  (length markdown + 2 <= fuel)%nat ->
  exists post,
    markdownToFeishuPost fuel markdown = Some post /\
    post_title post = None /\
    Forall (fun paragraph => paragraph <> []) (paragraphs post) /\
    hd_error (paragraphs post) <> Some [tag_text [] None].
Proof.
  intros Hf. unfold markdownToFeishuPost.
  destruct (post_loop_total fuel (split_lines markdown) [])
    as (out & -> & Hall & Hhd).
  - rewrite size_split_lines. lia.
  - split; [constructor | discriminate].
  - eexists. split; [reflexivity|]. simpl. auto.
Qed.

Lemma markdownToFeishuPost_total_witness :
  exists post,
    markdownToFeishuPost 20 ([LF] ++ lit "- a" ++ [LF] ++ lit "*b*")
    = Some post /\
    hd_error (paragraphs post) <> Some [tag_text [] None].
Proof.
  destruct (markdownToFeishuPost_total
              ([LF] ++ lit "- a" ++ [LF] ++ lit "*b*") 20)
    as (post & Hrun & _ & _ & Hhd).
  - vm_compute. lia.
  - exists post. split; [exact Hrun | exact Hhd].
Defined.

End MarkdownFacts.

(** ** send.ts *)

Module SendFacts.

Import Js JsFacts Format Targets Markdown Send MoreNotions TrimFacts.
Local Open Scope Z_scope.

Lemma slice_length (s : text) (a : Z) (b : option Z) :
  (length (slice s a b) <= length s)%nat.
Proof.
  unfold slice. rewrite length_firstn, length_skipn. lia.
Qed.

(** No chunk is longer than the text. *)
Lemma chunk_loop_lengths (n : nat) (m : Z) (fuel : nat) :
  forall (r : text) (acc out : list text),
    chunk_loop fuel r m acc = Some out ->
    Forall (fun c => (length c <= n)%nat) acc ->
    (length r <= n)%nat ->
    Forall (fun c => (length c <= n)%nat) out.
Proof.
  induction fuel as [|fuel IH]; intros r acc out H Hacc Hr; [discriminate|].
  simpl in H.
  destruct (len r <=? 0); [injection H as <-; exact Hacc|].
  destruct (len r <=? m).
  { injection H as <-. apply Forall_app. split; [exact Hacc|].
    constructor; [exact Hr | constructor]. }
  eapply IH; [exact H | |].
  - apply Forall_app. split; [exact Hacc|].
    constructor; [|constructor].
    pose proof (trim_length (slice r 0 (Some (breakPoint r m)))).
    pose proof (slice_length r 0 (Some (breakPoint r m))). lia.
  - pose proof (trim_length (slice r (breakPoint r m) None)).
    pose proof (slice_length r (breakPoint r m) None). lia.
Qed.

Lemma chunkFeishuText_lengths (fuel : nat) (t : text) (m : Z)
    (chunks : list text) :
  chunkFeishuText fuel t m = Some chunks ->
  Forall (fun c => (length c <= length t)%nat) chunks.
Proof.
  unfold chunkFeishuText. destruct (len t <=? m).
  - intros H. injection H as <-. constructor; [lia | constructor].
  - intros H. eapply chunk_loop_lengths; eauto.
Qed.

Lemma chunkFeishuText_nonempty (fuel : nat) (t : text) (m : Z)
    (chunks : list text) :
  non_white_space t <> [] ->
  chunkFeishuText fuel t m = Some chunks -> chunks <> [].
Proof.
  intros Ht. unfold chunkFeishuText. destruct (len t <=? m).
  - intros H. injection H as <-. discriminate.
  - intros H.
    apply FormatFacts.chunk_loop_non_white_space in H as (cs & -> & Hcs).
    cbn [app]. intros ->. apply Ht. rewrite <- Hcs. reflexivity.
Qed.

Lemma trimmed_has_text (s : text) :
  trim s <> [] -> non_white_space (trim s) <> [].
Proof.
  rewrite trim_non_white_space. intros H Hn. apply H.
  destruct (FormatFacts.trim_split s) as (w1 & w2 & Hw1 & Hw2 & Hs).
  destruct (trim s) as [|c u] eqn:E; [reflexivity|].
  exfalso.
  assert (Hc : is_white_space c = false).
  { unfold trim in E.
    destruct (trimStart s) as [|d v] eqn:Ed; [discriminate|].
    pose proof (trimStart_head _ _ _ Ed) as Hd.
    rewrite (trimEnd_cons _ _ Hd) in E. injection E as <- _. exact Hd. }
  rewrite Hs, !non_white_space_app in Hn.
  apply app_eq_nil in Hn as [_ Hn]. apply app_eq_nil in Hn as [Hn _].
  simpl in Hn. rewrite Hc in Hn. discriminate.
Qed.

(** The requests of the loop over the chunks: one per chunk, carrying it;
    only the first can be a reply. *)
Lemma chunk_calls_shape (fuel : nat) (receiveIdType : FeishuIdType)
    (receiveId : text) (replyToId : option text) (chunks : list text) :
  forall isFirstChunk calls,
    chunk_calls fuel receiveIdType receiveId replyToId isFirstChunk chunks
    = Some calls ->
    Forall2 (call_carries fuel) chunks calls /\
    match calls with
    | [] => chunks = []
    | first :: others =>
        match (if isFirstChunk then truthy replyToId else None) with
        | Some messageId => is_reply_to messageId first
        | None => is_send_to receiveIdType receiveId first
        end /\
        Forall (is_send_to receiveIdType receiveId) others
    end.
Proof.
  induction chunks as [|chunk rest IH]; intros isFirstChunk calls H.
  - injection H as <-. split; [constructor | reflexivity].
  - cbn [chunk_calls] in H.
    destruct (if needsRichText chunk
              then markdownToFeishuPostContent fuel chunk
              else Some (textToFeishuContent chunk)) as [content|] eqn:Ec;
      [|discriminate].
    destruct (chunk_calls fuel receiveIdType receiveId replyToId false rest)
      as [others|] eqn:Er; [|discriminate].
    injection H as <-.
    destruct (IH false others Er) as [Hcarry Hshape].
    split.
    + constructor; [|exact Hcarry].
      unfold call_carries.
      assert (Hcontent :
        if needsRichText chunk
        then markdownToFeishuPostContent fuel chunk = Some content
        else content = textToFeishuContent chunk).
      { destruct (needsRichText chunk).
        - exact Ec.
        - injection Ec as <-. reflexivity. }
      destruct (if isFirstChunk then truthy replyToId else None);
        destruct (needsRichText chunk); auto.
    + split.
      * destruct (if isFirstChunk then truthy replyToId else None);
          eexists _, _; reflexivity.
      * destruct others as [|second others]; [constructor|].
        destruct Hshape as [Hsecond Hothers].
        constructor; assumption.
Qed.

Lemma chunk_calls_total (fuel : nat) (receiveIdType : FeishuIdType)
    (receiveId : text) (replyToId : option text) (chunks : list text) :
  Forall (fun c => (length c + 2 <= fuel)%nat) chunks ->
  forall isFirstChunk,
  exists calls,
    chunk_calls fuel receiveIdType receiveId replyToId isFirstChunk chunks
    = Some calls.
Proof.
  induction 1 as [|chunk rest Hc _ IH]; intros isFirstChunk.
  - exists []. reflexivity.
  - cbn [chunk_calls].
    assert (Hcontent : exists content,
      (if needsRichText chunk
       then markdownToFeishuPostContent fuel chunk
       else Some (textToFeishuContent chunk)) = Some content).
    { destruct (needsRichText chunk); [|eauto].
      unfold markdownToFeishuPostContent, markdownToFeishuPost.
      destruct (MarkdownFacts.post_loop_total fuel (split_lines chunk) [])
        as (out & -> & _).
      - rewrite MarkdownFacts.size_split_lines. lia.
      - split; [constructor | discriminate].
      - eauto. }
    destruct Hcontent as (content & ->).
    destruct (IH false) as (calls & ->). eauto.
Qed.

Section Sending.

Variables (to message : text) (opts : FeishuSendOpts).

(** X21.  What [sendMessageFeishu] sends.  When it gets to make its
    requests, the message is not blank, the account has both
    credentials, the target parses, and there is one request per chunk
    of [chunkFeishuText] on the trimmed message, in order, each carrying
    its chunk: as the post [markdownToFeishuPostContent] makes of the
    chunk when [needsRichText] says so, and as the text of the chunk
    itself otherwise.  There is at least one request; the first is a
    reply to [replyToId] when that is given, and every other request is a
    new message to the id of the target, addressed as a chat id for a
    chat and as an open id for any user target, union ids included. *)
Theorem sendMessageFeishu_calls (fuel : nat) (calls : list ApiCall) :
  sendMessageFeishu fuel to message opts = Some (inr calls) ->
  exists account target chunks,
    trim message <> [] /\
    resolveAccountFromOpts opts = inr account /\
    sender_appId account <> [] /\ sender_appSecret account <> [] /\
    parseFeishuTarget to = Some target /\
    chunkFeishuText fuel (trim message)
      (nullish (sender_textChunkLimit account) FEISHU_TEXT_LIMIT)
    = Some chunks /\
    Forall2 (call_carries fuel) chunks calls /\
    let receiveIdType :=
      match kind target with
      | chat => type_chat_id
      | user => type_open_id
      end in
    match calls with
    | [] => False
    | first :: others =>
        match truthy (opts_replyToId opts) with
        | Some messageId => is_reply_to messageId first
        | None => is_send_to receiveIdType (id target) first
        end /\
        Forall (is_send_to receiveIdType (id target)) others
    end.
Proof.
  unfold sendMessageFeishu. cbv zeta.
  destruct (is_truthy (Some (trim message))) eqn:Et; [|discriminate].
  apply is_truthy_nonempty in Et. cbn [negb].
  destruct (resolveAccountFromOpts opts) as [e|account]; [discriminate|].
  destruct (is_truthy (Some (sender_appId account))) eqn:Ea;
    [|discriminate].
  destruct (is_truthy (Some (sender_appSecret account))) eqn:Es;
    [|discriminate].
  apply is_truthy_nonempty in Ea, Es. cbn [negb orb].
  destruct (parseFeishuTarget to) as [target|]; [|discriminate].
  destruct (chunkFeishuText fuel (trim message) _) as [chunks|] eqn:Ec;
    [|discriminate].
  destruct (chunk_calls fuel _ _ _ true chunks) as [calls'|] eqn:Ecalls;
    [|discriminate].
  intros H. injection H as <-.
  exists account, target, chunks.
  destruct (chunk_calls_shape _ _ _ _ _ _ _ Ecalls) as [Hcarry Hshape].
  repeat (split; [first [assumption | reflexivity]|]).
  destruct calls' as [|first others]; [|exact Hshape].
  apply (chunkFeishuText_nonempty _ _ _ _ (trimmed_has_text _ Et) Ec).
  exact Hshape.
Qed.

(** X22.  With a chunk limit of at least one, [sendMessageFeishu] always
    finishes, in an error or with its requests: room for two more
    iterations than the trimmed message has characters is enough for the
    chunker and for the converter. *)
Theorem sendMessageFeishu_terminates (fuel : nat) :
  (forall account, resolveAccountFromOpts opts = inr account ->
     1 <= nullish (sender_textChunkLimit account) FEISHU_TEXT_LIMIT) ->
  (length (trim message) + 2 <= fuel)%nat ->
  exists result, sendMessageFeishu fuel to message opts = Some result.
Proof.
  intros Hlimit Hfuel. unfold sendMessageFeishu. cbv zeta.
  destruct (negb (is_truthy (Some (trim message)))); [eauto|].
  destruct (resolveAccountFromOpts opts) as [e|account]; [eauto|].
  specialize (Hlimit account eq_refl).
  destruct (_ || _)%bool; [eauto|].
  destruct (parseFeishuTarget to) as [target|]; [|eauto].
  assert (Hchunks : exists chunks,
    chunkFeishuText fuel (trim message)
      (nullish (sender_textChunkLimit account) FEISHU_TEXT_LIMIT)
    = Some chunks).
  { unfold chunkFeishuText. destruct (len (trim message) <=? _); [eauto|].
    destruct (FormatFacts.chunk_loop_terminates _ fuel Hlimit (trim message)
                []) as [cs Hcs]; [lia|].
    eauto. }
  destruct Hchunks as [chunks Hc]. rewrite Hc.
  destruct (chunk_calls_total fuel
              match kind target with
              | chat => type_chat_id
              | user => type_open_id
              end (id target) (opts_replyToId opts) chunks)
    with true as [calls ->]; [|eauto].
  eapply List.Forall_impl; [|exact (chunkFeishuText_lengths _ _ _ _ Hc)].
  intros c Hlen. simpl in Hlen. lia.
Qed.

(** X23.  An account configured with a chunk limit of zero makes
    [sendMessageFeishu] run forever on any message longer than nothing:
    zero is not replaced by the default of 4000, and the chunker never
    shortens the remainder.  No request is made. *)
Theorem sendMessageFeishu_zero_limit (account : SenderAccount)
    (target : FeishuTarget) :
  trim message <> [] ->
  resolveAccountFromOpts opts = inr account ->
  sender_appId account <> [] -> sender_appSecret account <> [] ->
  parseFeishuTarget to = Some target ->
  sender_textChunkLimit account = Some 0 ->
  forall fuel, sendMessageFeishu fuel to message opts = None.
Proof.
  intros Ht Hacc Ha Hs Htarget Hzero fuel.
  unfold sendMessageFeishu. cbv zeta.
  apply is_truthy_nonempty in Ha, Hs.
  pose proof (proj2 (is_truthy_nonempty _) Ht) as Ht'.
  rewrite Ht', Hacc, Ha, Hs, Htarget, Hzero. cbn [negb orb nullish].
  unfold chunkFeishuText.
  destruct (len (trim message) <=? 0) eqn:E.
  { apply Z.leb_le, len_nil_iff in E. contradiction. }
  rewrite FormatFacts.chunk_loop_zero_diverges; [reflexivity|].
  apply trimmed_has_text, Ht.
Qed.

End Sending.

End SendFacts.

(** ** send.ts with its callers *)

Module DeliveryFacts.

Import Js JsFacts Format Targets Markdown Send Replies MoreNotions
  MoreFixtures TrimFacts.
Local Open Scope Z_scope.

Lemma sendMessageFeishu_calls_witness :
  exists target,
    parseFeishuTarget (lit "chat:oc_1") = Some target /\
    id target = lit "oc_1".
Proof.
  destruct (SendFacts.sendMessageFeishu_calls (lit "chat:oc_1") (lit "hi")
              (send_opts sender_account None) 10
              [sendFeishuMessage type_chat_id (lit "oc_1") msg_text
                 (content_text (lit "hi"))])
    as (account & target & chunks & _ & _ & _ & _ & Ht & _).
  - vm_compute. reflexivity.
  - exists target. split; [exact Ht|].
    vm_compute in Ht. injection Ht as <-. reflexivity.
Defined.

Lemma sendMessageFeishu_terminates_witness :
  exists result,
    sendMessageFeishu 10 (lit "chat:oc_1") (lit "*hi*")
      (send_opts sender_account None) = Some result.
Proof.
  apply SendFacts.sendMessageFeishu_terminates.
  - intros account H. vm_compute in H. injection H as <-.
    vm_compute. discriminate.
  - vm_compute. lia.
Defined.

Lemma sendMessageFeishu_zero_limit_witness :
  sendMessageFeishu 5 (lit "chat:oc_1") (lit "hi")
    (send_opts zero_limit_account None) = None.
Proof.
  apply (SendFacts.sendMessageFeishu_zero_limit (lit "chat:oc_1") (lit "hi")
           (send_opts zero_limit_account None) zero_limit_account
           {| kind := chat; id := lit "oc_1";
              idType := Some type_chat_id |});
    try reflexivity; vm_compute; discriminate.
Defined.

Lemma not_blank_is_accepted (fuel : nat) (to message : text)
    (opts : FeishuSendOpts) :
  trim message <> [] ->
  sendMessageFeishu fuel to message opts <> Some (inl RequiresTextMessage).
Proof.
  intros Ht. unfold sendMessageFeishu. cbv zeta.
  apply is_truthy_nonempty in Ht. rewrite Ht. cbn [negb].
  unfold resolveAccountFromOpts.
  destruct (opts_account opts) as [account|];
    [|destruct (opts_cfg opts) as [account|]; [|discriminate]];
    (destruct (_ || _)%bool; [discriminate|]);
    (destruct (parseFeishuTarget to); [|discriminate]);
    (destruct (chunkFeishuText _ _ _); [|discriminate]);
    (destruct (chunk_calls _ _ _ _ _ _); discriminate).
Qed.

(** X24.  The reply dispatcher sends every chunk and every media marker
    to the target as a reply to the one [replyToId] it was created with,
    and skips blank chunks: unless the text is blank and there is no
    media, its messages are the chunks that are not blank, in order,
    followed by one marker per media URL.  Neither it nor
    [deliverFeishuReplies] ever makes [sendMessageFeishu] fail for want
    of a text. *)
Theorem deliveries_carry_text (chunkTextWithMode : text -> Z -> list text)
    (isSilentReplyText : text -> bool) (target : text) (textLimit : Z)
    (replyToId : option text) (payload : ReplyDispatcher.DeliverPayload)
    (replies : list ReplyPayload) :
  let dispatched :=
    ReplyDispatcher.deliver chunkTextWithMode target textLimit replyToId
      payload in
  let delivered :=
    deliverFeishuReplies isSilentReplyText replies target replyToId in
  let text_ := nullish (ReplyDispatcher.deliver_text payload) [] in
  let mediaList := nullish (ReplyDispatcher.deliver_mediaUrls payload) [] in
  Forall (fun c => call_to c = target /\ call_replyToId c = replyToId)
    dispatched /\
  map call_message dispatched
  = (if (negb (is_truthy (Some (trim text_)))
         && Nat.eqb (length mediaList) 0)%bool
     then []
     else
       List.filter (fun chunk => is_truthy (Some (trim chunk)))
         (if is_truthy (Some text_) then chunkTextWithMode text_ textLimit
          else [])
       ++ map (app ReplyDispatcher.MEDIA_MARK) mediaList) /\
  Forall (fun c => forall fuel opts,
            sendMessageFeishu fuel (call_to c) (call_message c) opts
            <> Some (inl RequiresTextMessage))
    (dispatched ++ delivered).
Proof.
  cbv zeta. split; [|split].
  - unfold ReplyDispatcher.deliver. cbv zeta.
    destruct (_ && _)%bool; [constructor|].
    apply Forall_app. split; apply List.Forall_forall; intros c Hc;
      apply in_map_iff in Hc as (x & <- & _); split; reflexivity.
  - unfold ReplyDispatcher.deliver. cbv zeta.
    destruct (_ && _)%bool; [reflexivity|].
    rewrite List.map_app, !List.map_map. cbn [call_message].
    rewrite List.map_id. reflexivity.
  - apply Forall_app. split; apply List.Forall_forall; intros c Hc fuel opts;
      apply not_blank_is_accepted.
    + unfold ReplyDispatcher.deliver in Hc. cbv zeta in Hc.
      destruct (_ && _)%bool; [contradiction|].
      apply in_app_or in Hc as [Hc | Hc];
        apply in_map_iff in Hc as (x & <- & Hx);
        cbn [call_message].
      * apply filter_In in Hx as [_ Hx].
        apply is_truthy_nonempty, Hx.
      * apply trim_nonempty. rewrite non_white_space_app.
        intros H. apply app_eq_nil in H as [H _].
        vm_compute in H. discriminate H.
    + unfold deliverFeishuReplies in Hc.
      apply in_flat_map in Hc as (p & _ & Hc).
      apply RepliesFacts.payload_calls_spec in Hc. tauto.
Qed.

End DeliveryFacts.
